(** * go-nebulas, core/blockchain.go: the canonical-chain manager

    A shallow embedding of [core/blockchain.go] and a verification of the
    statements its specification makes about it.

    - byte strings ([byteutils.Hash], storage keys and values) are
      [list byte];
    - [uint64] heights are [Z], with the wrap-around of [+ 1] written out
      where the code adds;
    - the key-value store ([storage.Storage]) and the protobuf codec are Go
      interfaces, hence type classes here; an in-memory store with fault
      injection instantiates them for the concrete runs;
    - the two [lru.Cache] fields are recency-ordered association lists;
    - every method of [*BlockChain] threads the chain explicitly; loops that
      walk parent pointers take fuel, and [None] means the fuel ran out. *)

From Stdlib Require Import ZArith List Lia Bool.
From Stdlib.Strings Require Import String Ascii Byte.
From stdpp Require Import base option list countable gmap strings.

Local Open Scope Z_scope.
Local Open Scope list_scope.

(** ** Byte strings *)

Abbreviation bytes := (list byte).

(** [byteutils.Hash] is [[]byte]. *)
Abbreviation Hash := (list byte).

#[global] Instance byte_eq_dec : EqDecision byte := Byte.byte_eq_dec.

#[global] Instance byte_countable : Countable byte :=
  inj_countable Byte.to_N Byte.of_N Byte.of_to_N.

(** [Hash.Equals], that is [bytes.Equal]. *)
Definition Equals (a b : Hash) : bool := bool_decide (a = b).

Definition hexdigits : list ascii :=
  list_ascii_of_string "0123456789abcdef".

Definition hex_digit (n : N) : ascii :=
  nth (N.to_nat n) hexdigits "0"%char.

Definition hex_hi (b : byte) : ascii := hex_digit (Byte.to_N b / 16).
Definition hex_lo (b : byte) : ascii := hex_digit (Byte.to_N b mod 16).

(** Modelled from the spec: [byteutils.Hash.Hex] (util/byteutils is not in
    the excerpt), "keyed by the hex-encoded hash": two lower-case hexadecimal
    digits per byte. *)
Fixpoint Hex (h : Hash) : string :=
  match h with
  | [] => EmptyString
  | b :: t => String (hex_hi b) (String (hex_lo b) (Hex t))
  end.

Definition unhex_digit (c : ascii) : N :=
  let n := N_of_ascii c in
  if (n <? 58)%N then (n - 48)%N else (n - 87)%N.

Definition unhex_byte (c1 c2 : ascii) : option byte :=
  Byte.of_N (unhex_digit c1 * 16 + unhex_digit c2).

Definition byte_of_Z (z : Z) : byte :=
  match Byte.of_N (Z.to_N (z mod 256)) with
  | Some b => b
  | None => x00
  end.

Fixpoint be_bytes (n : nat) (z : Z) : bytes :=
  match n with
  | O => []
  | S n' => be_bytes n' (z / 256) ++ [byte_of_Z z]
  end.

(** Modelled from the spec: [byteutils.FromUint64] (util/byteutils is not in
    the excerpt), "Height key = 8-byte big-endian unsigned". *)
Definition FromUint64 (v : Z) : bytes := be_bytes 8 v.

Definition uint64_max : Z := 2 ^ 64 - 1.

(** Conversion [uint64(x)] of a Go integer, and [uint64] addition. *)
Definition to_uint64 (x : Z) : Z := x mod 2 ^ 64.
Definition add64 (x y : Z) : Z := (x + y) mod 2 ^ 64.

(** Conversion to [int64] and the increment of an [int64] counter. *)
Definition to_int64 (x : Z) : Z := (x + 2 ^ 63) mod 2 ^ 64 - 2 ^ 63.

(** [[]byte(Tail)] for [Tail = "blockchain_tail"]. *)
Definition Tail : bytes := list_byte_of_string "blockchain_tail".

(** ** Errors *)

Inductive error : Type :=
| ErrKeyNotFound                    (* storage.ErrKeyNotFound *)
| ErrMissingParentBlock
| ErrCannotFindBlockAtGivenHeight
| ErrGenesisConfNotMatch
| ErrStorage (msg : string)         (* any other error of the store *)
| ErrProto (msg : string)           (* an error of the protobuf layer *)
| ErrOther (msg : string).          (* an error of another collaborator *)

#[global] Instance error_eq_dec : EqDecision error.
Proof. solve_decision. Defined.

(** A Go pair [(value, err)] where exactly one side is meaningful. *)
Inductive result (A : Type) : Type :=
| Ok (a : A)
| Err (e : error).
Arguments Ok {A} a.
Arguments Err {A} e.

#[global] Instance result_eq_dec {A} `{EqDecision A} : EqDecision (result A).
Proof. solve_decision. Defined.

(** ** Blocks *)

Record Transaction : Type := {
  tx_hash : Hash;
  gasPrice : Z;
  tx_timestamp : Z
}.

Record Block : Type := {
  hash : Hash;                       (* block.header.hash, Hash() *)
  parentHash : Hash;                 (* block.header.parentHash, ParentHash() *)
  height : Z;                        (* block.height, Height(): uint64 *)
  blockChainID : Z;                  (* block.header.chainID, ChainID(): uint32 *)
  timestamp : Z;                     (* block.header.timestamp *)
  transactions : list Transaction
}.

#[global] Instance Transaction_eq_dec : EqDecision Transaction.
Proof. solve_decision. Defined.

#[global] Instance Block_eq_dec : EqDecision Block.
Proof. solve_decision. Defined.

(** [*corepb.Genesis]; this file reads [Meta.ChainId] only. *)
Record Genesis : Type := {
  Meta_ChainId : Z
}.

(** ** The LRU cache of hashicorp/golang-lru

    The head of [lru_items] is the most recently used entry; eviction drops
    the last one. *)

Record lru (V : Type) : Type := {
  lru_size : nat;
  lru_items : list (string * V)
}.
Arguments lru_size {V} _.
Arguments lru_items {V} _.

Section LRU.
Context {V : Type}.

Definition lru_New (n : nat) : lru V :=
  {| lru_size := n; lru_items := [] |}.

Fixpoint assoc (k : string) (l : list (string * V)) : option V :=
  match l with
  | [] => None
  | (k', v) :: t => if bool_decide (k' = k) then Some v else assoc k t
  end.

Fixpoint unassoc (k : string) (l : list (string * V)) : list (string * V) :=
  match l with
  | [] => []
  | (k', v) :: t =>
      if bool_decide (k' = k) then unassoc k t else (k', v) :: unassoc k t
  end.

(** [Peek]: the value without touching recency. *)
Definition lru_Peek (k : string) (c : lru V) : option V :=
  assoc k (lru_items c).

Definition lru_Contains (k : string) (c : lru V) : bool :=
  match lru_Peek k c with Some _ => true | None => false end.

(** [Get] moves a found entry to the front. *)
Definition lru_Get (k : string) (c : lru V) : lru V * option V :=
  match assoc k (lru_items c) with
  | Some v =>
      ({| lru_size := lru_size c;
          lru_items := (k, v) :: unassoc k (lru_items c) |}, Some v)
  | None => (c, None)
  end.

(** [Add]: refresh an existing entry, or push a new one to the front and
    evict the oldest when the size is exceeded. *)
Definition lru_Add (k : string) (v : V) (c : lru V) : lru V :=
  match assoc k (lru_items c) with
  | Some _ =>
      {| lru_size := lru_size c;
         lru_items := (k, v) :: unassoc k (lru_items c) |}
  | None =>
      let items := (k, v) :: lru_items c in
      {| lru_size := lru_size c;
         lru_items := if (lru_size c <? length items)%nat
                      then removelast items else items |}
  end.

(** Modelled from the spec: [ContainsOrAdd] (golang-lru is an outside
    library), "if the key exists, do nothing; else insert (LRU eviction may
    follow)". *)
Definition lru_ContainsOrAdd (k : string) (v : V) (c : lru V) : lru V :=
  if lru_Contains k c then c else lru_Add k v c.

Definition lru_Remove (k : string) (c : lru V) : lru V :=
  {| lru_size := lru_size c; lru_items := unassoc k (lru_items c) |}.

(** [Keys]: oldest first. *)
Definition lru_Keys (c : lru V) : list string :=
  rev (map fst (lru_items c)).

End LRU.

(** ** Collaborators

    [storage.Storage] is a Go interface: [Get(key) ([]byte, error)] and
    [Put(key, value) error].  An implementation decides what a state is; [Put]
    returns the next state together with Go's [err] ([None] is [nil]). *)

Class Storage : Type := {
  store : Type;
  Get : store -> bytes -> result bytes;
  Put : store -> bytes -> bytes -> store * option error
}.

(** What the chain manager expects of a store: a successful [Put] is read
    back, and leaves every other key as it was. *)
Class StorageLaws `{Storage} : Prop := {
  Get_Put_eq : forall s k v s', Put s k v = (s', None) -> Get s' k = Ok v;
  Get_Put_ne : forall s k v s' k',
      Put s k v = (s', None) -> k' <> k -> Get s' k' = Get s k'
}.

(** The protobuf layer: [Block.ToProto] with [proto.Marshal], and
    [proto.Unmarshal] with [Block.FromProto]; each step may fail. *)
Class BlockCodec : Type := {
  pbBlock : Type;
  ToProto : Block -> result pbBlock;
  Marshal : pbBlock -> result bytes;
  Unmarshal : bytes -> result pbBlock;
  FromProto : pbBlock -> result Block
}.

(** The parts of package [core] that [NewBlockChain] calls and the excerpt
    does not define. *)
Class Collaborators `{Storage} : Type := {
  GenesisHash : Hash;
  NewBlockPool : Z -> option error;
  NewTransactionPool : Z -> option error;
  NewGenesisBlock : Genesis -> store -> store * result Block;
  DumpGenesis : store -> result Genesis
}.

(** The process-wide gauges and meter of the file.  The tail-hash gauge
    holds a digest of the hash in Go; the hash itself is kept here.  The two
    timers read the wall clock and are left out. *)
Record Metrics : Type := {
  blockHeightGauge : Z;
  blocktailHashGauge : Hash;
  blockRevertTimesGauge : Z;
  blockRevertMeter : Z
}.

(** What the methods write to the log, newest entry last. *)
Inductive LogEntry : Type :=
| LogRevertedBlock (b : Block)                (* Warn  "Succeed to revert block." *)
| LogFindAncestorFailed (target tl : Block)   (* Error "Failed to find common ancestor with tail" *)
| LogRevertFailed (from to : Block)           (* Error "Failed to revert blocks." *)
| LogBuildIndexFailed (from to : Block)       (* Error "Failed to build index by block height." *)
| LogFetchDescendantFailed (h : Z)            (* Error "Failed to fetch descendant." *)
| LogAccepted (b : Block).                    (* Info  "Accepted the new block on chain" *)

Section Chain.
Context `{Sto : Storage} `{Codec : BlockCodec}.

(** The fields of [BlockChain] this file reads or writes, the gauges and
    the log.  [bkPool], [consensusHandler], [neb] and [eventEmitter] are
    only handed on by the methods below. *)
Record BlockChain : Type := {
  chainID : Z;
  genesis : Genesis;
  genesisBlock : Block;
  tailBlock : Block;
  txPool : list Transaction;
  cachedBlocks : lru Block;
  detachedTailBlocks : lru Block;
  storage : store;
  gauges : Metrics;
  vlog : list LogEntry
}.

Definition set_tailBlock (b : Block) (bc : BlockChain) : BlockChain :=
  {| chainID := chainID bc; genesis := genesis bc;
     genesisBlock := genesisBlock bc; tailBlock := b;
     txPool := txPool bc; cachedBlocks := cachedBlocks bc;
     detachedTailBlocks := detachedTailBlocks bc; storage := storage bc;
     gauges := gauges bc; vlog := vlog bc |}.

Definition set_txPool (p : list Transaction) (bc : BlockChain) : BlockChain :=
  {| chainID := chainID bc; genesis := genesis bc;
     genesisBlock := genesisBlock bc; tailBlock := tailBlock bc;
     txPool := p; cachedBlocks := cachedBlocks bc;
     detachedTailBlocks := detachedTailBlocks bc; storage := storage bc;
     gauges := gauges bc; vlog := vlog bc |}.

Definition set_cachedBlocks (c : lru Block) (bc : BlockChain) : BlockChain :=
  {| chainID := chainID bc; genesis := genesis bc;
     genesisBlock := genesisBlock bc; tailBlock := tailBlock bc;
     txPool := txPool bc; cachedBlocks := c;
     detachedTailBlocks := detachedTailBlocks bc; storage := storage bc;
     gauges := gauges bc; vlog := vlog bc |}.

Definition set_detachedTailBlocks (c : lru Block) (bc : BlockChain)
  : BlockChain :=
  {| chainID := chainID bc; genesis := genesis bc;
     genesisBlock := genesisBlock bc; tailBlock := tailBlock bc;
     txPool := txPool bc; cachedBlocks := cachedBlocks bc;
     detachedTailBlocks := c; storage := storage bc;
     gauges := gauges bc; vlog := vlog bc |}.

Definition set_storage (s : store) (bc : BlockChain) : BlockChain :=
  {| chainID := chainID bc; genesis := genesis bc;
     genesisBlock := genesisBlock bc; tailBlock := tailBlock bc;
     txPool := txPool bc; cachedBlocks := cachedBlocks bc;
     detachedTailBlocks := detachedTailBlocks bc; storage := s;
     gauges := gauges bc; vlog := vlog bc |}.

Definition set_gauges (g : Metrics) (bc : BlockChain) : BlockChain :=
  {| chainID := chainID bc; genesis := genesis bc;
     genesisBlock := genesisBlock bc; tailBlock := tailBlock bc;
     txPool := txPool bc; cachedBlocks := cachedBlocks bc;
     detachedTailBlocks := detachedTailBlocks bc; storage := storage bc;
     gauges := g; vlog := vlog bc |}.

Definition log (e : LogEntry) (bc : BlockChain) : BlockChain :=
  {| chainID := chainID bc; genesis := genesis bc;
     genesisBlock := genesisBlock bc; tailBlock := tailBlock bc;
     txPool := txPool bc; cachedBlocks := cachedBlocks bc;
     detachedTailBlocks := detachedTailBlocks bc; storage := storage bc;
     gauges := gauges bc; vlog := vlog bc ++ [e] |}.

(** *** Block store *)

(** Modelled from the spec: [LoadBlockFromStorage] (core/block.go is not in
    the excerpt), "fetch bytes; if absent, return miss; otherwise decode";
    every error of the store or of the decoder is returned as it is.  The
    event it emits is not modelled. *)
Definition LoadBlockFromStorage (h : Hash) (s : store) : result Block :=
  match Get s h with
  | Err e => Err e
  | Ok value =>
      match Unmarshal value with
      | Err e => Err e
      | Ok pb => FromProto pb
      end
  end.

Definition storeBlockToStorage (block : Block) (s : store)
  : store * option error :=
  match ToProto block with
  | Err e => (s, Some e)
  | Ok pb =>
      match Marshal pb with
      | Err e => (s, Some e)
      | Ok value => Put s (hash block) value
      end
  end.

Definition storeTailToStorage (block : Block) (s : store)
  : store * option error :=
  Put s Tail (hash block).

(** [GetBlock]: the cache first ([Get] refreshes the entry), then the
    store; any error of the load is turned into [nil]. *)
Definition GetBlock (h : Hash) (bc : BlockChain) : BlockChain * option Block :=
  let (c, v) := lru_Get (Hex h) (cachedBlocks bc) in
  let bc := set_cachedBlocks c bc in
  match v with
  | None =>
      match LoadBlockFromStorage h (storage bc) with
      | Err _ => (bc, None)
      | Ok block => (bc, Some block)
      end
  | Some block => (bc, Some block)
  end.

Definition GetBlockByHeight (h : Z) (bc : BlockChain)
  : BlockChain * option Block :=
  match Get (storage bc) (FromUint64 h) with
  | Err _ => (bc, None)
  | Ok blockHash => GetBlock blockHash bc
  end.

(** Modelled from the spec: [Block.ReturnTransactions] (core/block.go is
    not in the excerpt), "moves its transactions back into the pending
    transaction pool". *)
Definition ReturnTransactions (b : Block) (bc : BlockChain) : BlockChain :=
  set_txPool (txPool bc ++ transactions b) bc.

(** *** Head reconciler *)

(** The loop of [revertBlocks]; the result is [revertTimes]. *)
Fixpoint revertLoop (fuel : nat) (from reverted : Block) (revertTimes : Z)
  (bc : BlockChain) : option (BlockChain * result Z) :=
  if Equals (hash reverted) (hash from) then Some (bc, Ok revertTimes)
  else
    match fuel with
    | O => None
    | S fuel' =>
        let bc := ReturnTransactions reverted bc in
        let bc := log (LogRevertedBlock reverted) bc in
        let revertTimes := to_int64 (revertTimes + 1) in
        let (bc, p) := GetBlock (parentHash reverted) bc in
        match p with
        | None => Some (bc, Err ErrMissingParentBlock)
        | Some reverted => revertLoop fuel' from reverted revertTimes bc
        end
    end.

Definition revertBlocks (fuel : nat) (from to : Block) (bc : BlockChain)
  : option (BlockChain * option error) :=
  match revertLoop fuel from to 0 bc with
  | None => None
  | Some (bc, Err e) => Some (bc, Some e)
  | Some (bc, Ok revertTimes) =>
      if 0 <? revertTimes then
        let g := gauges bc in
        Some (set_gauges
                {| blockHeightGauge := blockHeightGauge g;
                   blocktailHashGauge := blocktailHashGauge g;
                   blockRevertTimesGauge := revertTimes;
                   blockRevertMeter := blockRevertMeter g + 1 |} bc, None)
      else Some (bc, None)
  end.

Fixpoint buildIndexByBlockHeight (fuel : nat) (from to : Block)
  (bc : BlockChain) : option (BlockChain * option error) :=
  if Equals (hash to) (hash from) then Some (bc, None)
  else
    match fuel with
    | O => None
    | S fuel' =>
        let (s, err) := Put (storage bc) (FromUint64 (height to)) (hash to) in
        let bc := set_storage s bc in
        match err with
        | Some e => Some (bc, Some e)
        | None =>
            let (bc, p) := GetBlock (parentHash to) bc in
            match p with
            | None => Some (bc, Some ErrMissingParentBlock)
            | Some to => buildIndexByBlockHeight fuel' from to bc
            end
        end
    end.

(** *** Ancestor resolver *)

(** [for cur.Height() > h { cur = bc.GetBlock(cur.header.parentHash) ... }]:
    the two height-aligning loops of [FindCommonAncestorWithTail]; [None]
    inside the result is the [nil] parent. *)
Fixpoint climb (fuel : nat) (h : Z) (cur : Block) (bc : BlockChain)
  : option (BlockChain * option Block) :=
  if h <? height cur then
    match fuel with
    | O => None
    | S fuel' =>
        let (bc, p) := GetBlock (parentHash cur) bc in
        match p with
        | None => Some (bc, None)
        | Some cur => climb fuel' h cur bc
        end
    end
  else Some (bc, Some cur).

(** The last loop: both cursors step until their hashes agree. *)
Fixpoint meet (fuel : nat) (tl target : Block) (bc : BlockChain)
  : option (BlockChain * result Block) :=
  if Equals (hash tl) (hash target) then Some (bc, Ok target)
  else
    match fuel with
    | O => None
    | S fuel' =>
        let (bc, tl') := GetBlock (parentHash tl) bc in
        let (bc, target') := GetBlock (parentHash target) bc in
        match tl', target' with
        | Some tl, Some target => meet fuel' tl target bc
        | _, _ => Some (bc, Err ErrMissingParentBlock)
        end
    end.

(** "fast check if the block is an ancestor of current tail". *)
Definition fastCheck (tl block : Block) (bc : BlockChain)
  : BlockChain * bool :=
  if height block <=? height tl then
    let (bc, localBlock) := GetBlockByHeight (height block) bc in
    match localBlock with
    | Some lb => (bc, Equals (hash lb) (hash block))
    | None => (bc, false)
    end
  else (bc, false).

(** "check if the block can be found in local storage; if existed, then
    find the common ancestor": the rest of the function. *)
Definition anchorAndWalk (fuel : nat) (tl block : Block) (bc : BlockChain)
  : option (BlockChain * result Block) :=
  let (bc, target) := GetBlock (hash block) bc in
  let (bc, target) :=
    match target with
    | None => GetBlock (parentHash block) bc
    | Some _ => (bc, target)
    end in
  match target with
  | None => Some (bc, Err ErrMissingParentBlock)
  | Some target =>
      match climb fuel (height target) tl bc with
      | None => None
      | Some (bc, None) => Some (bc, Err ErrMissingParentBlock)
      | Some (bc, Some tl) =>
          match climb fuel (height tl) target bc with
          | None => None
          | Some (bc, None) => Some (bc, Err ErrMissingParentBlock)
          | Some (bc, Some target) => meet fuel tl target bc
          end
      end
  end.

Definition FindCommonAncestorWithTail (fuel : nat) (block : Block)
  (bc : BlockChain) : option (BlockChain * result Block) :=
  let tl := tailBlock bc in
  let (bc, fast) := fastCheck tl block bc in
  if fast then Some (bc, Ok block) else anchorAndWalk fuel tl block bc.

(** The tail of [SetTailBlock] from "build index by block height" on. *)
Definition reindexAndCommit (fuel : nat) (ancestor newTail : Block)
  (bc : BlockChain) : option (BlockChain * option error) :=
  match buildIndexByBlockHeight fuel ancestor newTail bc with
  | None => None
  | Some (bc, Some e) =>
      Some (log (LogBuildIndexFailed ancestor newTail) bc, Some e)
  | Some (bc, None) =>
      let (s, err) := storeTailToStorage newTail (storage bc) in
      let bc := set_storage s bc in
      match err with
      | Some e => Some (bc, Some e)
      | None =>
          let bc := set_tailBlock newTail bc in
          let g := gauges bc in
          Some (set_gauges
                  {| blockHeightGauge := to_int64 (height newTail);
                     blocktailHashGauge := hash newTail;
                     blockRevertTimesGauge := blockRevertTimesGauge g;
                     blockRevertMeter := blockRevertMeter g |} bc, None)
      end
  end.

Definition SetTailBlock (fuel : nat) (newTail : Block) (bc : BlockChain)
  : option (BlockChain * option error) :=
  let oldTail := tailBlock bc in
  match FindCommonAncestorWithTail fuel newTail bc with
  | None => None
  | Some (bc, Err e) =>
      Some (log (LogFindAncestorFailed newTail oldTail) bc, Some e)
  | Some (bc, Ok ancestor) =>
      match revertBlocks fuel ancestor oldTail bc with
      | None => None
      | Some (bc, Some _) =>
          (* the errors can be skipped *)
          reindexAndCommit fuel ancestor newTail
            (log (LogRevertFailed ancestor oldTail) bc)
      | Some (bc, None) => reindexAndCommit fuel ancestor newTail bc
      end
  end.

(** *** Descendant fetch *)

(** The loop of [FetchDescendantInCanonicalChain]; [n] is the Go [int],
    [index] and the heights are [uint64]. *)
Fixpoint fetchLoop (fuel : nat) (curHeight tailHeight n index : Z)
  (res : list Block) (bc : BlockChain)
  : option (BlockChain * result (list Block)) :=
  if (add64 curHeight index <=? tailHeight) && (index <? to_uint64 n) then
    match fuel with
    | O => None
    | S fuel' =>
        let (bc, block) := GetBlockByHeight (add64 curHeight index) bc in
        match block with
        | None =>
            Some (log (LogFetchDescendantFailed (add64 curHeight index)) bc,
                  Err ErrCannotFindBlockAtGivenHeight)
        | Some block =>
            fetchLoop fuel' curHeight tailHeight n (add64 index 1)
              (res ++ [block]) bc
        end
    end
  else Some (bc, Ok res).

Definition FetchDescendantInCanonicalChain (fuel : nat) (n : Z)
  (block : Block) (bc : BlockChain)
  : option (BlockChain * result (list Block)) :=
  let curHeight := add64 (height block) 1 in
  let tailHeight := height (tailBlock bc) in
  fetchLoop fuel curHeight tailHeight n 0 [] bc.

(** *** Ingest of verified blocks *)

(** The first loop of [putVerifiedNewBlocks], over [allBlocks]. *)
Fixpoint putAllBlocks (allBlocks : list Block) (bc : BlockChain)
  : BlockChain * option error :=
  match allBlocks with
  | [] => (bc, None)
  | v :: rest =>
      let bc :=
        set_cachedBlocks
          (lru_ContainsOrAdd (Hex (hash v)) v (cachedBlocks bc)) bc in
      let (s, err) := storeBlockToStorage v (storage bc) in
      let bc := set_storage s bc in
      match err with
      | Some e => (bc, Some e)
      | None => putAllBlocks rest (log (LogAccepted v) bc)
      end
  end.

(** The second loop, over [tailBlocks]. *)
Definition addTails (tailBlocks : list Block) (d : lru Block) : lru Block :=
  fold_left (fun d v => lru_ContainsOrAdd (Hex (hash v)) v d) tailBlocks d.

Definition putVerifiedNewBlocks (parent : Block)
  (allBlocks tailBlocks : list Block) (bc : BlockChain)
  : BlockChain * option error :=
  match putAllBlocks allBlocks bc with
  | (bc, Some e) => (bc, Some e)
  | (bc, None) =>
      let d := addTails tailBlocks (detachedTailBlocks bc) in
      let d := lru_Remove (Hex (hash parent)) d in
      (set_detachedTailBlocks d bc, None)
  end.

Definition DetachedTailBlocks (bc : BlockChain) : BlockChain * list Block :=
  fold_left
    (fun (acc : BlockChain * list Block) k =>
       let (bc, ret) := acc in
       let (d, v) := lru_Get k (detachedTailBlocks bc) in
       (set_detachedTailBlocks d bc,
        match v with Some block => ret ++ [block] | None => ret end))
    (lru_Keys (detachedTailBlocks bc)) (bc, []).

(** *** Bootstrap

    [loadGenesisFromStorage], [loadTailFromStorage] and [NewBlockChain] run
    on a chain whose blocks are still [nil]; they read [bc.genesis] and
    [bc.storage] only, which are their arguments here.  Their console log
    is not modelled. *)
Section Bootstrap.
Context `{Col : !Collaborators}.

Definition loadGenesisFromStorage (conf : Genesis) (s : store)
  : store * result Block :=
  match LoadBlockFromStorage GenesisHash s with
  | Err _ =>
      let (s, r) := NewGenesisBlock conf s in
      match r with
      | Err e => (s, Err e)
      | Ok genesis =>
          let (s, err) := storeBlockToStorage genesis s in
          match err with
          | Some e => (s, Err e)
          | None =>
              let heightKey := FromUint64 (height genesis) in
              let (s, err) := Put s heightKey (hash genesis) in
              match err with
              | Some e => (s, Err e)
              | None => (s, Ok genesis)
              end
          end
      end
  | Ok genesis =>
      if bool_decide (Meta_ChainId conf <> blockChainID genesis)
      then (s, Err ErrGenesisConfNotMatch)
      else (s, Ok genesis)
  end.

Definition loadTailFromStorage (conf : Genesis) (s : store)
  : store * result Block :=
  match Get s Tail with
  | Err ErrKeyNotFound =>
      let (s, r) := loadGenesisFromStorage conf s in
      match r with
      | Err e => (s, Err e)
      | Ok genesis =>
          let (s, err) := storeTailToStorage genesis s in
          match err with
          | Some e => (s, Err e)
          | None => (s, Ok genesis)
          end
      end
  | Err e => (s, Err e)
  | Ok h => (s, LoadBlockFromStorage h s)
  end.

(** [neb.Genesis()] is [conf], [neb.Storage()] is [s]; [g] is the state
    of the process-wide gauges.  [Err] is the [(nil, err)] return: no
    chain is created. *)
Definition NewBlockChain (conf : Genesis) (s : store) (g : Metrics)
  : store * result BlockChain :=
  match NewBlockPool 1024 with
  | Some e => (s, Err e)
  | None =>
      match NewTransactionPool 65536 with
      | Some e => (s, Err e)
      | None =>
          let (s, r) := loadGenesisFromStorage conf s in
          match r with
          | Err e => (s, Err e)
          | Ok gb =>
              match DumpGenesis s with
              | Err e => (s, Err e)
              | Ok _ =>
                  let (s, r) := loadTailFromStorage conf s in
                  match r with
                  | Err e => (s, Err e)
                  | Ok tb =>
                      (s, Ok {| chainID := Meta_ChainId conf;
                                genesis := conf;
                                genesisBlock := gb;
                                tailBlock := tb;
                                txPool := [];
                                cachedBlocks := lru_New 1024;
                                detachedTailBlocks := lru_New 64;
                                storage := s;
                                gauges := g;
                                vlog := [] |})
                  end
              end
          end
      end
  end.

End Bootstrap.

End Chain.

(** ** Vocabulary of the specification *)

Section Spec.
Context `{Sto : Storage} `{Codec : BlockCodec}.

(** What [GetBlock] and [GetBlockByHeight] answer in a given state. *)
Definition lookupBlock (bc : BlockChain) (h : Hash) : option Block :=
  (GetBlock h bc).2.

Definition lookupHeight (bc : BlockChain) (h : Z) : option Block :=
  (GetBlockByHeight h bc).2.

(** Block hashes are 32 bytes long; this keeps block records, height keys
    (8 bytes) and the head pointer (15 bytes) apart. *)
Definition BlockHashLength : nat := 32.

Definition in_store (bc : BlockChain) (b : Block) : Prop :=
  length (hash b) = BlockHashLength /\ lookupBlock bc (hash b) = Some b.

(** [ancestor bc a b]: [a] is [b] or is reached from [b] by parent-hash
    lookups. *)
Inductive ancestor (bc : BlockChain) : Block -> Block -> Prop :=
| ancestor_refl b : in_store bc b -> ancestor bc b b
| ancestor_step a p b :
    in_store bc b ->
    lookupBlock bc (parentHash b) = Some p ->
    ancestor bc a p ->
    ancestor bc a b.

(** The data model of the specification, section 3: a block is found under
    its own hash, and a block with a parent is one higher than it.  A root
    that names itself as parent is allowed. *)
Record well_formed (bc : BlockChain) : Prop := {
  wf_hash : forall h b,
      length h = BlockHashLength -> lookupBlock bc h = Some b -> hash b = h;
  wf_parent : forall b,
      in_store bc b -> length (parentHash b) = BlockHashLength;
  wf_height : forall b p,
      in_store bc b -> lookupBlock bc (parentHash b) = Some p ->
      parentHash b <> hash b -> height b = height p + 1;
  wf_range : forall b, in_store bc b -> 0 <= height b <= uint64_max
}.

(** Invariant 2 of the specification, for the chain of the current head. *)
Definition canonical_index (bc : BlockChain) : Prop :=
  forall x, ancestor bc x (tailBlock bc) ->
            Get (storage bc) (FromUint64 (height x)) = Ok (hash x).

(** Two states answer every block lookup alike; and: every lookup under a
    block hash. *)
Definition same_lookups (bc bc' : BlockChain) : Prop :=
  forall h, lookupBlock bc' h = lookupBlock bc h.

Definition same_blocks (bc bc' : BlockChain) : Prop :=
  forall h, length h = BlockHashLength ->
            lookupBlock bc' h = lookupBlock bc h.

(** [bc'] is [bc] up to the recency order of the block cache. *)
Definition touched (bc bc' : BlockChain) : Prop :=
  storage bc' = storage bc /\ tailBlock bc' = tailBlock bc /\
  txPool bc' = txPool bc /\ vlog bc' = vlog bc /\
  gauges bc' = gauges bc /\
  detachedTailBlocks bc' = detachedTailBlocks bc /\
  forall k, lru_Peek k (cachedBlocks bc') = lru_Peek k (cachedBlocks bc).

(** [bc'] is [bc] after [ReturnTransactions] on the blocks [bs], each
    logged; the gauges are not described. *)
Definition after_revert (bs : list Block) (bc bc' : BlockChain) : Prop :=
  storage bc' = storage bc /\ tailBlock bc' = tailBlock bc /\
  detachedTailBlocks bc' = detachedTailBlocks bc /\
  txPool bc' = txPool bc ++ concat (map transactions bs) /\
  vlog bc' = vlog bc ++ map LogRevertedBlock bs /\
  forall k, lru_Peek k (cachedBlocks bc') = lru_Peek k (cachedBlocks bc).

(** [bc'] is [bc] but for the store and the recency order of the cache. *)
Definition after_index (bc bc' : BlockChain) : Prop :=
  tailBlock bc' = tailBlock bc /\ txPool bc' = txPool bc /\
  vlog bc' = vlog bc /\ gauges bc' = gauges bc /\
  detachedTailBlocks bc' = detachedTailBlocks bc /\
  forall k, lru_Peek k (cachedBlocks bc') = lru_Peek k (cachedBlocks bc).

(** How a walk by parent pointers towards [from] ends. *)
Inductive outcome : Type := Reached | Missed.

(** [walks bc from cur bs o]: starting at [cur], the walk visits exactly
    [bs] (in this order, [from] excluded) and then either stands on a block
    with the hash of [from], or finds no parent. *)
Inductive walks (bc : BlockChain) (from : Block)
  : Block -> list Block -> outcome -> Prop :=
| walks_reached cur :
    hash cur = hash from -> walks bc from cur [] Reached
| walks_missed cur :
    hash cur <> hash from ->
    lookupBlock bc (parentHash cur) = None ->
    walks bc from cur [cur] Missed
| walks_step cur p bs o :
    hash cur <> hash from ->
    lookupBlock bc (parentHash cur) = Some p ->
    walks bc from p bs o ->
    walks bc from cur (cur :: bs) o.

(** The height-index entry of a block, and a run of [Put]s that stops at
    the first error. *)
Definition indexEntry (b : Block) : bytes * bytes :=
  (FromUint64 (height b), hash b).

Fixpoint putAll (entries : list (bytes * bytes)) (s : store)
  : store * option error :=
  match entries with
  | [] => (s, None)
  | (k, v) :: rest =>
      match Put s k v with
      | (s, Some e) => (s, Some e)
      | (s, None) => putAll rest s
      end
  end.

(** The detached-tails update in the order the specification words it
    (section 4.3): remove the parent, then insert each tail. *)
Definition detached_as_specified (parent : Block) (tailBlocks : list Block)
  (d : lru Block) : lru Block :=
  addTails tailBlocks (lru_Remove (Hex (hash parent)) d).

(** The blocks met walking up from [b], as far as the fuel goes; whether
    that walk ends on a missing parent within the fuel; and executable
    checks of [ancestor] and [canonical_index] on such a chain. *)
Fixpoint chain_of (fuel : nat) (bc : BlockChain) (b : Block) : list Block :=
  match fuel with
  | O => []
  | S fuel' =>
      b :: match lookupBlock bc (parentHash b) with
           | Some p => chain_of fuel' bc p
           | None => []
           end
  end.

Fixpoint chain_closed (fuel : nat) (bc : BlockChain) (b : Block) : bool :=
  match fuel with
  | O => false
  | S fuel' =>
      match lookupBlock bc (parentHash b) with
      | Some p => chain_closed fuel' bc p
      | None => true
      end
  end.

Definition chain_stored (fuel : nat) (bc : BlockChain) (b : Block) : bool :=
  forallb (fun y => bool_decide (in_store bc y)) (chain_of fuel bc b).

Definition canonical_check (fuel : nat) (bc : BlockChain) : bool :=
  chain_closed fuel bc (tailBlock bc) &&
  forallb (fun x => bool_decide (Get (storage bc) (FromUint64 (height x))
                                 = Ok (hash x)))
    (chain_of fuel bc (tailBlock bc)).

(** The heights [FetchDescendantInCanonicalChain] is specified to return:
    [block.height + 1 .. min (head.height, block.height + n)]. *)
Definition descendant_heights (n : Z) (block : Block) (bc : BlockChain)
  : list Z :=
  seqZ (height block + 1)
    (Z.min (height (tailBlock bc)) (height block + n) - height block).

End Spec.

(** ** An in-memory store, a wire format and a small block tree

    The instances the concrete runs below use.  A cell of the store holds
    either a value or the error every read of it reports (an unreadable
    record); [put_script] tells, for the next [Put]s in turn, whether the
    write fails. *)

Module Sample.

Record MemStore : Type := {
  cells : gmap bytes (result bytes);
  put_script : list bool
}.

Definition mem_Get (s : MemStore) (k : bytes) : result bytes :=
  match cells s !! k with
  | Some r => r
  | None => Err ErrKeyNotFound
  end.

Definition mem_Put (s : MemStore) (k v : bytes) : MemStore * option error :=
  match put_script s with
  | true :: rest =>
      ({| cells := cells s; put_script := rest |},
       Some (ErrStorage "write failed"))
  | _ =>
      ({| cells := <[k := Ok v]> (cells s);
          put_script := tail (put_script s) |}, None)
  end.

#[export] Instance mem_storage : Storage :=
  {| store := MemStore; Get := mem_Get; Put := mem_Put |}.

(** A length-prefixed big-endian wire format standing in for protobuf. *)
Definition be_value (l : bytes) : Z :=
  fold_left (fun acc b => acc * 256 + Z.of_N (Byte.to_N b)) l 0.

Definition take (n : Z) (l : bytes) : option (bytes * bytes) :=
  if Z.of_nat (length l) <? n then None
  else Some (firstn (Z.to_nat n) l, skipn (Z.to_nat n) l).

Definition put_lp (x : bytes) : bytes :=
  be_bytes 4 (Z.of_nat (length x)) ++ x.

Definition get_lp (l : bytes) : option (bytes * bytes) :=
  '(n, r) ← take 4 l; take (be_value n) r.

Definition get_int (w : Z) (l : bytes) : option (Z * bytes) :=
  '(x, r) ← take w l; Some (be_value x, r).

Definition put_tx (t : Transaction) : bytes :=
  put_lp (tx_hash t) ++ be_bytes 16 (gasPrice t)
    ++ be_bytes 8 (tx_timestamp t).

Definition get_tx (l : bytes) : option (Transaction * bytes) :=
  '(h, l) ← get_lp l;
  '(g, l) ← get_int 16 l;
  '(t, l) ← get_int 8 l;
  Some ({| tx_hash := h; gasPrice := g; tx_timestamp := t |}, l).

Fixpoint get_txs (n : nat) (l : bytes)
  : option (list Transaction * bytes) :=
  match n with
  | O => Some ([], l)
  | S n' =>
      '(t, l) ← get_tx l;
      '(ts, l) ← get_txs n' l;
      Some (t :: ts, l)
  end.

Definition wire_of_block (b : Block) : bytes :=
  put_lp (hash b) ++ put_lp (parentHash b) ++ be_bytes 8 (height b)
    ++ be_bytes 4 (blockChainID b) ++ be_bytes 8 (timestamp b)
    ++ be_bytes 4 (Z.of_nat (length (transactions b)))
    ++ concat (map put_tx (transactions b)).

Definition block_of_wire (l : bytes) : option Block :=
  '(h, l) ← get_lp l;
  '(p, l) ← get_lp l;
  '(ht, l) ← get_int 8 l;
  '(c, l) ← get_int 4 l;
  '(t, l) ← get_int 8 l;
  '(n, l) ← get_int 4 l;
  '(txs, l) ← (if Z.of_nat (length l) <? n then None
               else get_txs (Z.to_nat n) l);
  match l with
  | [] => Some {| hash := h; parentHash := p; height := ht;
                  blockChainID := c; timestamp := t; transactions := txs |}
  | _ :: _ => None
  end.

#[export] Instance wire_codec : BlockCodec :=
  {| pbBlock := bytes;
     ToProto := fun b => Ok (wire_of_block b);
     Marshal := fun pb => Ok pb;
     Unmarshal := fun value => Ok value;
     FromProto := fun pb =>
       match block_of_wire pb with
       | Some b => Ok b
       | None => Err (ErrProto "malformed block")
       end |}.

Definition h32 (b : byte) : Hash := replicate 32 b.

Definition mkBlock (h p : byte) (ht : Z) (txs : list Transaction) : Block :=
  {| hash := h32 h; parentHash := h32 p; height := ht; blockChainID := 1;
     timestamp := 0; transactions := txs |}.

Definition mkTx (h : byte) : Transaction :=
  {| tx_hash := h32 h; gasPrice := 1; tx_timestamp := 0 |}.

(** Genesis [G] at height 0, whose parent hash names no block; the chain
    [G - B1 - B2] and the fork [G - C1 - C2]. *)
Definition G : Block := mkBlock x00 xff 0 [].
Definition B1 : Block := mkBlock x01 x00 1 [mkTx xa1].
Definition B2 : Block := mkBlock x02 x01 2 [mkTx xa2].
Definition C1 : Block := mkBlock x11 x00 1 [mkTx xb1].
Definition C2 : Block := mkBlock x12 x11 2 [].

#[export] Instance collaborators : Collaborators :=
  {| GenesisHash := h32 x00;
     NewBlockPool := fun _ => None;
     NewTransactionPool := fun _ => None;
     NewGenesisBlock := fun conf s =>
       (s, Ok {| hash := h32 x00; parentHash := h32 xff; height := 0;
                 blockChainID := Meta_ChainId conf; timestamp := 0;
                 transactions := [] |});
     DumpGenesis := fun s =>
       match LoadBlockFromStorage (h32 x00) s with
       | Ok g => Ok {| Meta_ChainId := blockChainID g |}
       | Err e => Err e
       end |}.

Definition empty_store : MemStore := {| cells := ∅; put_script := [] |}.

Definition zero_gauges : Metrics :=
  {| blockHeightGauge := 0; blocktailHashGauge := [];
     blockRevertTimesGauge := 0; blockRevertMeter := 0 |}.

Definition conf1 : Genesis := {| Meta_ChainId := 1 |}.
Definition conf2 : Genesis := {| Meta_ChainId := 2 |}.

(** The next [Put]s of the chain's store fail as [script] says. *)
Definition with_script (script : list bool) (bc : BlockChain) : BlockChain :=
  set_storage {| cells := cells (storage bc); put_script := script |} bc.

(** The record under key [k] becomes unreadable. *)
Definition with_unreadable (k : bytes) (bc : BlockChain) : BlockChain :=
  set_storage
    {| cells := <[k := Err (ErrStorage "read failed")]> (cells (storage bc));
       put_script := put_script (storage bc) |} bc.

(** A chain as [NewBlockChain] makes it on an empty store, or a chain of
    [G] alone if that fails. *)
Definition fallback : BlockChain :=
  {| chainID := 1; genesis := conf1; genesisBlock := G; tailBlock := G;
     txPool := []; cachedBlocks := lru_New 1024;
     detachedTailBlocks := lru_New 64; storage := empty_store;
     gauges := zero_gauges; vlog := [] |}.

Definition booted : BlockChain :=
  match NewBlockChain conf1 empty_store zero_gauges with
  | (_, Ok bc) => bc
  | (_, Err _) => fallback
  end.

Definition run {A} (r : option (BlockChain * A)) : BlockChain :=
  match r with
  | Some (bc, _) => bc
  | None => fallback
  end.

(** Scenario 2 of the specification, with the fork of scenario 3 already
    stored: both branches are put, and [B2] is made the head. *)
Definition st_put : BlockChain :=
  (putVerifiedNewBlocks G [B1; B2; C1; C2] [B2; C2] booted).1.

Definition st_linear : BlockChain := run (SetTailBlock 8 B2 st_put).

(** [SetTailBlock C2] whose third write, the head pointer, fails: the
    height index already names [C1] and [C2], the head is still [B2]. *)
Definition st_torn : BlockChain :=
  run (SetTailBlock 8 C2 (with_script [false; false; true] st_linear)).

(** The chain after a restart on the store of [st_linear]: the cache is
    empty.  Then the record of [B1] becomes unreadable. *)
Definition st_restarted : BlockChain :=
  match NewBlockChain conf1 (storage st_linear) zero_gauges with
  | (_, Ok bc) => bc
  | (_, Err _) => fallback
  end.

Definition st_unreadable : BlockChain := with_unreadable (hash B1) st_restarted.

(** Sixty-four fork tips on [G], the oldest [leaf 100], the newest
    [leaf 163]: a full detached-tails set. *)
Definition leaf (n : Z) : Block :=
  {| hash := replicate 32 (byte_of_Z n); parentHash := h32 x00; height := 1;
     blockChainID := 1; timestamp := 0; transactions := [] |}.

Definition st_full : BlockChain :=
  (putVerifiedNewBlocks G [] (map leaf (seqZ 100 64)) booted).1.


(** An executable check of [well_formed] for this store and codec. *)
Definition stored_blocks (bc : BlockChain) : list (Hash * Block) :=
  omap (fun hr : Hash * result bytes =>
          match hr.2 with
          | Ok v => match block_of_wire v with
                    | Some b => Some (hr.1, b)
                    | None => None
                    end
          | Err _ => None
          end)
    (map_to_list (cells (storage bc))).

Definition candidates (bc : BlockChain) : list Block :=
  map snd (lru_items (cachedBlocks bc)) ++ map snd (stored_blocks bc).

Definition block_ok (bc : BlockChain) (b : Block) : bool :=
  bool_decide (length (parentHash b) = BlockHashLength) &&
  bool_decide (0 <= height b <= uint64_max) &&
  match lookupBlock bc (parentHash b) with
  | Some p => bool_decide (parentHash b = hash b)
              || bool_decide (height b = height p + 1)
  | None => true
  end.

Definition wf_check (bc : BlockChain) : bool :=
  forallb (fun kb : string * Block => bool_decide (kb.1 = Hex (hash kb.2)))
    (lru_items (cachedBlocks bc)) &&
  forallb (fun hb : Hash * Block =>
             bool_decide (length hb.1 = BlockHashLength -> hash hb.2 = hb.1))
    (stored_blocks bc) &&
  forallb (fun b => negb (bool_decide (in_store bc b)) || block_ok bc b)
    (candidates bc).

End Sample.

(** ** The rest of the file: cache bounds, codec round trips, gas price *)

(** What an [lru.Cache] keeps: one entry per key, never more than its size. *)
Definition lru_ok {V} (c : lru V) : Prop :=
  NoDup (map fst (lru_items c)) /\ (length (lru_items c) <= lru_size c)%nat.

(** How a Go call that may dereference [nil] ends. *)
Inductive returned (A : Type) : Type :=
| Returned (a : A)
| NilDereference.
Arguments Returned {A} a.
Arguments NilDereference {A}.

#[global] Instance returned_eq_dec {A} `{EqDecision A}
  : EqDecision (returned A).
Proof. solve_decision. Defined.

Section More.
Context `{Sto : Storage} `{Codec : BlockCodec}.

Definition caches_ok (bc : BlockChain) : Prop :=
  lru_ok (cachedBlocks bc) /\ lru_ok (detachedTailBlocks bc).

(** The bytes that [storeBlockToStorage] writes for [b] decode to [b]. *)
Definition round_trips (b : Block) : Prop :=
  forall pb value,
    ToProto b = Ok pb -> Marshal pb = Ok value ->
    exists pb', Unmarshal value = Ok pb' /\ FromProto pb' = Ok b.

(** The writes of a successful [SetTailBlock]: the index entries of the
    blocks of the new branch, then the head pointer. *)
Definition commitEntries (new : list Block) (newTail : Block)
  : list (bytes * bytes) :=
  map indexEntry new ++ [(Tail, hash newTail)].

Section GasPrice.
(** [CheckGenesisBlock], [TransactionMaxGasPrice] and [TransactionGasPrice]
    are declared elsewhere in package [core]; gas prices ([*util.Uint128])
    are [Z]. *)
Variable CheckGenesisBlock : Block -> bool.
Variables TransactionMaxGasPrice TransactionGasPrice : Z.

(** The first loop of [GasPrice]: walk up from the head to the genesis block
    or to a block with transactions.  A [nil] parent is dereferenced on the
    next pass, by [CheckGenesisBlock] or by [len(tailBlock.transactions)],
    at the latest by the [len] after the loop. *)
Fixpoint gasPriceBlock (fuel : nat) (tailBlock : Block) (bc : BlockChain)
  : option (BlockChain * returned Block) :=
  if CheckGenesisBlock tailBlock then Some (bc, Returned tailBlock)
  else if (0 <? length (transactions tailBlock))%nat
  then Some (bc, Returned tailBlock)
  else
    match fuel with
    | O => None
    | S fuel' =>
        let (bc, p) := GetBlock (parentHash tailBlock) bc in
        match p with
        | None => Some (bc, NilDereference)
        | Some tailBlock => gasPriceBlock fuel' tailBlock bc
        end
    end.

(** [for _, tx := range ... { if tx.gasPrice.Cmp(gasPrice.Int) < 0 { gasPrice
    = tx.gasPrice } }]. *)
Definition lowestGasPrice (txs : list Transaction) (gasPrice0 : Z) : Z :=
  fold_left (fun gp tx => if gasPrice tx <? gp then gasPrice tx else gp)
    txs gasPrice0.

Definition GasPrice (fuel : nat) (bc : BlockChain)
  : option (BlockChain * returned Z) :=
  match gasPriceBlock fuel (tailBlock bc) bc with
  | None => None
  | Some (bc, NilDereference) => Some (bc, NilDereference)
  | Some (bc, Returned b) =>
      if (0 <? length (transactions b))%nat
      then Some (bc, Returned (lowestGasPrice (transactions b)
                                 TransactionMaxGasPrice))
      else Some (bc, Returned TransactionGasPrice)
  end.

End GasPrice.

End More.

(** Further sample data: gas constants, and a head without transactions. *)
Module SampleMore.
Import Sample.

Definition isGenesis (b : Block) : bool := bool_decide (hash b = h32 x00).

Definition maxGasPrice : Z := 1000000000000.
Definition defaultGasPrice : Z := 1000000.

(** [C2], which has no transactions, made the head: its parent [C1] has
    one. *)
Definition st_fork : BlockChain := run (SetTailBlock 8 C2 st_linear).

(** The chain after a restart on the store of [st_fork], with the record of
    the head's parent [C1] unreadable. *)
Definition st_fork_restarted : BlockChain :=
  match NewBlockChain conf1 (storage st_fork) zero_gauges with
  | (_, Ok bc) => bc
  | (_, Err _) => fallback
  end.

Definition st_fork_unreadable : BlockChain :=
  with_unreadable (hash C1) st_fork_restarted.

(** The stores that [NewBlockChain] goes through on its first start. *)
Definition s_block : MemStore := (storeBlockToStorage G empty_store).1.
Definition s_index : MemStore :=
  (Put s_block (FromUint64 (height G)) (hash G)).1.
Definition s_tail : MemStore := (Put s_index Tail (hash G)).1.

End SampleMore.

(** * Proofs *)

(** ** Keys *)

Lemma unhex_hex (b : byte) : unhex_byte (hex_hi b) (hex_lo b) = Some b.
Proof. destruct b; reflexivity. Qed.

Lemma Hex_inj (a b : Hash) : Hex a = Hex b -> a = b.
Proof.
  revert b; induction a as [|x a IH]; intros [|y b] E; simpl in E;
    try discriminate; [reflexivity|].
  injection E as Ehi Elo Et.
  assert (Some x = Some y) as [= ->]
    by (rewrite <- (unhex_hex x), <- (unhex_hex y), Ehi, Elo; reflexivity).
  f_equal; auto.
Qed.

Lemma byte_of_Z_to_N (z : Z) : Byte.to_N (byte_of_Z z) = Z.to_N (z mod 256).
Proof.
  unfold byte_of_Z.
  destruct (Byte.of_N (Z.to_N (z mod 256))) as [b|] eqn:E.
  - now apply Byte.to_of_N.
  - apply Byte.of_N_None_iff in E.
    pose proof (Z.mod_pos_bound z 256 ltac:(lia)). lia.
Qed.

Lemma byte_of_Z_inj (x y : Z) :
  byte_of_Z x = byte_of_Z y -> x mod 256 = y mod 256.
Proof.
  intros E. apply (f_equal Byte.to_N) in E.
  rewrite !byte_of_Z_to_N in E.
  pose proof (Z.mod_pos_bound x 256 ltac:(lia)).
  pose proof (Z.mod_pos_bound y 256 ltac:(lia)). lia.
Qed.

Lemma be_bytes_length (n : nat) (z : Z) : length (be_bytes n z) = n.
Proof.
  revert z; induction n as [|n IH]; intros z; simpl; [reflexivity|].
  rewrite length_app, IH. simpl. lia.
Qed.

Lemma be_bytes_inj (n : nat) (x y : Z) :
  0 <= x < 256 ^ Z.of_nat n -> 0 <= y < 256 ^ Z.of_nat n ->
  be_bytes n x = be_bytes n y -> x = y.
Proof.
  revert x y; induction n as [|n IH]; intros x y Hx Hy E.
  - simpl in Hx, Hy. lia.
  - simpl in E. apply app_inj_tail in E as [E1 E2].
    apply byte_of_Z_inj in E2.
    rewrite Nat2Z.inj_succ, Z.pow_succ_r in Hx, Hy by lia.
    assert (x / 256 = y / 256) as Hq.
    { apply IH; [| |exact E1].
      - split; [apply Z.div_pos; lia|apply Z.div_lt_upper_bound; lia].
      - split; [apply Z.div_pos; lia|apply Z.div_lt_upper_bound; lia]. }
    rewrite (Z.div_mod x 256), (Z.div_mod y 256) by lia. congruence.
Qed.

Lemma FromUint64_length (v : Z) : length (FromUint64 v) = 8%nat.
Proof. apply be_bytes_length. Qed.

Lemma FromUint64_inj (x y : Z) :
  0 <= x <= uint64_max -> 0 <= y <= uint64_max ->
  FromUint64 x = FromUint64 y -> x = y.
Proof.
  unfold uint64_max. intros Hx Hy.
  apply be_bytes_inj; change (256 ^ Z.of_nat 8) with (2 ^ 64); lia.
Qed.

Lemma Tail_length : length Tail = 15%nat.
Proof. reflexivity. Qed.

Lemma Equals_true (a b : Hash) : Equals a b = true <-> a = b.
Proof. unfold Equals. apply bool_decide_eq_true. Qed.

Lemma Equals_false (a b : Hash) : Equals a b = false <-> a <> b.
Proof. unfold Equals. apply bool_decide_eq_false. Qed.

(** ** The LRU cache *)

Section LRUFacts.
Context {V : Type}.
Implicit Types (l : list (string * V)) (c : lru V).

Lemma assoc_unassoc_eq k l : assoc k (unassoc k l) = None.
Proof.
  induction l as [|[k' v] l IH]; simpl; [reflexivity|].
  destruct (bool_decide (k' = k)) eqn:E; simpl; [exact IH|].
  rewrite E. exact IH.
Qed.

Lemma assoc_unassoc_ne k k' l :
  k' <> k -> assoc k' (unassoc k l) = assoc k' l.
Proof.
  intros Hne. induction l as [|[k0 v] l IH]; simpl; [reflexivity|].
  destruct (bool_decide (k0 = k)) eqn:E; simpl.
  - apply bool_decide_eq_true in E. subst k0.
    rewrite bool_decide_eq_false_2 by congruence. exact IH.
  - destruct (bool_decide (k0 = k')); [reflexivity|exact IH].
Qed.

Lemma lru_Get_value k c : (lru_Get k c).2 = lru_Peek k c.
Proof. unfold lru_Get, lru_Peek. destruct (assoc k (lru_items c)); reflexivity. Qed.

Lemma lru_Get_Peek k k' c : lru_Peek k' (lru_Get k c).1 = lru_Peek k' c.
Proof.
  unfold lru_Get, lru_Peek.
  destruct (assoc k (lru_items c)) as [v|] eqn:E; simpl; [|reflexivity].
  destruct (bool_decide (k = k')) eqn:Ek.
  - apply bool_decide_eq_true in Ek. subst k'. now rewrite E.
  - apply bool_decide_eq_false in Ek. apply assoc_unassoc_ne. congruence.
Qed.

Lemma lru_Get_size k c : lru_size (lru_Get k c).1 = lru_size c.
Proof. unfold lru_Get. destruct (assoc k (lru_items c)); reflexivity. Qed.

Lemma lru_Remove_Peek_eq k c : lru_Peek k (lru_Remove k c) = None.
Proof. apply assoc_unassoc_eq. Qed.

Lemma lru_Remove_Peek_ne k k' c :
  k' <> k -> lru_Peek k' (lru_Remove k c) = lru_Peek k' c.
Proof. apply assoc_unassoc_ne. Qed.

Lemma lru_ContainsOrAdd_present k v c :
  is_Some (lru_Peek k c) -> lru_ContainsOrAdd k v c = c.
Proof.
  intros [w Hw]. unfold lru_ContainsOrAdd, lru_Contains. now rewrite Hw.
Qed.

End LRUFacts.

(** ** Lookups and what leaves them alone *)

Section ChainFacts.
Context `{Sto : Storage} `{Codec : BlockCodec}.
Implicit Types (bc : BlockChain) (b p : Block) (h : Hash).

Lemma lookupBlock_unfold bc h :
  lookupBlock bc h =
  match lru_Peek (Hex h) (cachedBlocks bc) with
  | Some b => Some b
  | None =>
      match LoadBlockFromStorage h (storage bc) with
      | Ok b => Some b
      | Err _ => None
      end
  end.
Proof.
  unfold lookupBlock, GetBlock.
  pose proof (lru_Get_value (Hex h) (cachedBlocks bc)) as Hv.
  destruct (lru_Get (Hex h) (cachedBlocks bc)) as [c v]. simpl in Hv.
  rewrite <- Hv. destruct v; [reflexivity|]. simpl.
  destruct (LoadBlockFromStorage h (storage bc)); reflexivity.
Qed.

Lemma GetBlock_eq h bc :
  GetBlock h bc = ((GetBlock h bc).1, lookupBlock bc h).
Proof. unfold lookupBlock. now destruct (GetBlock h bc). Qed.

Lemma touched_refl bc : touched bc bc.
Proof. repeat split. Qed.

Lemma touched_trans bc1 bc2 bc3 :
  touched bc1 bc2 -> touched bc2 bc3 -> touched bc1 bc3.
Proof.
  unfold touched. intros (?&?&?&?&?&?&?) (?&?&?&?&?&?&?).
  repeat split; first [congruence | intros k; etransitivity; eauto].
Qed.

Lemma GetBlock_touched h bc : touched bc (GetBlock h bc).1.
Proof.
  unfold GetBlock.
  pose proof (lru_Get_Peek (Hex h) (V := Block)) as HP.
  specialize (fun k => HP k (cachedBlocks bc)).
  destruct (lru_Get (Hex h) (cachedBlocks bc)) as [c v]. simpl in HP.
  assert (touched bc (set_cachedBlocks c bc)) by (repeat split; apply HP).
  destruct v; [assumption|]. simpl.
  destruct (LoadBlockFromStorage h (storage bc)); assumption.
Qed.

Lemma touched_same_lookups bc bc' : touched bc bc' -> same_lookups bc bc'.
Proof.
  intros (Hs&_&_&_&_&_&Hc) h. rewrite !lookupBlock_unfold, Hs, Hc.
  reflexivity.
Qed.

Lemma same_lookups_refl bc : same_lookups bc bc.
Proof. intros h; reflexivity. Qed.

Lemma same_lookups_trans bc1 bc2 bc3 :
  same_lookups bc1 bc2 -> same_lookups bc2 bc3 -> same_lookups bc1 bc3.
Proof. intros H1 H2 h. now rewrite H2, H1. Qed.

Lemma same_lookups_blocks bc bc' : same_lookups bc bc' -> same_blocks bc bc'.
Proof. intros H h _. apply H. Qed.

Lemma same_blocks_refl bc : same_blocks bc bc.
Proof. intros h _; reflexivity. Qed.

Lemma same_blocks_trans bc1 bc2 bc3 :
  same_blocks bc1 bc2 -> same_blocks bc2 bc3 -> same_blocks bc1 bc3.
Proof. intros H1 H2 h Hh. now rewrite H2, H1. Qed.

Lemma same_blocks_sym bc bc' : same_blocks bc bc' -> same_blocks bc' bc.
Proof. intros H1 h Hh. now rewrite H1. Qed.

Lemma GetBlockByHeight_touched z bc : touched bc (GetBlockByHeight z bc).1.
Proof.
  unfold GetBlockByHeight.
  destruct (Get (storage bc) (FromUint64 z)); [apply GetBlock_touched|].
  apply touched_refl.
Qed.

Lemma lookupHeight_unfold bc z :
  lookupHeight bc z =
  match Get (storage bc) (FromUint64 z) with
  | Ok k => lookupBlock bc k
  | Err _ => None
  end.
Proof.
  unfold lookupHeight, GetBlockByHeight, lookupBlock.
  destruct (Get (storage bc) (FromUint64 z)); reflexivity.
Qed.

Lemma GetBlockByHeight_eq z bc :
  GetBlockByHeight z bc = ((GetBlockByHeight z bc).1, lookupHeight bc z).
Proof. unfold lookupHeight. now destruct (GetBlockByHeight z bc). Qed.

Lemma touched_lookupHeight bc bc' z :
  touched bc bc' -> lookupHeight bc' z = lookupHeight bc z.
Proof.
  intros Ht. rewrite !lookupHeight_unfold.
  pose proof (touched_same_lookups _ _ Ht) as Hl.
  destruct Ht as (-> & _).
  destruct (Get (storage bc) (FromUint64 z)); [apply Hl|reflexivity].
Qed.

(** A successful write under a key that is no block hash leaves the blocks
    alone. *)
Lemma Put_same_blocks `{!StorageLaws} bc k v s' :
  Put (storage bc) k v = (s', None) ->
  length k <> BlockHashLength ->
  same_blocks bc (set_storage s' bc).
Proof.
  intros HP Hk h Hh. rewrite !lookupBlock_unfold. simpl.
  unfold LoadBlockFromStorage.
  rewrite (Get_Put_ne _ _ _ _ h HP) by congruence. reflexivity.
Qed.

(** *** Fuel: more of it never changes a result *)

Lemma climb_mono fuel fuel' z cur bc r :
  (fuel <= fuel')%nat ->
  climb fuel z cur bc = Some r -> climb fuel' z cur bc = Some r.
Proof.
  revert fuel' cur bc; induction fuel as [|fuel IH]; intros fuel' cur bc Hle;
    simpl.
  - destruct (z <? height cur) eqn:E; [discriminate|].
    destruct fuel'; simpl; rewrite E; auto.
  - destruct fuel' as [|fuel']; [lia|]. simpl.
    destruct (z <? height cur); [|auto].
    destruct (GetBlock (parentHash cur) bc) as [bc1 [q|]]; [|auto].
    apply IH. lia.
Qed.

Lemma meet_mono fuel fuel' tl target bc r :
  (fuel <= fuel')%nat ->
  meet fuel tl target bc = Some r -> meet fuel' tl target bc = Some r.
Proof.
  revert fuel' tl target bc; induction fuel as [|fuel IH];
    intros fuel' tl target bc Hle; simpl.
  - destruct (Equals (hash tl) (hash target)) eqn:E; [|discriminate].
    destruct fuel'; simpl; rewrite E; auto.
  - destruct fuel' as [|fuel']; [lia|]. simpl.
    destruct (Equals (hash tl) (hash target)); [auto|].
    destruct (GetBlock (parentHash tl) bc) as [bc1 t'].
    destruct (GetBlock (parentHash target) bc1) as [bc2 s'].
    destruct t', s'; auto. apply IH. lia.
Qed.

Lemma revertLoop_mono fuel fuel' from cur rt bc r :
  (fuel <= fuel')%nat ->
  revertLoop fuel from cur rt bc = Some r ->
  revertLoop fuel' from cur rt bc = Some r.
Proof.
  revert fuel' cur rt bc; induction fuel as [|fuel IH];
    intros fuel' cur rt bc Hle; simpl.
  - destruct (Equals (hash cur) (hash from)) eqn:E; [|discriminate].
    destruct fuel'; simpl; rewrite E; auto.
  - destruct fuel' as [|fuel']; [lia|]. simpl.
    destruct (Equals (hash cur) (hash from)); [auto|].
    destruct (GetBlock (parentHash cur) _) as [bc1 [q|]]; [|auto].
    apply IH. lia.
Qed.

Lemma buildIndexByBlockHeight_mono fuel fuel' from to bc r :
  (fuel <= fuel')%nat ->
  buildIndexByBlockHeight fuel from to bc = Some r ->
  buildIndexByBlockHeight fuel' from to bc = Some r.
Proof.
  revert fuel' to bc; induction fuel as [|fuel IH];
    intros fuel' to bc Hle; simpl.
  - destruct (Equals (hash to) (hash from)) eqn:E; [|discriminate].
    destruct fuel'; simpl; rewrite E; auto.
  - destruct fuel' as [|fuel']; [lia|]. simpl.
    destruct (Equals (hash to) (hash from)); [auto|].
    destruct (Put (storage bc) _ _) as [s [e|]]; [auto|].
    destruct (GetBlock (parentHash to) _) as [bc1 [q|]]; [|auto].
    apply IH. lia.
Qed.

Lemma anchorAndWalk_mono fuel fuel' tl block bc r :
  (fuel <= fuel')%nat ->
  anchorAndWalk fuel tl block bc = Some r ->
  anchorAndWalk fuel' tl block bc = Some r.
Proof.
  intros Hle. unfold anchorAndWalk.
  destruct (GetBlock (hash block) bc) as [bc1 t1].
  destruct (match t1 with Some _ => _ | None => _ end) as [bc2 [target|]];
    [|auto].
  destruct (climb fuel _ _ bc2) as [[bc3 r3]|] eqn:E3; [|discriminate].
  rewrite (climb_mono _ _ _ _ _ _ Hle E3).
  destruct r3 as [tl'|]; [|auto].
  destruct (climb fuel _ _ bc3) as [[bc4 r4]|] eqn:E4; [|discriminate].
  rewrite (climb_mono _ _ _ _ _ _ Hle E4).
  destruct r4 as [tg|]; [|auto].
  apply meet_mono, Hle.
Qed.

Lemma FindCommonAncestorWithTail_mono fuel fuel' block bc r :
  (fuel <= fuel')%nat ->
  FindCommonAncestorWithTail fuel block bc = Some r ->
  FindCommonAncestorWithTail fuel' block bc = Some r.
Proof.
  intros Hle. unfold FindCommonAncestorWithTail.
  destruct (fastCheck (tailBlock bc) block bc) as [bc0 [|]]; [auto|].
  now apply anchorAndWalk_mono.
Qed.

End ChainFacts.

(** ** The block tree of a well-formed store *)

Section Ancestors.
Context `{Sto : Storage} `{Codec : BlockCodec}.
Variable bc0 : BlockChain.
Hypothesis WF : well_formed bc0.
Implicit Types (a b c p g : Block).

Lemma in_store_inj a b :
  in_store bc0 a -> in_store bc0 b -> hash a = hash b -> a = b.
Proof. intros [_ Ha] [_ Hb] E. rewrite E in Ha. congruence. Qed.

Lemma lookup_in_store h b :
  length h = BlockHashLength -> lookupBlock bc0 h = Some b -> in_store bc0 b.
Proof.
  intros Hh Hl. pose proof (wf_hash _ WF _ _ Hh Hl) as <-. now split.
Qed.

Lemma parent_in_store b p :
  in_store bc0 b -> lookupBlock bc0 (parentHash b) = Some p -> in_store bc0 p.
Proof. intros Hb. apply lookup_in_store. now apply (wf_parent _ WF). Qed.

Lemma ancestor_in_store_r a b : ancestor bc0 a b -> in_store bc0 b.
Proof. now destruct 1. Qed.

Lemma ancestor_in_store_l a b : ancestor bc0 a b -> in_store bc0 a.
Proof. induction 1; auto. Qed.

Lemma ancestor_trans a b c :
  ancestor bc0 a b -> ancestor bc0 b c -> ancestor bc0 a c.
Proof.
  intros Hab Hbc. induction Hbc; [assumption|].
  eapply ancestor_step; eauto.
Qed.

Lemma ancestor_parent a b p :
  ancestor bc0 a b -> lookupBlock bc0 (parentHash b) = Some p ->
  a <> b -> ancestor bc0 a p.
Proof.
  intros Hab Hp Hne. destruct Hab as [b|a q b _ Hq Haq]; [congruence|].
  congruence.
Qed.

Lemma self_parent_root a b :
  parentHash b = hash b -> ancestor bc0 a b -> a = b.
Proof.
  intros Hself Hab. induction Hab as [b|a q b [_ Hb] Hq _ IH];
    [reflexivity|].
  assert (q = b) as -> by congruence. auto.
Qed.

Lemma ancestor_height a b :
  ancestor bc0 a b ->
  height a <= height b /\ (height a = height b -> a = b).
Proof.
  induction 1 as [b|a q b Hb Hq Haq [IH1 IH2]]; [split; [lia|reflexivity]|].
  destruct (decide (parentHash b = hash b)) as [Hself|Hne].
  - assert (q = b) as -> by (destruct Hb; congruence). auto.
  - pose proof (wf_height _ WF _ _ Hb Hq Hne). split; lia.
Qed.

Lemma ancestor_le a b : ancestor bc0 a b -> height a <= height b.
Proof. intros H. now apply ancestor_height. Qed.

Lemma ancestor_proper a b :
  ancestor bc0 a b -> a <> b ->
  exists p, lookupBlock bc0 (parentHash b) = Some p /\ ancestor bc0 a p /\
            height b = height p + 1.
Proof.
  intros Hab Hne. pose proof Hab as Hab'.
  destruct Hab as [b|a q b Hb Hq Haq]; [congruence|].
  exists q. repeat split; [assumption..|].
  apply (wf_height _ WF _ _ Hb Hq). intros Hself.
  apply Hne. now apply self_parent_root.
Qed.

Lemma ancestor_lt a b : ancestor bc0 a b -> a <> b -> height a < height b.
Proof.
  intros Hab Hne. destruct (ancestor_proper _ _ Hab Hne) as (p&_&Hap&Hh).
  pose proof (ancestor_le _ _ Hap). lia.
Qed.

(** Walking down from [b] to an ancestor passes every height between. *)
Lemma ancestor_at_height g b z :
  ancestor bc0 g b -> height g <= z <= height b ->
  exists x, ancestor bc0 x b /\ ancestor bc0 g x /\ height x = z.
Proof.
  induction 1 as [b Hb|a q b Hb Hq Haq IH]; intros Hz.
  - exists b. repeat split; [now constructor..|lia].
  - destruct (decide (z = height b)) as [->|Hne].
    + exists b. repeat split; [now constructor|].
      eapply ancestor_step; eauto.
    + destruct (decide (parentHash b = hash b)) as [Hself|Hns].
      * assert (q = b) as -> by (destruct Hb; congruence). auto.
      * pose proof (wf_height _ WF _ _ Hb Hq Hns).
        destruct IH as (x & Hxq & Hax & Hhx); [lia|].
        exists x. repeat split; [|assumption..].
        eapply ancestor_step; eauto.
Qed.

(** *** The loops of the ancestor resolver *)

Lemma climb_spec g z fuel cur bc :
  same_lookups bc0 bc ->
  ancestor bc0 g cur -> height g <= z ->
  height cur - z <= Z.of_nat fuel ->
  exists bc' cur',
    climb fuel z cur bc = Some (bc', Some cur') /\ touched bc bc' /\
    ancestor bc0 g cur' /\ ancestor bc0 cur' cur /\
    height cur' = Z.min (height cur) z /\
    forall c, ancestor bc0 c cur -> height c <= z -> ancestor bc0 c cur'.
Proof.
  revert cur bc; induction fuel as [|fuel IH]; intros cur bc Hl Hg Hz Hf;
    simpl; destruct (z <? height cur) eqn:E;
    [apply Z.ltb_lt in E; lia| |apply Z.ltb_lt in E|].
  1, 3: apply Z.ltb_ge in E; exists bc, cur;
    split_and!; [reflexivity|apply touched_refl|assumption|
      constructor; eapply ancestor_in_store_r; eauto|lia|auto].
  destruct (ancestor_proper g cur Hg) as (p & Hp & Hgp & Hh);
    [intros ->; lia|].
  rewrite GetBlock_eq, Hl, Hp.
  pose proof (GetBlock_touched (parentHash cur) bc) as Ht.
  destruct (IH p (GetBlock (parentHash cur) bc).1) as
    (bc' & cur' & -> & Ht' & Hg' & Hc' & Hh' & Hall); [|assumption..|lia|].
  { eapply same_lookups_trans; [exact Hl|].
    now apply touched_same_lookups. }
  exists bc', cur'. split_and!.
  - reflexivity.
  - eapply touched_trans; eauto.
  - assumption.
  - eapply ancestor_step; eauto. eapply ancestor_in_store_r; eauto.
  - lia.
  - intros c Hc Hcz. apply Hall; [|assumption].
    eapply ancestor_parent; eauto. intros ->. lia.
Qed.

Lemma meet_spec g fuel tl target bc :
  same_lookups bc0 bc ->
  ancestor bc0 g tl -> ancestor bc0 g target ->
  height tl = height target ->
  height tl - height g <= Z.of_nat fuel ->
  exists bc' r,
    meet fuel tl target bc = Some (bc', Ok r) /\ touched bc bc' /\
    ancestor bc0 r tl /\ ancestor bc0 r target /\
    forall c, ancestor bc0 c tl -> ancestor bc0 c target -> ancestor bc0 c r.
Proof.
  revert tl target bc; induction fuel as [|fuel IH];
    intros tl target bc Hl Ht Hs Hh Hf.
  - assert (tl = g) as ->.
    { symmetry. apply (ancestor_height _ _ Ht).
      pose proof (ancestor_le _ _ Ht). lia. }
    assert (target = g) as ->.
    { symmetry. apply (ancestor_height _ _ Hs). lia. }
    simpl. rewrite (proj2 (Equals_true _ _) eq_refl).
    exists bc, g. split_and!; [reflexivity|apply touched_refl|assumption..|auto].
  - simpl. destruct (Equals (hash tl) (hash target)) eqn:E.
    + apply Equals_true in E.
      assert (tl = target) as ->
        by (eapply in_store_inj; eauto using ancestor_in_store_r).
      exists bc, target.
      split_and!; [reflexivity|apply touched_refl| | |auto];
        constructor; eapply ancestor_in_store_r; eauto.
    + apply Equals_false in E.
      assert (g <> tl) as Hgt.
      { intros ->. apply E. f_equal. apply (ancestor_height _ _ Hs). lia. }
      assert (g <> target) as Hgs.
      { intros ->. apply E. f_equal. symmetry.
        apply (ancestor_height _ _ Ht). lia. }
      destruct (ancestor_proper _ _ Ht Hgt) as (pt & Hpt & Hgpt & Hht).
      destruct (ancestor_proper _ _ Hs Hgs) as (ps & Hps & Hgps & Hhs).
      pose proof (GetBlock_touched (parentHash tl) bc) as T1.
      rewrite (GetBlock_eq (parentHash tl)), Hl, Hpt.
      set (bc1 := (GetBlock (parentHash tl) bc).1) in *.
      assert (same_lookups bc0 bc1) as Hl1.
      { eapply same_lookups_trans; [exact Hl|].
        now apply touched_same_lookups. }
      pose proof (GetBlock_touched (parentHash target) bc1) as T2.
      rewrite (GetBlock_eq (parentHash target)), Hl1, Hps.
      set (bc2 := (GetBlock (parentHash target) bc1).1) in *.
      destruct (IH pt ps bc2) as (bc' & r & -> & T3 & Hrt & Hrs & Hall);
        [|assumption..|lia|lia|].
      { eapply same_lookups_trans; [exact Hl1|].
        now apply touched_same_lookups. }
      exists bc', r. split_and!.
      * reflexivity.
      * eauto using touched_trans.
      * eapply ancestor_step; eauto. eapply ancestor_in_store_r; eauto.
      * eapply ancestor_step; eauto. eapply ancestor_in_store_r; eauto.
      * intros c Hct Hcs. apply Hall.
        -- apply (ancestor_parent c tl pt Hct Hpt). intros ->.
           apply E. f_equal. apply (ancestor_height _ _ Hcs). lia.
        -- apply (ancestor_parent c target ps Hcs Hps). intros ->.
           apply E. f_equal. symmetry.
           apply (ancestor_height _ _ Hct). lia.
Qed.

End Ancestors.

(** ** The ancestor resolver finds the lowest common ancestor *)

Section Resolver.
Context `{Sto : Storage} `{Codec : BlockCodec}.
Implicit Types (bc : BlockChain) (g B : Block).

Lemma fastCheck_touched tl B bc : touched bc (fastCheck tl B bc).1.
Proof.
  unfold fastCheck. destruct (height B <=? height tl); [|apply touched_refl].
  pose proof (GetBlockByHeight_touched (height B) bc) as Ht.
  destruct (GetBlockByHeight (height B) bc) as [bc1 [lb|]]; exact Ht.
Qed.

(** With a canonical height index the fast check says yes only for an
    ancestor of the head. *)
Lemma fastCheck_sound bc g B :
  well_formed bc -> canonical_index bc ->
  ancestor bc g (tailBlock bc) -> ancestor bc g B ->
  (fastCheck (tailBlock bc) B bc).2 = true ->
  ancestor bc B (tailBlock bc).
Proof.
  intros WF CI Hgt HgB. unfold fastCheck.
  destruct (height B <=? height (tailBlock bc)) eqn:E; [|discriminate].
  apply Z.leb_le in E.
  destruct (ancestor_at_height bc WF g (tailBlock bc) (height B) Hgt)
    as (x & Hxt & Hgx & Hhx); [pose proof (ancestor_le bc WF _ _ HgB); lia|].
  rewrite GetBlockByHeight_eq, lookupHeight_unfold, <- Hhx, (CI x Hxt).
  pose proof (ancestor_in_store_l bc _ _ Hxt) as Hx.
  rewrite (proj2 Hx). simpl. intros Heq. apply Equals_true in Heq.
  assert (x = B) as <-; [|assumption].
  eapply in_store_inj; eauto using ancestor_in_store_r.
Qed.

Lemma anchorAndWalk_lca bc0 bc g B fuel :
  well_formed bc0 -> touched bc0 bc ->
  ancestor bc0 g (tailBlock bc0) -> ancestor bc0 g B ->
  Z.max (height (tailBlock bc0)) (height B) - height g <= Z.of_nat fuel ->
  exists bc' r,
    anchorAndWalk fuel (tailBlock bc0) B bc = Some (bc', Ok r) /\
    touched bc0 bc' /\
    ancestor bc0 r (tailBlock bc0) /\ ancestor bc0 r B /\
    forall c, ancestor bc0 c (tailBlock bc0) -> ancestor bc0 c B ->
              ancestor bc0 c r.
Proof.
  intros WF Ht Hgt HgB Hf. unfold anchorAndWalk.
  pose proof (ancestor_in_store_r bc0 _ _ HgB) as [_ HB].
  pose proof (ancestor_le bc0 WF _ _ HgB) as HleB.
  pose proof (ancestor_le bc0 WF _ _ Hgt) as Hlet.
  rewrite GetBlock_eq, (touched_same_lookups _ _ Ht), HB.
  pose proof (GetBlock_touched (hash B) bc) as T1.
  set (bc1 := (GetBlock (hash B) bc).1) in *.
  assert (touched bc0 bc1) as Ht1 by eauto using touched_trans.
  destruct (climb_spec bc0 WF g (height B) fuel (tailBlock bc0) bc1)
    as (bc2 & tl' & -> & T2 & Hgtl & Htl & Hhtl & Hall1);
    [now apply touched_same_lookups|assumption|lia|lia|].
  assert (touched bc0 bc2) as Ht2 by eauto using touched_trans.
  destruct (climb_spec bc0 WF g (height tl') fuel B bc2)
    as (bc3 & tg' & -> & T3 & Hgtg & Htg & Hhtg & Hall2);
    [now apply touched_same_lookups|assumption|
      apply (ancestor_le bc0 WF _ _ Hgtl)|lia|].
  assert (touched bc0 bc3) as Ht3 by eauto using touched_trans.
  destruct (meet_spec bc0 WF g fuel tl' tg' bc3)
    as (bc4 & r & -> & T4 & Hrt & Hrs & Hall3);
    [now apply touched_same_lookups|assumption..|lia|lia|].
  exists bc4, r. split_and!.
  - reflexivity.
  - eauto using touched_trans.
  - exact (ancestor_trans bc0 _ _ _ Hrt Htl).
  - exact (ancestor_trans bc0 _ _ _ Hrs Htg).
  - intros c Hct HcB. apply Hall3.
    + apply Hall1; [assumption|]. apply (ancestor_le bc0 WF _ _ HcB).
    + apply Hall2; [assumption|]. apply (ancestor_le bc0 WF).
      apply Hall1; [assumption|]. apply (ancestor_le bc0 WF _ _ HcB).
Qed.

Lemma FindCommonAncestorWithTail_lca bc g B fuel :
  well_formed bc -> canonical_index bc ->
  ancestor bc g (tailBlock bc) -> ancestor bc g B ->
  Z.max (height (tailBlock bc)) (height B) - height g <= Z.of_nat fuel ->
  exists bc' r,
    FindCommonAncestorWithTail fuel B bc = Some (bc', Ok r) /\
    touched bc bc' /\
    ancestor bc r (tailBlock bc) /\ ancestor bc r B /\
    forall c, ancestor bc c (tailBlock bc) -> ancestor bc c B ->
              ancestor bc c r.
Proof.
  intros WF CI Hgt HgB Hf. unfold FindCommonAncestorWithTail.
  pose proof (fastCheck_touched (tailBlock bc) B bc) as Ht.
  pose proof (fastCheck_sound bc g B WF CI Hgt HgB) as Hs.
  destruct (fastCheck (tailBlock bc) B bc) as [bc1 [|]]; simpl in *.
  - exists bc1, B. split_and!; [reflexivity|assumption|auto| |auto].
    constructor. eapply ancestor_in_store_r; eauto.
  - now apply anchorAndWalk_lca with (g := g).
Qed.

(** Whatever the fuel, an answer is the lowest common ancestor. *)
Lemma FindCommonAncestorWithTail_sound bc g B fuel bc' r :
  well_formed bc -> canonical_index bc ->
  ancestor bc g (tailBlock bc) -> ancestor bc g B ->
  FindCommonAncestorWithTail fuel B bc = Some (bc', r) ->
  touched bc bc' /\
  exists a, r = Ok a /\ ancestor bc a (tailBlock bc) /\ ancestor bc a B /\
    forall c, ancestor bc c (tailBlock bc) -> ancestor bc c B ->
              ancestor bc c a.
Proof.
  intros WF CI Hgt HgB E.
  set (big := Nat.max fuel
                (Z.to_nat (Z.max (height (tailBlock bc)) (height B)
                           - height g))).
  destruct (FindCommonAncestorWithTail_lca bc g B big WF CI Hgt HgB)
    as (bc2 & a & E2 & Ht & Hat & HaB & Hall); [lia|].
  rewrite (FindCommonAncestorWithTail_mono fuel big B bc _ ltac:(lia) E)
    in E2.
  injection E2 as -> ->. eauto 10.
Qed.

End Resolver.

(** ** Walks by parent pointers: revert and reindex *)

Section Walks.
Context `{Sto : Storage} `{Codec : BlockCodec}.
Implicit Types (bc : BlockChain) (bs : list Block) (o : outcome).

Lemma cache_same_lookups bc bc' :
  storage bc' = storage bc ->
  (forall k, lru_Peek k (cachedBlocks bc') = lru_Peek k (cachedBlocks bc)) ->
  same_lookups bc bc'.
Proof.
  intros Hs Hc h. rewrite !lookupBlock_unfold, Hs, Hc. reflexivity.
Qed.

Lemma after_revert_same_lookups bs bc bc' :
  after_revert bs bc bc' -> same_lookups bc bc'.
Proof. intros (?&_&_&_&_&?). now apply cache_same_lookups. Qed.

Lemma walks_length bc from cur bs o :
  walks bc from cur bs o -> o = Missed -> (1 <= length bs)%nat.
Proof. induction 1; intros; simpl; try discriminate; lia. Qed.

(** The loop of [revertBlocks] follows the walk, returning the
    transactions of each block it visits. *)
Lemma revertLoop_walks bc0 from cur bs o :
  walks bc0 from cur bs o ->
  forall fuel rt bc,
    same_lookups bc0 bc -> (length bs <= fuel)%nat ->
    exists bc' rt',
      revertLoop fuel from cur rt bc =
        Some (bc', match o with
                   | Reached => Ok rt'
                   | Missed => Err ErrMissingParentBlock
                   end) /\
      after_revert bs bc bc' /\ gauges bc' = gauges bc.
Proof.
  induction 1 as [cur Heq|cur Hne Hp|cur p bs o Hne Hp Hw IH];
    intros fuel rt bc Hl Hf.
  - exists bc, rt. destruct fuel; simpl;
      rewrite (proj2 (Equals_true _ _) Heq);
      (split_and!; [reflexivity| |reflexivity]);
      unfold after_revert; simpl; rewrite !app_nil_r; now split_and!.
  - destruct fuel as [|fuel]; [simpl in Hf; lia|]. simpl.
    rewrite (proj2 (Equals_false _ _) Hne).
    set (bc1 := log _ _).
    pose proof (GetBlock_touched (parentHash cur) bc1) as Ht.
    rewrite GetBlock_eq.
    assert (lookupBlock bc1 (parentHash cur) = None) as ->.
    { rewrite <- Hp, <- (Hl (parentHash cur)).
      rewrite !lookupBlock_unfold. reflexivity. }
    exists (GetBlock (parentHash cur) bc1).1, rt.
    destruct Ht as (Hs&Htl&Htx&Hlg&Hg&Hd&Hc).
    split_and!; [reflexivity| |now rewrite Hg].
    unfold after_revert. rewrite Hs, Htl, Hd, Htx, Hlg. simpl.
    rewrite app_nil_r. now split_and!.
  - destruct fuel as [|fuel]; [simpl in Hf; lia|]. simpl.
    rewrite (proj2 (Equals_false _ _) Hne).
    set (bc1 := log _ _).
    pose proof (GetBlock_touched (parentHash cur) bc1) as Ht.
    rewrite GetBlock_eq.
    assert (same_lookups bc bc1) as Hl1 by (now apply cache_same_lookups).
    rewrite Hl1, Hl, Hp.
    destruct (IH fuel (to_int64 (rt + 1)) (GetBlock (parentHash cur) bc1).1)
      as (bc' & rt' & -> & Har & Hg'); [|simpl in Hf; lia|].
    { eapply same_lookups_trans; [exact Hl|].
      eapply same_lookups_trans; [exact Hl1|].
      now apply touched_same_lookups. }
    exists bc', rt'.
    destruct Ht as (Hs&Htl&Htx&Hlg&Hg&Hd&Hc).
    destruct Har as (Hs'&Htl'&Hd'&Htx'&Hlg'&Hc').
    split_and!; [reflexivity| |now rewrite Hg', Hg].
    unfold after_revert.
    rewrite Hs', Htl', Hd', Htx', Hlg', Hs, Htl, Hd, Htx, Hlg. simpl.
    rewrite <- !app_assoc. split_and!; try reflexivity.
    intros k. now rewrite Hc', Hc.
Qed.

Lemma revertBlocks_walks bc0 from cur bs o fuel bc :
  walks bc0 from cur bs o ->
  same_lookups bc0 bc -> (length bs <= fuel)%nat ->
  exists bc',
    revertBlocks fuel from cur bc =
      Some (bc', match o with
                 | Reached => None
                 | Missed => Some ErrMissingParentBlock
                 end) /\
    after_revert bs bc bc'.
Proof.
  intros Hw Hl Hf. unfold revertBlocks.
  destruct (revertLoop_walks _ _ _ _ _ Hw fuel 0 bc Hl Hf)
    as (bc' & rt' & -> & Har & _).
  destruct o; [|eauto].
  destruct (0 <? rt'); eauto.
Qed.

(** [revertBlocks] never touches the store, the head or the lookups. *)
Lemma revertLoop_frame fuel from cur rt bc bc' r :
  revertLoop fuel from cur rt bc = Some (bc', r) ->
  storage bc' = storage bc /\ tailBlock bc' = tailBlock bc /\
  detachedTailBlocks bc' = detachedTailBlocks bc /\
  (forall k, lru_Peek k (cachedBlocks bc') = lru_Peek k (cachedBlocks bc)).
Proof.
  revert cur rt bc; induction fuel as [|fuel IH]; intros cur rt bc; simpl;
    destruct (Equals (hash cur) (hash from));
    try discriminate; try (intros [= -> _]; now split_and!).
  set (bc1 := log _ _).
  pose proof (GetBlock_touched (parentHash cur) bc1)
    as (Hs&Htl&_&_&_&Hd&Hc).
  destruct (GetBlock (parentHash cur) bc1) as [bc2 [q|]]; simpl in *.
  - intros E. apply IH in E as (Hs'&Htl'&Hd'&Hc').
    rewrite Hs', Htl', Hd', Hs, Htl, Hd. split_and!; try reflexivity.
    intros k. now rewrite Hc', Hc.
  - intros [= <- _]. rewrite Hs, Htl, Hd. now split_and!.
Qed.

Lemma revertBlocks_frame fuel from to bc bc' r :
  revertBlocks fuel from to bc = Some (bc', r) ->
  storage bc' = storage bc /\ tailBlock bc' = tailBlock bc /\
  detachedTailBlocks bc' = detachedTailBlocks bc /\
  (forall k, lru_Peek k (cachedBlocks bc') = lru_Peek k (cachedBlocks bc)).
Proof.
  unfold revertBlocks.
  destruct (revertLoop fuel from to 0 bc) as [[bc1 [rt|e]]|] eqn:E;
    [|intros [= <- _]; eapply revertLoop_frame; eauto|discriminate].
  apply revertLoop_frame in E.
  destruct (0 <? rt); intros [= <- _]; exact E.
Qed.

End Walks.

Section Reindex.
Context `{Sto : Storage} `{Codec : BlockCodec} `{Laws : !StorageLaws}.
Implicit Types (bc : BlockChain) (bs : list Block) (o : outcome).

Lemma putAll_get_notin es s s' k :
  putAll es s = (s', None) -> k ∉ map fst es -> Get s' k = Get s k.
Proof.
  revert s; induction es as [|[k0 v0] es IH]; intros s; simpl.
  - now intros [= ->].
  - destruct (Put s k0 v0) as [s1 [e|]] eqn:EP; [discriminate|].
    intros E Hk. apply not_elem_of_cons in Hk as [Hne Hk].
    rewrite (IH _ E Hk). eapply Get_Put_ne; eauto.
Qed.

Lemma putAll_get_in es s s' k v :
  putAll es s = (s', None) -> NoDup (map fst es) -> (k, v) ∈ es ->
  Get s' k = Ok v.
Proof.
  revert s; induction es as [|[k0 v0] es IH]; intros s; simpl.
  - intros _ _ Hin. now apply elem_of_nil in Hin.
  - destruct (Put s k0 v0) as [s1 [e|]] eqn:EP; [discriminate|].
    intros E Hnd Hin. apply NoDup_cons in Hnd as [Hk0 Hnd].
    apply elem_of_cons in Hin as [[= -> ->]|Hin].
    + rewrite (putAll_get_notin _ _ _ _ E Hk0). eapply Get_Put_eq; eauto.
    + eauto.
Qed.

Lemma after_index_refl bc : after_index bc bc.
Proof. now split_and!. Qed.

(** The loop of [buildIndexByBlockHeight] follows the walk and writes the
    entry of each block it visits, until a write fails. *)
Lemma buildIndexByBlockHeight_walks bc0 from cur bs o :
  walks bc0 from cur bs o ->
  Forall (fun b => length (parentHash b) = BlockHashLength) bs ->
  forall fuel bc,
    same_blocks bc0 bc -> (length bs <= fuel)%nat ->
    exists bc',
      buildIndexByBlockHeight fuel from cur bc =
        Some (bc',
              match (putAll (map indexEntry bs) (storage bc)).2 with
              | Some e => Some e
              | None => match o with
                        | Reached => None
                        | Missed => Some ErrMissingParentBlock
                        end
              end) /\
      storage bc' = (putAll (map indexEntry bs) (storage bc)).1 /\
      after_index bc bc' /\
      ((putAll (map indexEntry bs) (storage bc)).2 = None ->
       same_blocks bc0 bc').
Proof.
  induction 1 as [cur Heq|cur Hne Hp|cur p bs o Hne Hp Hw IH];
    intros H32 fuel bc Hl Hf.
  - exists bc. destruct fuel; simpl;
      rewrite (proj2 (Equals_true _ _) Heq);
      (split_and!; [reflexivity|reflexivity|apply after_index_refl|auto]).
  - destruct fuel as [|fuel]; [simpl in Hf; lia|]. simpl.
    rewrite (proj2 (Equals_false _ _) Hne).
    destruct (Put (storage bc) (FromUint64 (height cur)) (hash cur))
      as [s1 [e|]] eqn:EP; simpl.
    + exists (set_storage s1 bc).
      split_and!; [reflexivity|reflexivity|now split_and!|discriminate].
    + assert (same_blocks bc (set_storage s1 bc)) as Hsb.
      { eapply Put_same_blocks; eauto; now rewrite FromUint64_length. }
      apply Forall_cons in H32 as [Hlen _].
      pose proof (GetBlock_touched (parentHash cur) (set_storage s1 bc))
        as Ht.
      rewrite GetBlock_eq, (Hsb _ Hlen), (Hl _ Hlen), Hp.
      exists (GetBlock (parentHash cur) (set_storage s1 bc)).1.
      destruct Ht as (Hs&Htl&Htx&Hlg&Hg&Hd&Hc).
      split_and!; [reflexivity|exact Hs|now split_and!|].
      intros _. eapply same_blocks_trans; [exact Hl|].
      eapply same_blocks_trans; [exact Hsb|].
      now apply same_lookups_blocks, cache_same_lookups.
  - destruct fuel as [|fuel]; [simpl in Hf; lia|]. simpl.
    rewrite (proj2 (Equals_false _ _) Hne).
    destruct (Put (storage bc) (FromUint64 (height cur)) (hash cur))
      as [s1 [e|]] eqn:EP; simpl.
    + exists (set_storage s1 bc).
      split_and!; [reflexivity|reflexivity|now split_and!|discriminate].
    + assert (same_blocks bc (set_storage s1 bc)) as Hsb.
      { eapply Put_same_blocks; eauto; now rewrite FromUint64_length. }
      apply Forall_cons in H32 as [Hlen H32].
      pose proof (GetBlock_touched (parentHash cur) (set_storage s1 bc))
        as Ht.
      rewrite GetBlock_eq, (Hsb _ Hlen), (Hl _ Hlen), Hp.
      set (bc2 := (GetBlock (parentHash cur) (set_storage s1 bc)).1) in *.
      destruct Ht as (Hs&Htl&Htx&Hlg&Hg&Hd&Hc). simpl in *.
      destruct (IH H32 fuel bc2) as (bc' & -> & Hs' & Hai & Hsb');
        [|simpl in Hf; lia|].
      { eapply same_blocks_trans; [exact Hl|].
        eapply same_blocks_trans; [exact Hsb|].
        now apply same_lookups_blocks, cache_same_lookups. }
      rewrite Hs in *.
      exists bc'. split_and!; [reflexivity|exact Hs'| |exact Hsb'].
      destruct Hai as (?&?&?&?&?&Hc').
      unfold after_index.
      split_and!; first [congruence|intros k; now rewrite Hc', Hc].
Qed.

(** The path from a block up to one of its ancestors. *)
Lemma ancestor_walks bc a b :
  well_formed bc -> ancestor bc a b ->
  exists bs,
    walks bc a b bs Reached /\
    Forall (fun x => ancestor bc a x /\ ancestor bc x b /\
                     height a < height x) bs /\
    (forall c, ancestor bc c b -> c ∈ bs \/ ancestor bc c a) /\
    NoDup (map height bs).
Proof.
  intros WF. induction 1 as [b Hb|a p b Hb Hp Hap IH].
  - exists []. split_and!; [now constructor|constructor|auto|constructor].
  - destruct (decide (hash b = hash a)) as [Heq|Hne].
    + assert (b = a) as ->
        by (eapply in_store_inj; eauto using ancestor_in_store_l).
      exists []. split_and!; [now constructor|constructor|auto|constructor].
    + destruct IH as (bs & Hw & Hall & Hcov & Hnd).
      assert (a <> b) as Hab by congruence.
      assert (ancestor bc a b) as Hanc by (eapply ancestor_step; eauto).
      assert (height b = height p + 1) as Hh.
      { destruct (ancestor_proper bc WF a b Hanc Hab) as (q & Hq & _ & Hh).
        congruence. }
      exists (b :: bs). split_and!.
      * eapply walks_step; eauto.
      * constructor.
        -- split_and!; [assumption|now constructor|].
           now apply (ancestor_lt bc WF).
        -- eapply Forall_impl; [exact Hall|]. simpl.
           intros x (?&?&?). split_and!; [assumption| |assumption].
           eapply ancestor_step; eauto.
      * intros c Hc. destruct (decide (c = b)) as [->|Hcb].
        -- left. now left.
        -- destruct (Hcov c (ancestor_parent bc c b p Hc Hp Hcb));
             [left; now right|now right].
      * simpl. constructor; [|assumption].
        intros Hin. apply list_elem_of_In, in_map_iff in Hin as (x & Hx & Hin).
        apply list_elem_of_In in Hin. rewrite Forall_forall in Hall.
        destruct (Hall x Hin) as (_ & Hxp & _).
        pose proof (ancestor_le bc WF _ _ Hxp). lia.
Qed.

End Reindex.

(** * The claims of the specification *)

Section Claims.
Context `{Sto : Storage} `{Codec : BlockCodec}.
Implicit Types (bc : BlockChain) (bs : list Block) (o : outcome).

(** ** Lookups *)

(** C5, as the code has it: [GetBlock] answers from the cache when the
    cache holds the hash, with the cached block; otherwise it answers with
    the block loaded from the store, and reports a miss exactly when that
    load fails, whatever the failure: key-not-found, any other error of the
    store, or a record that does not decode.  Nothing is propagated, the
    miss is all the caller sees, and nothing is written.
    [GetBlockByHeight] likewise reports a miss for every error of the height
    lookup, and otherwise answers as [GetBlock] does for the stored hash. *)
Theorem GetBlock_miss_is_any_failure bc h z :
  (forall b, lru_Peek (Hex h) (cachedBlocks bc) = Some b ->
             (GetBlock h bc).2 = Some b) /\
  (forall b, lru_Peek (Hex h) (cachedBlocks bc) = None ->
             LoadBlockFromStorage h (storage bc) = Ok b ->
             (GetBlock h bc).2 = Some b) /\
  ((GetBlock h bc).2 = None <->
     lru_Peek (Hex h) (cachedBlocks bc) = None /\
     exists e, LoadBlockFromStorage h (storage bc) = Err e) /\
  (forall e,
      LoadBlockFromStorage h (storage bc) = Err e <->
      Get (storage bc) h = Err e \/
      exists v, Get (storage bc) h = Ok v /\
                (Unmarshal v = Err e \/
                 exists pb, Unmarshal v = Ok pb /\ FromProto pb = Err e)) /\
  storage (GetBlock h bc).1 = storage bc /\
  (forall e, Get (storage bc) (FromUint64 z) = Err e ->
             (GetBlockByHeight z bc).2 = None) /\
  (forall k, Get (storage bc) (FromUint64 z) = Ok k ->
             (GetBlockByHeight z bc).2 = (GetBlock k bc).2).
Proof.
  split_and!.
  - intros b E. fold (lookupBlock bc h). now rewrite lookupBlock_unfold, E.
  - intros b E1 E2. fold (lookupBlock bc h).
    now rewrite lookupBlock_unfold, E1, E2.
  - fold (lookupBlock bc h). rewrite lookupBlock_unfold.
    destruct (lru_Peek (Hex h) (cachedBlocks bc)) as [b|].
    + split; [discriminate|]. now intros [? _].
    + destruct (LoadBlockFromStorage h (storage bc)) as [b|e].
      * split; [discriminate|]. now intros [_ [e ?]].
      * split; eauto.
  - intros e. unfold LoadBlockFromStorage.
    destruct (Get (storage bc) h) as [v|e1] eqn:EG;
      [destruct (Unmarshal v) as [pb|e2] eqn:EU;
       [destruct (FromProto pb) as [b|e3] eqn:EF|]|];
      (split;
       [intros E; try discriminate E; injection E as ->
       |intros [E|(v' & Ev & [E|(pb' & Epb & E)])]; congruence]).
    + right. exists v. split; [reflexivity|].
      right. exists pb. now split.
    + right. exists v. split; [reflexivity|now left].
    + now left.
  - apply (GetBlock_touched h bc).
  - intros e E. unfold GetBlockByHeight. now rewrite E.
  - intros k E. unfold GetBlockByHeight. now rewrite E.
Qed.

(** ** Ingest of verified blocks *)

Lemma putAllBlocks_detached allBlocks bc :
  detachedTailBlocks (putAllBlocks allBlocks bc).1 = detachedTailBlocks bc.
Proof.
  revert bc; induction allBlocks as [|v rest IH]; intros bc; simpl;
    [reflexivity|].
  destruct (storeBlockToStorage v _) as [s [e|]]; simpl; [reflexivity|].
  now rewrite IH.
Qed.

(** C6, as the code has it: a batch that is stored without error first
    inserts each tail block into the detached-tails set, in order, and then
    removes the parent's hash; so the parent is never in the set afterwards,
    not even when it is one of the tails.  A batch whose store fails leaves
    the set as it was. *)
Theorem putVerifiedNewBlocks_detached parent allBlocks tailBlocks bc :
  let r := putVerifiedNewBlocks parent allBlocks tailBlocks bc in
  match r.2 with
  | None =>
      detachedTailBlocks r.1 =
        lru_Remove (Hex (hash parent))
          (addTails tailBlocks (detachedTailBlocks bc)) /\
      lru_Peek (Hex (hash parent)) (detachedTailBlocks r.1) = None
  | Some _ => detachedTailBlocks r.1 = detachedTailBlocks bc
  end.
Proof.
  unfold putVerifiedNewBlocks.
  pose proof (putAllBlocks_detached allBlocks bc) as Hd.
  destruct (putAllBlocks allBlocks bc) as [bc1 [e|]]; simpl in *;
    [assumption|].
  rewrite Hd. split; [reflexivity|apply lru_Remove_Peek_eq].
Qed.

(** ** Bootstrap *)

(** C9: when the store holds a genesis block whose chain id differs from
    the configured one, [loadGenesisFromStorage] fails with
    [ErrGenesisConfNotMatch], [NewBlockChain] returns that error and no
    chain; the store is left as it was. *)
Theorem NewBlockChain_genesis_mismatch `{Col : !Collaborators}
  conf s g gb :
  NewBlockPool 1024 = None ->
  NewTransactionPool 65536 = None ->
  LoadBlockFromStorage GenesisHash s = Ok gb ->
  blockChainID gb <> Meta_ChainId conf ->
  loadGenesisFromStorage conf s = (s, Err ErrGenesisConfNotMatch) /\
  NewBlockChain conf s g = (s, Err ErrGenesisConfNotMatch).
Proof.
  intros HB HT HL Hne.
  assert (loadGenesisFromStorage conf s = (s, Err ErrGenesisConfNotMatch))
    as HG.
  { unfold loadGenesisFromStorage. rewrite HL.
    rewrite bool_decide_eq_true_2 by congruence. reflexivity. }
  split; [exact HG|].
  unfold NewBlockChain. now rewrite HB, HT, HG.
Qed.

(** ** Descendant fetch *)

Lemma fetchLoop_spec bc0 cur tailH n :
  0 <= n < 2 ^ 63 -> 0 <= cur <= uint64_max -> tailH < uint64_max ->
  forall fuel i res bc,
    touched bc0 bc ->
    0 <= i <= Z.max (Z.min (tailH - cur + 1) n) 0 ->
    Z.min (tailH - cur + 1) n - i <= Z.of_nat fuel ->
    exists bc',
      fetchLoop fuel cur tailH n i res bc =
        Some (bc',
              match mapM (lookupHeight bc0)
                      (seqZ (cur + i) (Z.min (tailH - cur + 1) n - i)) with
              | Some bs => Ok (res ++ bs)
              | None => Err ErrCannotFindBlockAtGivenHeight
              end).
Proof.
  intros Hn Hcur Htl. unfold uint64_max in *.
  set (len := Z.min (tailH - cur + 1) n).
  assert (forall i, 0 <= i <= Z.max len 0 -> add64 cur i = cur + i) as Hadd.
  { intros i Hi. unfold add64. apply Z.mod_small. lia. }
  assert (to_uint64 n = n) as Hun by (apply Z.mod_small; lia).
  assert (forall i, 0 <= i <= Z.max len 0 ->
            (add64 cur i <=? tailH) && (i <? to_uint64 n) = true <-> i < len)
    as Hcond.
  { intros i Hi. rewrite Hadd, Hun by assumption.
    rewrite andb_true_iff, Z.leb_le, Z.ltb_lt. lia. }
  induction fuel as [|fuel IH]; intros i res bc Ht Hi Hf.
  - simpl. destruct ((add64 cur i <=? tailH) && (i <? to_uint64 n)) eqn:E.
    + apply Hcond in E; [lia|assumption].
    + exists bc. rewrite seqZ_nil by lia. simpl. now rewrite app_nil_r.
  - simpl. destruct ((add64 cur i <=? tailH) && (i <? to_uint64 n)) eqn:E.
    + apply Hcond in E; [|assumption].
      rewrite Hadd by assumption.
      pose proof (GetBlockByHeight_touched (cur + i) bc) as Ht1.
      rewrite GetBlockByHeight_eq, (touched_lookupHeight _ _ _ Ht).
      rewrite (seqZ_cons (cur + i)) by lia. simpl.
      destruct (lookupHeight bc0 (cur + i)) as [b|]; simpl; [|eauto].
      assert (add64 i 1 = i + 1) as -> by (apply Z.mod_small; lia).
      destruct (IH (i + 1) (res ++ [b]) (GetBlockByHeight (cur + i) bc).1)
        as (bc' & ->); [eauto using touched_trans|lia|lia|].
      exists bc'.
      replace (cur + (i + 1)) with (Z.succ (cur + i)) by lia.
      replace (len - (i + 1)) with (Z.pred (len - i)) by lia.
      destruct (mapM _ _); simpl; [|reflexivity].
      now rewrite <- app_assoc.
    + exists bc. rewrite seqZ_nil; [simpl; now rewrite app_nil_r|].
      destruct (decide (i < len)) as [Hlt|]; [|lia].
      apply Hcond in Hlt; [congruence|assumption].
Qed.

Lemma lookupHeight_canonical bc x :
  canonical_index bc -> ancestor bc x (tailBlock bc) ->
  lookupHeight bc (height x) = Some x.
Proof.
  intros CI Hx. rewrite lookupHeight_unfold, (CI x Hx).
  now destruct (ancestor_in_store_l bc _ _ Hx).
Qed.

Lemma mapM_heights bc (P : Z -> Block -> Prop) hs :
  (forall z, z ∈ hs -> exists x, lookupHeight bc z = Some x /\ P z x) ->
  exists bs, mapM (lookupHeight bc) hs = Some bs /\ Forall2 P hs bs.
Proof.
  induction hs as [|z hs IH]; intros H.
  - exists []. split; [reflexivity|constructor].
  - destruct (H z) as (x & Hx & HP); [now left|].
    destruct IH as (bs & Hbs & HF); [intros z' Hz'; apply H; now right|].
    exists (x :: bs). split; [|now constructor].
    simpl. rewrite Hx. simpl. rewrite Hbs. reflexivity.
Qed.

(** C7, as the code has it, for [0 <= n] and heights below the largest
    [uint64].  In any state [FetchDescendantInCanonicalChain n block] returns
    at most [n] blocks, those the height index names at the heights
    [block.height + 1] to [min (tail.height, block.height + n)], in ascending
    order, and fails with [ErrCannotFindBlockAtGivenHeight] when the index
    misses at one of these heights.  On a well-formed store whose height
    index is canonical for the head, and when the head's chain reaches down
    to [block.height + 1], there is no miss and these are the canonical
    blocks: each is on the head's chain, at its height; and if [block] is on
    the head's chain, each descends from it. *)
Theorem FetchDescendantInCanonicalChain_spec fuel n block bc :
  0 <= n < 2 ^ 63 ->
  0 <= height block < uint64_max ->
  height (tailBlock bc) < uint64_max ->
  n <= Z.of_nat fuel ->
  let hs := descendant_heights n block bc in
  Z.of_nat (length hs) <= n /\
  (forall blocks, mapM (lookupHeight bc) hs = Some blocks ->
                  length blocks = length hs) /\
  (exists bc',
    FetchDescendantInCanonicalChain fuel n block bc =
      Some (bc', match mapM (lookupHeight bc) hs with
                 | Some blocks => Ok blocks
                 | None => Err ErrCannotFindBlockAtGivenHeight
                 end)) /\
  (well_formed bc -> canonical_index bc ->
   forall g, ancestor bc g (tailBlock bc) -> height g <= height block + 1 ->
   exists bc' blocks,
     FetchDescendantInCanonicalChain fuel n block bc
     = Some (bc', Ok blocks) /\
     map height blocks = hs /\
     Forall (fun x => ancestor bc x (tailBlock bc)) blocks /\
     (ancestor bc block (tailBlock bc) ->
      Forall (fun x => ancestor bc block x) blocks)).
Proof.
  intros Hn Hb Ht Hf hs.
  assert (exists bc',
    FetchDescendantInCanonicalChain fuel n block bc =
      Some (bc', match mapM (lookupHeight bc) hs with
                 | Some blocks => Ok blocks
                 | None => Err ErrCannotFindBlockAtGivenHeight
                 end)) as (bc' & E).
  { unfold hs, descendant_heights, FetchDescendantInCanonicalChain.
    assert (add64 (height block) 1 = height block + 1) as ->
      by (unfold uint64_max in *; apply Z.mod_small; lia).
    destruct (fetchLoop_spec bc (height block + 1) (height (tailBlock bc)) n
                Hn ltac:(lia) Ht fuel 0 [] bc (touched_refl bc))
      as (bc' & E); [lia|lia|].
    exists bc'. rewrite E, Z.add_0_r, Z.sub_0_r. simpl.
    replace (Z.min (height (tailBlock bc) - (height block + 1) + 1) n)
      with (Z.min (height (tailBlock bc)) (height block + n) - height block)
      by lia.
    reflexivity. }
  split_and!.
  - unfold hs, descendant_heights. rewrite length_seqZ. lia.
  - intros blocks Em. symmetry. now apply length_mapM in Em.
  - eauto.
  - intros WF CI g Hg Hgh.
    destruct (mapM_heights bc
                (fun z x => height x = z /\ ancestor bc x (tailBlock bc) /\
                            (ancestor bc block (tailBlock bc) ->
                             ancestor bc block x)) hs)
      as (blocks & Hm & HF).
    { intros z Hz. unfold hs, descendant_heights in Hz.
      apply elem_of_seqZ in Hz.
      destruct (ancestor_at_height bc WF g _ z Hg) as (x & Hxt & _ & Hh);
        [lia|].
      pose proof (lookupHeight_canonical bc x CI Hxt) as Hx.
      exists x. rewrite <- Hh. split_and!; try assumption; [reflexivity|].
      intros Hbt.
      destruct (ancestor_at_height bc WF block _ (height x) Hbt)
        as (y & Hyt & Hby & Hhy); [lia|].
      pose proof (lookupHeight_canonical bc y CI Hyt) as Hy.
      rewrite Hhy, Hx in Hy. now injection Hy as ->. }
    rewrite Hm in E. exists bc', blocks. split_and!; [exact E| | |].
    + clear -HF. induction HF as [|z x zs bs (Hh & _) _ IH]; simpl;
        [reflexivity|]. now rewrite Hh, IH.
    + clear -HF. induction HF as [|z x zs bs (_ & H1 & _) _ IH];
        constructor; auto.
    + intros Hbt. clear -HF Hbt.
      induction HF as [|z x zs bs (_ & _ & H2) _ IH]; constructor; auto.
Qed.

(** ** Head reconciler *)

Lemma climb_touched fuel z cur bc bc' r :
  climb fuel z cur bc = Some (bc', r) -> touched bc bc'.
Proof.
  revert cur bc; induction fuel as [|fuel IH]; intros cur bc; simpl;
    destruct (z <? height cur); try discriminate;
    try (intros [= <- _]; apply touched_refl).
  pose proof (GetBlock_touched (parentHash cur) bc) as Ht.
  destruct (GetBlock (parentHash cur) bc) as [bc1 [q|]]; simpl in Ht.
  - intros E. apply IH in E. eauto using touched_trans.
  - now intros [= <- _].
Qed.

Lemma meet_touched fuel tl target bc bc' r :
  meet fuel tl target bc = Some (bc', r) -> touched bc bc'.
Proof.
  revert tl target bc; induction fuel as [|fuel IH]; intros tl target bc;
    simpl; destruct (Equals (hash tl) (hash target)); try discriminate;
    try (intros [= <- _]; apply touched_refl).
  pose proof (GetBlock_touched (parentHash tl) bc) as Ht1.
  destruct (GetBlock (parentHash tl) bc) as [bc1 t']; simpl in Ht1.
  pose proof (GetBlock_touched (parentHash target) bc1) as Ht2.
  destruct (GetBlock (parentHash target) bc1) as [bc2 s']; simpl in Ht2.
  assert (touched bc bc2) by eauto using touched_trans.
  destruct t', s'; try (now intros [= <- _]).
  intros E. apply IH in E. eauto using touched_trans.
Qed.

Lemma anchorAndWalk_touched fuel tl block bc bc' r :
  anchorAndWalk fuel tl block bc = Some (bc', r) -> touched bc bc'.
Proof.
  unfold anchorAndWalk.
  pose proof (GetBlock_touched (hash block) bc) as Ht1.
  destruct (GetBlock (hash block) bc) as [bc1 t1]; simpl in Ht1.
  assert (touched bc
            (match t1 with
             | Some _ => (bc1, t1)
             | None => GetBlock (parentHash block) bc1
             end).1) as Ht2.
  { destruct t1; [exact Ht1|].
    eapply touched_trans; [exact Ht1|apply GetBlock_touched]. }
  destruct (match t1 with Some _ => _ | None => _ end) as [bc2 [target|]];
    simpl in Ht2; [|now intros [= <- _]].
  destruct (climb fuel _ _ bc2) as [[bc3 r3]|] eqn:E3; [|discriminate].
  apply climb_touched in E3.
  assert (touched bc bc3) by eauto using touched_trans.
  destruct r3 as [tl'|]; [|now intros [= <- _]].
  destruct (climb fuel _ _ bc3) as [[bc4 r4]|] eqn:E4; [|discriminate].
  apply climb_touched in E4.
  assert (touched bc bc4) by eauto using touched_trans.
  destruct r4 as [tg|]; [|now intros [= <- _]].
  intros E. apply meet_touched in E. eauto using touched_trans.
Qed.

Lemma FindCommonAncestorWithTail_touched fuel block bc bc' r :
  FindCommonAncestorWithTail fuel block bc = Some (bc', r) -> touched bc bc'.
Proof.
  unfold FindCommonAncestorWithTail.
  pose proof (fastCheck_touched (tailBlock bc) block bc) as Ht.
  destruct (fastCheck (tailBlock bc) block bc) as [bc1 [|]]; simpl in Ht.
  - now intros [= <- _].
  - intros E. apply anchorAndWalk_touched in E. eauto using touched_trans.
Qed.

Lemma buildIndexByBlockHeight_frame fuel from to bc bc' r :
  buildIndexByBlockHeight fuel from to bc = Some (bc', r) ->
  after_index bc bc'.
Proof.
  revert to bc; induction fuel as [|fuel IH]; intros to bc; simpl;
    destruct (Equals (hash to) (hash from)); try discriminate;
    try (intros [= <- _]; now split_and!).
  destruct (Put (storage bc) _ _) as [s [e|]];
    [intros [= <- _]; now split_and!|].
  pose proof (GetBlock_touched (parentHash to) (set_storage s bc))
    as (_&Htl&Htx&Hlg&Hg&Hd&Hc).
  destruct (GetBlock (parentHash to) (set_storage s bc)) as [bc1 [q|]];
    simpl in *.
  - intros E. apply IH in E as (?&?&?&?&?&Hc').
    unfold after_index.
    split_and!; first [congruence|intros k; now rewrite Hc', Hc].
  - intros [= <- _]. now split_and!.
Qed.

(** The reindex-and-commit part moves the head exactly when it succeeds,
    leaves the transaction pool alone and only adds to the log. *)
Lemma reindexAndCommit_frame fuel ancestor newTail bc bc' r :
  reindexAndCommit fuel ancestor newTail bc = Some (bc', r) ->
  txPool bc' = txPool bc /\
  (exists extra, vlog bc' = vlog bc ++ extra) /\
  tailBlock bc' = match r with
                  | None => newTail
                  | Some _ => tailBlock bc
                  end.
Proof.
  unfold reindexAndCommit.
  destruct (buildIndexByBlockHeight fuel ancestor newTail bc)
    as [[bc1 [e|]]|] eqn:E; [| |discriminate];
    apply buildIndexByBlockHeight_frame in E as (Htl&Htx&Hlg&_).
  - intros [= <- <-]. simpl. rewrite Htx, Hlg, Htl. eauto.
  - destruct (storeTailToStorage newTail (storage bc1)) as [s [e|]];
      intros [= <- <-]; simpl; rewrite Htx, Hlg, ?Htl;
      (split_and!; [reflexivity|exists []; now rewrite app_nil_r|reflexivity]).
Qed.

Lemma SetTailBlock_phases fuel newTail bc bc1 anc bc2 r :
  FindCommonAncestorWithTail fuel newTail bc = Some (bc1, Ok anc) ->
  revertBlocks fuel anc (tailBlock bc) bc1 = Some (bc2, r) ->
  SetTailBlock fuel newTail bc =
    reindexAndCommit fuel anc newTail
      (match r with
       | Some _ => log (LogRevertFailed anc (tailBlock bc)) bc2
       | None => bc2
       end).
Proof.
  intros E1 E2. unfold SetTailBlock. rewrite E1, E2. now destruct r.
Qed.


(** C10: when the revert walk ends on a missing parent after visiting the
    [k >= 1] blocks [bs], every one of them has had its transactions
    returned, and whatever [SetTailBlock] then returns, these returns are
    still in the pool and the log: the call goes on with the reindex phase,
    its result is that of the reindex and commit, and when that is success
    the head is the new head. *)
Theorem SetTailBlock_revert_not_atomic fuel newTail bc bc1 anc bs bcF res :
  FindCommonAncestorWithTail fuel newTail bc = Some (bc1, Ok anc) ->
  walks bc anc (tailBlock bc) bs Missed ->
  (length bs <= fuel)%nat ->
  SetTailBlock fuel newTail bc = Some (bcF, res) ->
  (1 <= length bs)%nat /\
  txPool bcF = txPool bc ++ concat (map transactions bs) /\
  (exists extra,
     vlog bcF = vlog bc ++ map LogRevertedBlock bs
                  ++ LogRevertFailed anc (tailBlock bc) :: extra) /\
  (exists bc2,
     revertBlocks fuel anc (tailBlock bc) bc1 =
       Some (bc2, Some ErrMissingParentBlock) /\
     reindexAndCommit fuel anc newTail
       (log (LogRevertFailed anc (tailBlock bc)) bc2) = Some (bcF, res)) /\
  (res = None -> tailBlock bcF = newTail).
Proof.
  intros E1 Hw Hf ES.
  pose proof (FindCommonAncestorWithTail_touched _ _ _ _ _ E1) as Ht.
  destruct (revertBlocks_walks bc anc (tailBlock bc) bs Missed fuel bc1 Hw)
    as (bc2 & E2 & Har); [now apply touched_same_lookups|assumption|].
  rewrite (SetTailBlock_phases _ _ _ _ _ _ _ E1 E2) in ES.
  pose proof (reindexAndCommit_frame _ _ _ _ _ _ ES)
    as (Htx & (extra & Hlg) & Htl).
  destruct Ht as (_&_&Htx1&Hlg1&_).
  destruct Har as (_&_&_&Htx2&Hlg2&_). simpl in *.
  split_and!.
  - now apply (walks_length _ _ _ _ _ Hw).
  - congruence.
  - exists extra. rewrite Hlg, Hlg2, Hlg1, <- !app_assoc. reflexivity.
  - eauto.
  - intros ->. exact Htl.
Qed.

(** C2, as the code has it: let [A] be the current head and [B] the target,
    both reachable by parent-hash lookups from a common block [g] in a
    well-formed store, and let the height index be canonical for the chain
    of [A].  Then, with enough fuel, [FindCommonAncestorWithTail B] returns
    a block that is an ancestor of both and is at least as high as every
    common ancestor. *)
Theorem FindCommonAncestorWithTail_correct bc g B fuel :
  well_formed bc -> canonical_index bc ->
  ancestor bc g (tailBlock bc) -> ancestor bc g B ->
  Z.max (height (tailBlock bc)) (height B) - height g <= Z.of_nat fuel ->
  exists bc' r,
    FindCommonAncestorWithTail fuel B bc = Some (bc', Ok r) /\
    ancestor bc r (tailBlock bc) /\ ancestor bc r B /\
    forall c, ancestor bc c (tailBlock bc) -> ancestor bc c B ->
              height c <= height r.
Proof.
  intros WF CI Hgt HgB Hf.
  destruct (FindCommonAncestorWithTail_lca bc g B fuel WF CI Hgt HgB Hf)
    as (bc' & r & E & _ & Hrt & HrB & Hall).
  exists bc', r. split_and!; [assumption..|].
  intros c Hct HcB. apply (ancestor_le bc WF). now apply Hall.
Qed.

End Claims.

(** ** Writes to the height index and to the head pointer *)

Section Transfer.
Context `{Sto : Storage} `{Codec : BlockCodec}.
Variables bc bc' : BlockChain.
Hypothesis WF : well_formed bc.
Hypothesis Same : same_blocks bc bc'.

Lemma in_store_transfer b : in_store bc b <-> in_store bc' b.
Proof.
  unfold in_store. split; intros [Hlen Hl]; (split; [assumption|]).
  - now rewrite Same.
  - now rewrite <- Same.
Qed.

Lemma ancestor_transfer a b : ancestor bc a b <-> ancestor bc' a b.
Proof.
  split; induction 1 as [b Hb|a p b Hb Hp _ IH].
  - constructor. now apply in_store_transfer.
  - apply ancestor_step with p; [now apply in_store_transfer| |assumption].
    rewrite Same; [assumption|]. now apply (wf_parent _ WF).
  - constructor. now apply in_store_transfer.
  - apply in_store_transfer in Hb.
    apply ancestor_step with p; [assumption| |assumption].
    rewrite <- Same; [assumption|]. now apply (wf_parent _ WF).
Qed.

Lemma well_formed_transfer : well_formed bc'.
Proof.
  constructor.
  - intros h b Hh. rewrite Same by assumption. now apply (wf_hash _ WF).
  - intros b Hb. apply in_store_transfer in Hb. now apply (wf_parent _ WF).
  - intros b p Hb. apply in_store_transfer in Hb.
    rewrite Same by now apply (wf_parent _ WF).
    now apply (wf_height _ WF).
  - intros b Hb. apply in_store_transfer in Hb. now apply (wf_range _ WF).
Qed.

End Transfer.

Section Commit.
Context `{Sto : Storage} `{Codec : BlockCodec} `{Laws : !StorageLaws}.
Implicit Types (bc : BlockChain) (bs : list Block) (o : outcome).


Lemma revert_state_frame fuel anc newTail bc bc1 bc2 r :
  FindCommonAncestorWithTail fuel newTail bc = Some (bc1, Ok anc) ->
  revertBlocks fuel anc (tailBlock bc) bc1 = Some (bc2, r) ->
  let bcR := match r with
             | Some _ => log (LogRevertFailed anc (tailBlock bc)) bc2
             | None => bc2
             end in
  storage bcR = storage bc /\ tailBlock bcR = tailBlock bc /\
  same_lookups bc bcR.
Proof.
  intros E1 E2 bcR.
  pose proof (FindCommonAncestorWithTail_touched _ _ _ _ _ E1)
    as (Hs&Htl&_&_&_&_&Hc).
  pose proof (revertBlocks_frame _ _ _ _ _ _ E2) as (Hs'&Htl'&_&Hc').
  assert (storage bcR = storage bc) as HsR
    by (unfold bcR; destruct r; simpl; congruence).
  split_and!; [exact HsR|unfold bcR; destruct r; simpl; congruence|].
  apply cache_same_lookups; [exact HsR|].
  intros k. unfold bcR. destruct r; simpl; now rewrite Hc', Hc.
Qed.


Lemma index_keys_NoDup bc bs :
  well_formed bc -> Forall (in_store bc) bs -> NoDup (map height bs) ->
  NoDup (map fst (map indexEntry bs)).
Proof.
  intros WF Hin Hnd. rewrite map_map. simpl.
  induction bs as [|b bs IH]; simpl; [constructor|].
  apply Forall_cons in Hin as [Hb Hin]. simpl in Hnd.
  apply NoDup_cons in Hnd as [Hnb Hnd]. apply NoDup_cons. split; [|auto].
  intros Hk. apply Hnb.
  apply list_elem_of_In, in_map_iff in Hk as (x & Hx & Hxin).
  apply list_elem_of_In, in_map_iff. exists x. split; [|assumption].
  apply list_elem_of_In in Hxin. rewrite Forall_forall in Hin.
  apply FromUint64_inj; [apply (wf_range _ WF)..|assumption]; auto.
Qed.

(** A successful [SetTailBlock] keeps the data model and the canonical
    height index. *)
Lemma SetTailBlock_success_invariant fuel newTail bc g bcF :
  well_formed bc -> canonical_index bc ->
  ancestor bc g (tailBlock bc) -> ancestor bc g newTail ->
  SetTailBlock fuel newTail bc = Some (bcF, None) ->
  tailBlock bcF = newTail /\ same_blocks bc bcF /\
  well_formed bcF /\ canonical_index bcF /\ ancestor bcF g newTail.
Proof.
  intros WF CI Hgt Hgn ES.
  destruct (FindCommonAncestorWithTail fuel newTail bc)
    as [[bc1 [anc|e]]|] eqn:E1;
    [|unfold SetTailBlock in ES; rewrite E1 in ES; discriminate..].
  destruct (FindCommonAncestorWithTail_sound bc g newTail fuel _ _
              WF CI Hgt Hgn E1) as (_ & a & [= <-] & Hat & Han & _).
  destruct (revertBlocks fuel anc (tailBlock bc) bc1) as [[bc2 r]|] eqn:E2;
    [|unfold SetTailBlock in ES; rewrite E1, E2 in ES; discriminate].
  rewrite (SetTailBlock_phases _ _ _ _ _ _ _ E1 E2) in ES.
  destruct (revert_state_frame _ _ _ _ _ _ _ E1 E2) as (HsR & HtlR & HlR).
  set (bcR := match r with Some _ => _ | None => bc2 end) in *.
  unfold reindexAndCommit in ES.
  destruct (buildIndexByBlockHeight fuel anc newTail bcR)
    as [[bc3 [e|]]|] eqn:E3; [discriminate| |discriminate].
  destruct (storeTailToStorage newTail (storage bc3)) as [s4 [e|]] eqn:E4;
    [discriminate|].
  injection ES as <-.
  destruct (ancestor_walks bc anc newTail WF Han)
    as (bs & Hw & Hall & Hcov & Hnd).
  assert (Forall (in_store bc) bs) as Hin.
  { eapply Forall_impl; [exact Hall|]. simpl. intros x (_ & Hx & _).
    eapply ancestor_in_store_l; eauto. }
  assert (Forall (fun b => length (parentHash b) = BlockHashLength) bs)
    as H32.
  { eapply Forall_impl; [exact Hin|]. apply (wf_parent _ WF). }
  destruct (buildIndexByBlockHeight_walks bc anc newTail bs Reached Hw H32
              (Nat.max fuel (length bs)) bcR
              (same_lookups_blocks _ _ HlR) ltac:(lia))
    as (bc3' & E3' & Hs3 & _ & Hsame).
  rewrite (buildIndexByBlockHeight_mono fuel (Nat.max fuel (length bs))
             _ _ _ _ ltac:(lia) E3) in E3'.
  rewrite HsR in E3', Hs3, Hsame.
  destruct (putAll (map indexEntry bs) (storage bc)) as [s3 e3] eqn:HP.
  simpl in *. injection E3' as <- He3.
  assert (e3 = None) as -> by (now destruct e3).
  specialize (Hsame eq_refl).
  unfold storeTailToStorage in E4. rewrite Hs3 in E4.
  assert (forall k, k <> Tail -> Get s4 k = Get s3 k) as Hs4
    by (intros k Hk; eapply Get_Put_ne; eauto).
  assert (same_blocks bc3 (set_storage s4 bc3)) as Hsb4.
  { eapply Put_same_blocks; [rewrite Hs3; exact E4|]. now rewrite Tail_length. }
  set (bcF := set_gauges _ _).
  assert (same_blocks bc bcF) as HsF.
  { eapply same_blocks_trans; [exact Hsame|].
    eapply same_blocks_trans; [exact Hsb4|].
    apply same_lookups_blocks, cache_same_lookups; reflexivity. }
  split_and!.
  - reflexivity.
  - exact HsF.
  - now apply (well_formed_transfer bc bcF).
  - intros x Hx. change (tailBlock bcF) with newTail in Hx.
    change (storage bcF) with s4.
    apply (ancestor_transfer bc bcF WF HsF) in Hx.
    assert (FromUint64 (height x) <> Tail) as HkT.
    { intros Hk. apply (f_equal length) in Hk.
      now rewrite FromUint64_length in Hk. }
    rewrite (Hs4 _ HkT).
    destruct (Hcov x Hx) as [Hxin|Hxa].
    + apply (putAll_get_in _ _ _ _ _ HP).
      * now apply (index_keys_NoDup bc).
      * apply list_elem_of_In, in_map_iff. exists x.
        split; [reflexivity|now apply list_elem_of_In].
    + rewrite (putAll_get_notin _ _ _ _ HP).
      * apply CI. eapply ancestor_trans; eauto.
      * intros Hk. rewrite map_map in Hk. simpl in Hk.
        apply list_elem_of_In, in_map_iff in Hk as (b & Hb & Hbin).
        apply list_elem_of_In in Hbin. rewrite Forall_forall in Hall, Hin.
        destruct (Hall b Hbin) as (_ & _ & Hlt).
        pose proof (ancestor_le bc WF _ _ Hxa).
        apply FromUint64_inj in Hb;
          [lia|apply (wf_range _ WF); auto|
            apply (wf_range _ WF); eapply ancestor_in_store_l; eauto].
  - now apply (ancestor_transfer bc bcF WF HsF).
Qed.

(** C1, as the code has it.  A failure of the ancestor search, of the
    reindex phase or of the write of the head pointer is what
    [SetTailBlock] returns, and a call that returns an error leaves the head
    in memory as it was.  A call that returns success has made [newTail]
    the head; and when the store was well formed and the height index
    canonical for the old head, both chains reaching back to a common block,
    they are so again for the new head: the index names every block on the
    path of [newTail]. *)
Theorem SetTailBlock_outcome fuel newTail bc :
  (forall bc1 e,
      FindCommonAncestorWithTail fuel newTail bc = Some (bc1, Err e) ->
      exists bcF, SetTailBlock fuel newTail bc = Some (bcF, Some e) /\
                  tailBlock bcF = tailBlock bc) /\
  (forall bc1 anc bc2 r,
      FindCommonAncestorWithTail fuel newTail bc = Some (bc1, Ok anc) ->
      revertBlocks fuel anc (tailBlock bc) bc1 = Some (bc2, r) ->
      let bcR := match r with
                 | Some _ => log (LogRevertFailed anc (tailBlock bc)) bc2
                 | None => bc2
                 end in
      (forall bc3 e,
          buildIndexByBlockHeight fuel anc newTail bcR = Some (bc3, Some e) ->
          exists bcF, SetTailBlock fuel newTail bc = Some (bcF, Some e) /\
                      tailBlock bcF = tailBlock bc) /\
      (forall bc3 s e,
          buildIndexByBlockHeight fuel anc newTail bcR = Some (bc3, None) ->
          storeTailToStorage newTail (storage bc3) = (s, Some e) ->
          exists bcF, SetTailBlock fuel newTail bc = Some (bcF, Some e) /\
                      tailBlock bcF = tailBlock bc)) /\
  (forall bcF e,
      SetTailBlock fuel newTail bc = Some (bcF, Some e) ->
      tailBlock bcF = tailBlock bc) /\
  (forall bcF,
      SetTailBlock fuel newTail bc = Some (bcF, None) ->
      tailBlock bcF = newTail /\
      forall g,
        well_formed bc -> canonical_index bc ->
        ancestor bc g (tailBlock bc) -> ancestor bc g newTail ->
        well_formed bcF /\ canonical_index bcF /\ ancestor bcF g newTail).
Proof.
  assert (forall bcF res,
             SetTailBlock fuel newTail bc = Some (bcF, res) ->
             tailBlock bcF = match res with
                             | None => newTail
                             | Some _ => tailBlock bc
                             end) as Hhead.
  { intros bcF res ES. unfold SetTailBlock in ES.
    destruct (FindCommonAncestorWithTail fuel newTail bc)
      as [[bc1 [anc|e]]|] eqn:E1; [| |discriminate].
    - pose proof (FindCommonAncestorWithTail_touched _ _ _ _ _ E1)
        as (_&Htl&_).
      destruct (revertBlocks fuel anc (tailBlock bc) bc1)
        as [[bc2 r]|] eqn:E2; [|discriminate].
      pose proof (revertBlocks_frame _ _ _ _ _ _ E2) as (_&Htl'&_).
      destruct r; apply reindexAndCommit_frame in ES as (_&_&->);
        destruct res; simpl; congruence.
    - injection ES as <- <-. simpl.
      now pose proof (FindCommonAncestorWithTail_touched _ _ _ _ _ E1)
        as (_&Htl&_). }
  split_and!.
  - intros bc1 e E1. eexists. split;
      [unfold SetTailBlock; rewrite E1; reflexivity|]. simpl.
    now pose proof (FindCommonAncestorWithTail_touched _ _ _ _ _ E1)
      as (_&Htl&_).
  - intros bc1 anc bc2 r E1 E2 bcR.
    pose proof (SetTailBlock_phases _ _ _ _ _ _ _ E1 E2) as ES.
    fold bcR in ES. unfold reindexAndCommit in ES. split.
    + intros bc3 e E3. rewrite E3 in ES. eexists. split; [exact ES|].
      now apply (Hhead _ _ ES).
    + intros bc3 s e E3 E4. rewrite E3, E4 in ES.
      eexists. split; [exact ES|]. now apply (Hhead _ _ ES).
  - intros bcF e ES. now apply (Hhead _ _ ES).
  - intros bcF ES. split; [now apply (Hhead _ _ ES)|].
    intros g WF CI Hgt Hgn.
    now destruct (SetTailBlock_success_invariant _ _ _ _ _ WF CI Hgt Hgn ES)
      as (_&_&?&?&?).
Qed.

End Commit.

(** ** Executable checks of the vocabulary *)

Section Chains.
Context `{Sto : Storage} `{Codec : BlockCodec}.
Implicit Types (bc : BlockChain) (b x : Block).

Lemma ancestor_chain_of fuel bc b x :
  chain_closed fuel bc b = true -> ancestor bc x b ->
  x ∈ chain_of fuel bc b.
Proof.
  revert b; induction fuel as [|fuel IH]; intros b; simpl; [discriminate|].
  intros Hc Hx. destruct Hx as [b _|a p b _ Hp Hap]; [now left|].
  rewrite Hp in Hc |- *. right. auto.
Qed.

Lemma chain_of_ancestor fuel bc b x :
  chain_stored fuel bc b = true -> x ∈ chain_of fuel bc b ->
  ancestor bc x b.
Proof.
  unfold chain_stored.
  revert b; induction fuel as [|fuel IH]; intros b; simpl.
  - intros _ Hin. now apply elem_of_nil in Hin.
  - intros Hs Hin. apply andb_true_iff in Hs as [Hb Hs].
    apply bool_decide_eq_true in Hb.
    apply elem_of_cons in Hin as [->|Hin]; [now constructor|].
    destruct (lookupBlock bc (parentHash b)) as [p|] eqn:Hp;
      [|now apply elem_of_nil in Hin].
    eapply ancestor_step; eauto.
Qed.

Lemma canonical_check_sound fuel bc :
  canonical_check fuel bc = true -> canonical_index bc.
Proof.
  unfold canonical_check. intros H x Hx.
  apply andb_true_iff in H as [Hc Hall].
  apply (ancestor_chain_of fuel) in Hx; [|assumption].
  rewrite forallb_forall in Hall. apply list_elem_of_In, Hall in Hx.
  now apply bool_decide_eq_true in Hx.
Qed.

End Chains.

(** * Concrete runs on the in-memory store *)

Module SampleFacts.
Import Sample.

#[export] Instance mem_laws : StorageLaws.
Proof.
  split.
  - intros s k v s'. simpl. unfold mem_Put, mem_Get.
    destruct (put_script s) as [|[|] rest]; intros [= <-]; simpl;
      now rewrite lookup_insert_eq.
  - intros s k v s' k'. simpl. unfold mem_Put, mem_Get.
    destruct (put_script s) as [|[|] rest]; intros [= <-] Hne; simpl;
      now rewrite lookup_insert_ne.
Qed.

(** A run is named by its own final state once its result is known; the
    result is small, so it can be computed. *)
Lemma run_eq {A} `{EqDecision A} (r : option (BlockChain * A)) (a : A) :
  match r with
  | Some (_, a') => bool_decide (a' = a)
  | None => false
  end = true ->
  r = Some (run r, a).
Proof.
  destruct r as [[bc a']|]; simpl; [|discriminate].
  intros E. apply bool_decide_eq_true in E. now subst.
Qed.

Lemma surjective_pairing_snd {A B} `{EqDecision B} (p : A * B) (b : B) :
  bool_decide (p.2 = b) = true -> p = (p.1, b).
Proof. destruct p. simpl. intros E. apply bool_decide_eq_true in E. now subst. Qed.

Lemma assoc_elem {V} k (v : V) l : assoc k l = Some v -> (k, v) ∈ l.
Proof.
  induction l as [|[k' v'] l IH]; simpl; [discriminate|].
  destruct (bool_decide (k' = k)) eqn:E.
  - apply bool_decide_eq_true in E. intros [= ->]. subst. now left.
  - intros H. right. auto.
Qed.

Lemma lookup_candidates bc h b :
  lookupBlock bc h = Some b ->
  (Hex h, b) ∈ lru_items (cachedBlocks bc) \/ (h, b) ∈ stored_blocks bc.
Proof.
  rewrite lookupBlock_unfold. unfold lru_Peek.
  destruct (assoc (Hex h) (lru_items (cachedBlocks bc))) as [c|] eqn:E.
  - intros [= ->]. left. now apply assoc_elem.
  - unfold LoadBlockFromStorage. simpl. unfold mem_Get.
    destruct (cells (storage bc) !! h) as [[v|e]|] eqn:Hc;
      [|discriminate..].
    destruct (block_of_wire v) as [b'|] eqn:Hv; [|discriminate].
    intros [= ->]. right. unfold stored_blocks.
    apply list_elem_of_omap. exists (h, Ok v). split.
    + now apply elem_of_map_to_list.
    + simpl. now rewrite Hv.
Qed.

Lemma in_store_candidates bc b : in_store bc b -> b ∈ candidates bc.
Proof.
  intros [_ Hl]. unfold candidates. apply elem_of_app.
  destruct (lookup_candidates _ _ _ Hl) as [Hin|Hin]; [left|right];
    apply list_elem_of_In, in_map_iff; eexists; (split; [|
      apply list_elem_of_In; exact Hin]); reflexivity.
Qed.

Lemma wf_check_sound bc : wf_check bc = true -> well_formed bc.
Proof.
  unfold wf_check. intros H.
  apply andb_true_iff in H as [H H3]. apply andb_true_iff in H as [H1 H2].
  rewrite forallb_forall in H1, H2, H3.
  assert (forall b, in_store bc b -> block_ok bc b = true) as Hok.
  { intros b Hb. pose proof (in_store_candidates _ _ Hb) as Hin.
    apply list_elem_of_In, H3, orb_true_iff in Hin as [Hn|Hy]; [|exact Hy].
    apply negb_true_iff, bool_decide_eq_false in Hn. contradiction. }
  constructor.
  - intros h b Hh Hl.
    destruct (lookup_candidates _ _ _ Hl) as [Hin|Hin];
      apply list_elem_of_In in Hin.
    + apply H1, bool_decide_eq_true in Hin. simpl in Hin.
      symmetry. now apply Hex_inj.
    + apply H2, bool_decide_eq_true in Hin. now apply Hin.
  - intros b Hb. apply Hok in Hb. unfold block_ok in Hb.
    apply andb_true_iff in Hb as [Hb _].
    apply andb_true_iff in Hb as [Hb _].
    now apply bool_decide_eq_true in Hb.
  - intros b p Hb Hp Hne. apply Hok in Hb. unfold block_ok in Hb.
    apply andb_true_iff in Hb as [_ Hb]. rewrite Hp in Hb.
    apply orb_true_iff in Hb as [Hb|Hb]; apply bool_decide_eq_true in Hb;
      [contradiction|assumption].
  - intros b Hb. apply Hok in Hb. unfold block_ok in Hb.
    apply andb_true_iff in Hb as [Hb _].
    apply andb_true_iff in Hb as [_ Hb].
    now apply bool_decide_eq_true in Hb.
Qed.

Lemma st_linear_well_formed : well_formed st_linear.
Proof. apply wf_check_sound. vm_compute. reflexivity. Qed.

Lemma st_linear_canonical : canonical_index st_linear.
Proof. apply (canonical_check_sound 8). vm_compute. reflexivity. Qed.

Lemma st_linear_G_B2 : ancestor st_linear G (tailBlock st_linear).
Proof.
  apply (chain_of_ancestor 8); [vm_compute; reflexivity|].
  apply (bool_decide_unpack _). vm_compute. exact I.
Qed.

Lemma st_linear_G_C2 : ancestor st_linear G C2.
Proof.
  apply (chain_of_ancestor 8); [vm_compute; reflexivity|].
  apply (bool_decide_unpack _). vm_compute. exact I.
Qed.

(** *** Lookups (C5) *)

(** Against C5 as stated: after a restart the record of [B1] is unreadable,
    the store answers with an I/O error, and [GetBlock] reports the same
    miss it reports for an unknown hash.  So a miss does not tell that the
    store signalled key-not-found. *)
Lemma GetBlock_miss_on_io_error :
  ~ (forall (bc : BlockChain) (h : Hash),
        lru_Peek (Hex h) (cachedBlocks bc) = None ->
        (GetBlock h bc).2 = None ->
        Get (storage bc) h = Err ErrKeyNotFound).
Proof.
  intros H. specialize (H st_unreadable (hash B1)).
  assert (Get (storage st_unreadable) (hash B1)
          = Err (ErrStorage "read failed")) as E
    by (vm_compute; reflexivity).
  rewrite E in H. discriminate H; vm_compute; reflexivity.
Qed.

(** *** Ingest (C6, C8) *)

(** Against C6 as stated: the detached-tails set is full, the parent is
    its newest entry [leaf 163] and the batch has one new tail.  Removing
    the parent first would make room for the tail; the code inserts first,
    which evicts the oldest entry [leaf 100], and removes the parent
    afterwards. *)
Lemma putVerifiedNewBlocks_inserts_before_removing :
  let parent := leaf 163 in
  let tails := [leaf 200] in
  let after := (putVerifiedNewBlocks parent [] tails st_full).1 in
  let specified :=
    detached_as_specified parent tails (detachedTailBlocks st_full) in
  detachedTailBlocks after <> specified /\
  lru_Peek (Hex (hash (leaf 100))) specified = Some (leaf 100) /\
  lru_Peek (Hex (hash (leaf 100))) (detachedTailBlocks after) = None.
Proof.
  assert (lru_Peek (Hex (hash (leaf 100)))
            (detached_as_specified (leaf 163) [leaf 200]
               (detachedTailBlocks st_full)) = Some (leaf 100)) as H1
    by (vm_compute; reflexivity).
  assert (lru_Peek (Hex (hash (leaf 100)))
            (detachedTailBlocks
               (putVerifiedNewBlocks (leaf 163) [] [leaf 200] st_full).1)
          = None) as H2
    by (vm_compute; reflexivity).
  cbv zeta. split_and!; [|exact H1|exact H2].
  intros E. rewrite E, H1 in H2. discriminate H2.
Qed.

(** C8 fails on the code: the write of [B1] fails, [putVerifiedNewBlocks]
    returns the error, and [B1] stays in the block cache although the store
    has no record of it. *)
Lemma putVerifiedNewBlocks_caches_unstored_block :
  let r := putVerifiedNewBlocks G [B1] [B1] (with_script [true] booted) in
  r.2 = Some (ErrStorage "write failed") /\
  lru_Peek (Hex (hash B1)) (cachedBlocks r.1) = Some B1 /\
  Get (storage r.1) (hash B1) = Err ErrKeyNotFound /\
  (GetBlock (hash B1) r.1).2 = Some B1.
Proof. vm_compute. split_and!; reflexivity. Qed.

(** *** Descendant fetch (C7) *)

(** Against C7 as stated, twice.  For [n = -1] the specified range of
    heights is empty and no list has at most [-1] blocks, but [uint64(n)] is
    the largest [uint64] and the code returns every block up to the head.
    And on [st_torn], a well-formed store whose height index names the fork
    blocks while the head is still [B2], the two blocks returned after [G]
    are [C1] and [C2], which are not on the head's chain. *)
Lemma FetchDescendantInCanonicalChain_counterexamples :
  ((exists bc', FetchDescendantInCanonicalChain 8 (-1) G st_linear
                = Some (bc', Ok [B1; B2])) /\
   descendant_heights (-1) G st_linear = [] /\
   ~ (Z.of_nat (length [B1; B2]) <= -1)) /\
  (well_formed st_torn /\ tailBlock st_torn = B2 /\
   ancestor st_torn G (tailBlock st_torn) /\
   (exists bc', FetchDescendantInCanonicalChain 8 2 G st_torn
                = Some (bc', Ok [C1; C2])) /\
   ~ ancestor st_torn C1 (tailBlock st_torn) /\
   ~ ancestor st_torn C2 (tailBlock st_torn)).
Proof.
  split; split_and!.
  - exists (run (FetchDescendantInCanonicalChain 8 (-1) G st_linear)).
    apply run_eq. vm_compute. reflexivity.
  - vm_compute. reflexivity.
  - simpl. lia.
  - apply wf_check_sound. vm_compute. reflexivity.
  - vm_compute. reflexivity.
  - apply (chain_of_ancestor 8); [vm_compute; reflexivity|].
    apply (bool_decide_unpack _). vm_compute. exact I.
  - exists (run (FetchDescendantInCanonicalChain 8 2 G st_torn)).
    apply run_eq. vm_compute. reflexivity.
  - intros H. apply (ancestor_chain_of 8) in H; [|vm_compute; reflexivity].
    revert H. apply (bool_decide_unpack _). vm_compute. exact I.
  - intros H. apply (ancestor_chain_of 8) in H; [|vm_compute; reflexivity].
    revert H. apply (bool_decide_unpack _). vm_compute. exact I.
Qed.

(** C7 at work: two descendants of [G] are asked for on the canonical state
    [st_linear], and the blocks [B1] and [B2] of the head's chain are
    returned. *)
Lemma FetchDescendantInCanonicalChain_spec_witness :
  (exists bc', FetchDescendantInCanonicalChain 2 2 G st_linear
               = Some (bc', Ok [B1; B2])) /\
  ancestor st_linear B1 (tailBlock st_linear) /\
  ancestor st_linear G B1.
Proof.
  destruct (FetchDescendantInCanonicalChain_spec 2 2 G st_linear)
    as (_ & _ & (bc' & E) & HC).
  - lia.
  - vm_compute. split; [discriminate|reflexivity].
  - vm_compute. reflexivity.
  - lia.
  - destruct (HC st_linear_well_formed st_linear_canonical G st_linear_G_B2)
      as (bc2 & blocks & E2 & _ & Ht & Hd); [vm_compute; discriminate|].
    assert (mapM (lookupHeight st_linear) (descendant_heights 2 G st_linear)
            = Some [B1; B2]) as Em by (vm_compute; reflexivity).
    rewrite Em in E. rewrite E in E2. injection E2 as _ <-.
    specialize (Hd st_linear_G_B2).
    apply Forall_cons in Ht as [Ht _]. apply Forall_cons in Hd as [Hd _].
    split_and!; [exists bc'; exact E|exact Ht|exact Hd].
Defined.

(** *** Bootstrap (C9) *)

(** C9 at work, scenario 6 of the specification: the stored genesis has
    chain id 1, the configuration says 2. *)
Lemma NewBlockChain_genesis_mismatch_witness :
  blockChainID G = 1 /\ Meta_ChainId conf2 = 2 /\
  NewBlockChain conf2 (storage booted) zero_gauges
  = (storage booted, Err ErrGenesisConfNotMatch).
Proof.
  split_and!; [reflexivity..|].
  apply (NewBlockChain_genesis_mismatch conf2 (storage booted) zero_gauges G).
  - reflexivity.
  - reflexivity.
  - vm_compute. reflexivity.
  - vm_compute. discriminate.
Defined.

(** *** Ancestor resolver (C2) *)

Ltac by_compute := apply (bool_decide_unpack _); vm_compute; exact I.

Lemma st_torn_tail : tailBlock st_torn = B2.
Proof. vm_compute. reflexivity. Qed.

(** How [st_torn] comes about: the head pointer could not be written. *)
Lemma st_torn_history :
  SetTailBlock 8 C2 (with_script [false; false; true] st_linear)
  = Some (st_torn, Some (ErrStorage "write failed")).
Proof. unfold st_torn. apply run_eq. vm_compute. reflexivity. Qed.

(** Against C2 as stated: in [st_torn] the head [B2] and the target [C2]
    are both in the store and both reach back to [G], but the height index
    names [C2] at height 2, the fast check trusts it, and the answer [C2] is
    no ancestor of the head. *)
Lemma FindCommonAncestorWithTail_trusts_stale_index :
  in_store st_torn (tailBlock st_torn) /\ in_store st_torn C2 /\
  ancestor st_torn G (tailBlock st_torn) /\ ancestor st_torn G C2 /\
  (exists bc', FindCommonAncestorWithTail 8 C2 st_torn = Some (bc', Ok C2)) /\
  ~ ancestor st_torn C2 (tailBlock st_torn).
Proof.
  rewrite st_torn_tail. split_and!.
  - by_compute.
  - by_compute.
  - apply (chain_of_ancestor 8); [vm_compute; reflexivity|by_compute].
  - apply (chain_of_ancestor 8); [vm_compute; reflexivity|by_compute].
  - exists (run (FindCommonAncestorWithTail 8 C2 st_torn)).
    apply run_eq. vm_compute. reflexivity.
  - intros H. apply (ancestor_chain_of 8) in H; [|vm_compute; reflexivity].
    revert H. by_compute.
Qed.

(** C2 at work on the canonical state [st_linear]: head [B2], target [C2]. *)
Lemma FindCommonAncestorWithTail_correct_witness :
  exists bc' r,
    FindCommonAncestorWithTail 8 C2 st_linear = Some (bc', Ok r) /\
    ancestor st_linear r (tailBlock st_linear) /\ ancestor st_linear r C2 /\
    forall c, ancestor st_linear c (tailBlock st_linear) ->
              ancestor st_linear c C2 -> height c <= height r.
Proof.
  apply (FindCommonAncestorWithTail_correct st_linear G C2 8).
  - exact st_linear_well_formed.
  - exact st_linear_canonical.
  - exact st_linear_G_B2.
  - exact st_linear_G_C2.
  - vm_compute. discriminate.
Defined.

(** *** Head reconciler (C1, C3, C4, C10) *)

(** Against C1 as stated: on [st_torn], [SetTailBlock B2] returns success
    and [B2] is the head, yet the height index still names the fork blocks
    [C1] and [C2]: it does not reflect the path of the new head. *)
Lemma SetTailBlock_success_with_stale_index :
  exists bcF,
    SetTailBlock 8 B2 st_torn = Some (bcF, None) /\
    tailBlock bcF = B2 /\
    (GetBlockByHeight 1 bcF).2 = Some C1 /\
    (GetBlockByHeight 2 bcF).2 = Some C2 /\
    ~ canonical_index bcF.
Proof.
  exists (run (SetTailBlock 8 B2 st_torn)).
  split_and!;
    [apply run_eq; vm_compute; reflexivity|vm_compute; reflexivity..|].
  intros CI.
  assert (in_store (run (SetTailBlock 8 B2 st_torn)) B2) as HB2
    by by_compute.
  specialize (CI B2).
  assert (tailBlock (run (SetTailBlock 8 B2 st_torn)) = B2) as Ht
    by (vm_compute; reflexivity).
  rewrite Ht in CI. specialize (CI (ancestor_refl _ _ HB2)).
  revert CI. by_compute.
Qed.

(** C1 at work, scenario 3 of the specification: the reorganisation from
    [B2] to [C2] succeeds and the index is canonical for [C2]. *)
Lemma SetTailBlock_outcome_witness :
  exists bcF,
    SetTailBlock 8 C2 st_linear = Some (bcF, None) /\
    tailBlock bcF = C2 /\ well_formed bcF /\ canonical_index bcF /\
    ancestor bcF G C2.
Proof.
  pose proof (SetTailBlock_outcome 8 C2 st_linear) as (_ & _ & _ & H).
  assert (SetTailBlock 8 C2 st_linear
          = Some (run (SetTailBlock 8 C2 st_linear), None)) as E
    by (apply run_eq; vm_compute; reflexivity).
  destruct (H _ E) as [Ht Hinv].
  destruct (Hinv G st_linear_well_formed st_linear_canonical
              st_linear_G_B2 st_linear_G_C2) as (Hwf & Hci & Hanc).
  eexists. split_and!; [exact E|exact Ht|exact Hwf|exact Hci|exact Hanc].
Defined.



Lemma st_torn_walk : walks st_torn C2 B2 [B2; B1; G] Missed.
Proof.
  apply walks_step with B1; [vm_compute; discriminate|
                              vm_compute; reflexivity|].
  apply walks_step with G; [vm_compute; discriminate|
                             vm_compute; reflexivity|].
  apply walks_missed; [vm_compute; discriminate|vm_compute; reflexivity].
Qed.


(** C10 at work on the same run: the call returns success, and the
    transactions of the three visited blocks are in the pool. *)
Lemma SetTailBlock_revert_not_atomic_witness :
  exists bcF,
    SetTailBlock 8 C2 st_torn = Some (bcF, None) /\
    tailBlock bcF = C2 /\
    txPool bcF = txPool st_torn ++ concat (map transactions [B2; B1; G]).
Proof.
  pose proof (SetTailBlock_revert_not_atomic 8 C2 st_torn
                (run (FindCommonAncestorWithTail 8 C2 st_torn)) C2
                [B2; B1; G]
                (run (SetTailBlock 8 C2 st_torn)) None) as H.
  rewrite st_torn_tail in H.
  destruct H as (_ & Htx & _ & _ & Htl).
  - apply run_eq. vm_compute. reflexivity.
  - exact st_torn_walk.
  - simpl. lia.
  - apply run_eq. vm_compute. reflexivity.
  - eexists. split_and!; [|exact (Htl eq_refl)|exact Htx].
    apply run_eq. vm_compute. reflexivity.
Defined.

End SampleFacts.

(** * Beyond the claims: the rest of the file *)

(** ** The caches stay well formed *)

Section LRUInvariant.
Context {V : Type}.
Implicit Types (l : list (string * V)) (c : lru V).

Lemma assoc_None k l : assoc k l = None <-> k ∉ map fst l.
Proof.
  induction l as [|[k' v] l IH]; simpl.
  - split; [intros _; apply not_elem_of_nil|reflexivity].
  - rewrite not_elem_of_cons. destruct (bool_decide (k' = k)) eqn:E.
    + apply bool_decide_eq_true in E. split; [discriminate|].
      intros [Hne _]. congruence.
    + apply bool_decide_eq_false in E. rewrite IH. split; [|tauto].
      intros H. split; [congruence|assumption].
Qed.

Lemma unassoc_keys k k' l :
  k' ∈ map fst (unassoc k l) <-> k' ∈ map fst l /\ k' <> k.
Proof.
  induction l as [|[k0 v] l IH]; simpl.
  - rewrite elem_of_nil. tauto.
  - destruct (bool_decide (k0 = k)) eqn:E; simpl;
      rewrite ?elem_of_cons, IH.
    + apply bool_decide_eq_true in E. subst k0. split; [tauto|].
      intros [[->|?] ?]; [contradiction|tauto].
    + apply bool_decide_eq_false in E. split.
      * intros [->|[? ?]]; [split; [now left|assumption]|tauto].
      * intros [[->|?] ?]; [now left|tauto].
Qed.

Lemma unassoc_NoDup k l : NoDup (map fst l) -> NoDup (map fst (unassoc k l)).
Proof.
  induction l as [|[k0 v] l IH]; simpl; [auto|].
  rewrite NoDup_cons. intros [Hk0 Hnd].
  destruct (bool_decide (k0 = k)); simpl; [auto|].
  apply NoDup_cons. split; [|auto].
  rewrite unassoc_keys. tauto.
Qed.

Lemma unassoc_length k l : (length (unassoc k l) <= length l)%nat.
Proof.
  induction l as [|[k0 v] l IH]; simpl; [lia|].
  destruct (bool_decide (k0 = k)); simpl; lia.
Qed.

Lemma unassoc_length_present k l :
  is_Some (assoc k l) -> (length (unassoc k l) < length l)%nat.
Proof.
  induction l as [|[k0 v] l IH]; simpl; [intros [? [=]]|].
  destruct (bool_decide (k0 = k)); simpl.
  - intros _. pose proof (unassoc_length k l). lia.
  - intros H. apply IH in H. lia.
Qed.

Lemma unassoc_absent k l : k ∉ map fst l -> unassoc k l = l.
Proof.
  induction l as [|[k0 v] l IH]; simpl; [reflexivity|].
  rewrite not_elem_of_cons. intros [Hne Hk].
  rewrite bool_decide_eq_false_2 by congruence. now rewrite IH.
Qed.

Lemma unassoc_app k l1 l2 :
  unassoc k (l1 ++ l2) = unassoc k l1 ++ unassoc k l2.
Proof.
  induction l1 as [|[k0 v] l1 IH]; simpl; [reflexivity|].
  destruct (bool_decide (k0 = k)); simpl; now rewrite IH.
Qed.

Lemma assoc_app_absent k l1 l2 :
  k ∉ map fst l1 -> assoc k (l1 ++ l2) = assoc k l2.
Proof.
  induction l1 as [|[k0 v] l1 IH]; simpl; [reflexivity|].
  rewrite not_elem_of_cons. intros [Hne Hk].
  rewrite bool_decide_eq_false_2 by congruence. auto.
Qed.

Lemma removelast_elem {A} (x : A) (l : list A) : x ∈ removelast l -> x ∈ l.
Proof.
  induction l as [|y l IH]; simpl; [auto|].
  destruct l as [|z l]; [intros H; now apply elem_of_nil in H|].
  intros H. apply elem_of_cons in H as [->|H]; [now left|right; auto].
Qed.

Lemma removelast_NoDup {A} (l : list A) : NoDup l -> NoDup (removelast l).
Proof.
  induction l as [|x l IH]; simpl; [auto|].
  rewrite NoDup_cons. intros [Hx Hnd]. destruct l as [|y l]; [constructor|].
  apply NoDup_cons. split; [|auto].
  intros Hin. apply Hx. now apply removelast_elem.
Qed.

Lemma removelast_map {A B} (f : A -> B) (l : list A) :
  removelast (map f l) = map f (removelast l).
Proof.
  induction l as [|x l IH]; simpl; [reflexivity|].
  destruct l; simpl in *; [reflexivity|]. now rewrite IH.
Qed.

Lemma lru_New_ok n : lru_ok (lru_New (V := V) n).
Proof. split; simpl; [constructor|lia]. Qed.

Lemma lru_Get_ok k c : lru_ok c -> lru_ok (lru_Get k c).1.
Proof.
  intros [Hnd Hlen]. unfold lru_Get.
  destruct (assoc k (lru_items c)) as [v|] eqn:E; simpl; [|now split].
  split; simpl.
  - apply NoDup_cons. split; [|now apply unassoc_NoDup].
    rewrite unassoc_keys. tauto.
  - pose proof (unassoc_length_present k (lru_items c)) as H.
    rewrite E in H. specialize (H (mk_is_Some _ _ eq_refl)). lia.
Qed.

Lemma removelast_length {A} (l : list A) :
  length (removelast l) = pred (length l).
Proof. rewrite removelast_firstn_len, length_take. lia. Qed.

Lemma evict_ok n k v l :
  NoDup (map fst l) -> k ∉ map fst l -> (length l <= n)%nat ->
  let items := (k, v) :: l in
  let kept := if (n <? length items)%nat then removelast items else items in
  NoDup (map fst kept) /\ (length kept <= n)%nat.
Proof.
  intros Hnd Hk Hlen items kept.
  assert (NoDup (map fst items)) as Hnd'
    by (unfold items; simpl; apply NoDup_cons; now split).
  unfold kept. destruct (n <? length items)%nat eqn:El.
  - split; [rewrite <- removelast_map; now apply removelast_NoDup|].
    rewrite removelast_length. unfold items. simpl. lia.
  - apply Nat.ltb_ge in El. now split.
Qed.

Lemma lru_Add_ok k v c : lru_ok c -> lru_ok (lru_Add k v c).
Proof.
  intros [Hnd Hlen]. unfold lru_Add.
  destruct (assoc k (lru_items c)) as [w|] eqn:E.
  - split; simpl.
    + apply NoDup_cons. split; [|now apply unassoc_NoDup].
      rewrite unassoc_keys. tauto.
    + pose proof (unassoc_length_present k (lru_items c)) as H.
      rewrite E in H. specialize (H (mk_is_Some _ _ eq_refl)). lia.
  - apply assoc_None in E.
    exact (evict_ok (lru_size c) k v (lru_items c) Hnd E Hlen).
Qed.

Lemma lru_ContainsOrAdd_ok k v c : lru_ok c -> lru_ok (lru_ContainsOrAdd k v c).
Proof.
  intros H. unfold lru_ContainsOrAdd.
  destruct (lru_Contains k c); [assumption|now apply lru_Add_ok].
Qed.

Lemma lru_Remove_ok k c : lru_ok c -> lru_ok (lru_Remove k c).
Proof.
  intros [Hnd Hlen]. split; simpl; [now apply unassoc_NoDup|].
  pose proof (unassoc_length k (lru_items c)). lia.
Qed.

Lemma lru_ContainsOrAdd_size k v c :
  lru_size (lru_ContainsOrAdd k v c) = lru_size c.
Proof.
  unfold lru_ContainsOrAdd, lru_Add. destruct (lru_Contains k c);
    [reflexivity|]. now destruct (assoc k (lru_items c)).
Qed.

End LRUInvariant.

Section Ingest.
Context `{Sto : Storage} `{Codec : BlockCodec}.
Implicit Types (bc : BlockChain) (v : Block).

Lemma putAllBlocks_caches allBlocks bc :
  lru_ok (cachedBlocks bc) ->
  lru_ok (cachedBlocks (putAllBlocks allBlocks bc).1) /\
  lru_size (cachedBlocks (putAllBlocks allBlocks bc).1)
  = lru_size (cachedBlocks bc).
Proof.
  revert bc; induction allBlocks as [|v rest IH]; intros bc Hok; simpl;
    [now split|].
  pose proof (lru_ContainsOrAdd_ok (Hex (hash v)) v _ Hok) as Hok'.
  pose proof (lru_ContainsOrAdd_size (Hex (hash v)) v (cachedBlocks bc)) as Hs.
  destruct (storeBlockToStorage v _) as [s [e|]]; simpl; [now split|].
  destruct (IH (log (LogAccepted v)
                  (set_storage s
                     (set_cachedBlocks
                        (lru_ContainsOrAdd (Hex (hash v)) v (cachedBlocks bc))
                        bc))) Hok') as [H1 H2].
  split; [exact H1|]. rewrite H2. exact Hs.
Qed.

Lemma addTails_ok tails (d : lru Block) :
  lru_ok d -> lru_ok (addTails tails d) /\ lru_size (addTails tails d) = lru_size d.
Proof.
  unfold addTails. revert d; induction tails as [|v tails IH]; intros d Hok;
    simpl; [now split|].
  destruct (IH _ (lru_ContainsOrAdd_ok (Hex (hash v)) v d Hok)) as [H1 H2].
  split; [exact H1|]. now rewrite H2, lru_ContainsOrAdd_size.
Qed.

(** X1: whether it succeeds or fails, [putVerifiedNewBlocks] leaves both
    caches with one entry per key, at most as many entries as their size, and
    the sizes they had: neither the block cache nor the detached-tails set
    ever holds more entries than it was created for. *)
Theorem putVerifiedNewBlocks_keeps_caches parent allBlocks tailBlocks bc :
  caches_ok bc ->
  let bc' := (putVerifiedNewBlocks parent allBlocks tailBlocks bc).1 in
  caches_ok bc' /\
  lru_size (cachedBlocks bc') = lru_size (cachedBlocks bc) /\
  lru_size (detachedTailBlocks bc') = lru_size (detachedTailBlocks bc) /\
  (length (lru_items (cachedBlocks bc')) <= lru_size (cachedBlocks bc))%nat /\
  (length (lru_items (detachedTailBlocks bc'))
   <= lru_size (detachedTailBlocks bc))%nat.
Proof.
  intros [Hc Hd] bc'.
  assert (caches_ok bc' /\
          lru_size (cachedBlocks bc') = lru_size (cachedBlocks bc) /\
          lru_size (detachedTailBlocks bc') = lru_size (detachedTailBlocks bc))
    as (Hok & Hs1 & Hs2).
  { unfold bc', putVerifiedNewBlocks.
    destruct (putAllBlocks_caches allBlocks bc Hc) as [Hc' Hs].
    pose proof (putAllBlocks_detached allBlocks bc) as Hdet.
    destruct (putAllBlocks allBlocks bc) as [bc1 [e|]]; simpl in *.
    - split_and!; [split; [exact Hc'|now rewrite Hdet]|exact Hs|
                    now rewrite Hdet].
    - rewrite Hdet.
      destruct (addTails_ok tailBlocks _ Hd) as [Hd' Hsd].
      split_and!; [split; [exact Hc'|now apply lru_Remove_ok]|
                    exact Hs|exact Hsd]. }
  split_and!; [exact Hok|exact Hs1|exact Hs2|..].
  - rewrite <- Hs1. apply Hok.
  - rewrite <- Hs2. apply Hok.
Qed.

Lemma storeBlockToStorage_Put v s s' :
  storeBlockToStorage v s = (s', None) ->
  exists pb value,
    ToProto v = Ok pb /\ Marshal pb = Ok value /\
    Put s (hash v) value = (s', None).
Proof.
  unfold storeBlockToStorage.
  destruct (ToProto v) as [pb|]; [|discriminate].
  destruct (Marshal pb) as [value|] eqn:EM; [|discriminate].
  intros HP. exists pb, value. now split_and!.
Qed.

Lemma putAllBlocks_frame allBlocks bc :
  tailBlock (putAllBlocks allBlocks bc).1 = tailBlock bc /\
  txPool (putAllBlocks allBlocks bc).1 = txPool bc /\
  genesisBlock (putAllBlocks allBlocks bc).1 = genesisBlock bc /\
  gauges (putAllBlocks allBlocks bc).1 = gauges bc.
Proof.
  revert bc; induction allBlocks as [|v rest IH]; intros bc; simpl;
    [now split_and!|].
  destruct (storeBlockToStorage v _) as [s [e|]]; simpl; [now split_and!|].
  destruct (IH (log (LogAccepted v)
                  (set_storage s
                     (set_cachedBlocks
                        (lru_ContainsOrAdd (Hex (hash v)) v (cachedBlocks bc))
                        bc)))) as (-> & -> & -> & ->).
  now split_and!.
Qed.

Lemma putAllBlocks_other_keys `{!StorageLaws} allBlocks bc bc' k :
  putAllBlocks allBlocks bc = (bc', None) ->
  k ∉ map hash allBlocks ->
  Get (storage bc') k = Get (storage bc) k.
Proof.
  revert bc; induction allBlocks as [|v rest IH]; intros bc; simpl.
  - now intros [= <-].
  - destruct (storeBlockToStorage v _) as [s [e|]] eqn:ES; simpl;
      [discriminate|].
    intros E Hk. apply not_elem_of_cons in Hk as [Hne Hk].
    rewrite (IH _ E Hk). simpl.
    apply storeBlockToStorage_Put in ES as (pb & value & _ & _ & HP).
    eapply Get_Put_ne; eauto.
Qed.

Lemma putAllBlocks_stored `{!StorageLaws} allBlocks bc bc' v :
  putAllBlocks allBlocks bc = (bc', None) ->
  NoDup (map hash allBlocks) -> Forall round_trips allBlocks ->
  v ∈ allBlocks ->
  LoadBlockFromStorage (hash v) (storage bc') = Ok v.
Proof.
  revert bc; induction allBlocks as [|w rest IH]; intros bc; simpl.
  - intros _ _ _ Hin. now apply elem_of_nil in Hin.
  - destruct (storeBlockToStorage w _) as [s [e|]] eqn:ES; simpl;
      [discriminate|].
    intros E Hnd Hrt Hin. apply NoDup_cons in Hnd as [Hw Hnd].
    apply Forall_cons in Hrt as [Hrw Hrt].
    apply elem_of_cons in Hin as [->|Hin]; [|eauto].
    apply storeBlockToStorage_Put in ES as (pb & value & HT & HM & HP).
    unfold LoadBlockFromStorage.
    rewrite (putAllBlocks_other_keys _ _ _ _ E Hw). simpl.
    rewrite (Get_Put_eq _ _ _ _ HP).
    destruct (Hrw pb value HT HM) as (pb' & -> & ->). reflexivity.
Qed.

(** X2: after a batch with distinct hashes is stored without error, every
    block of it that round-trips through the codec is read back from the
    store under its hash, and [GetBlock] finds a block for that hash. *)
Theorem putVerifiedNewBlocks_stores_batch `{!StorageLaws}
  parent allBlocks tailBlocks bc bc' v :
  putVerifiedNewBlocks parent allBlocks tailBlocks bc = (bc', None) ->
  NoDup (map hash allBlocks) -> Forall round_trips allBlocks ->
  v ∈ allBlocks ->
  LoadBlockFromStorage (hash v) (storage bc') = Ok v /\
  is_Some (GetBlock (hash v) bc').2.
Proof.
  unfold putVerifiedNewBlocks.
  destruct (putAllBlocks allBlocks bc) as [bc1 [e|]] eqn:E; [discriminate|].
  intros [= <-] Hnd Hrt Hin.
  pose proof (putAllBlocks_stored _ _ _ _ E Hnd Hrt Hin) as HL.
  split; [exact HL|]. fold (lookupBlock (set_detachedTailBlocks
    (lru_Remove (Hex (hash parent))
       (addTails tailBlocks (detachedTailBlocks bc1))) bc1) (hash v)).
  rewrite lookupBlock_unfold. simpl.
  destruct (lru_Peek (Hex (hash v)) (cachedBlocks bc1)); [eauto|].
  rewrite HL. eauto.
Qed.

(** X3: [putVerifiedNewBlocks] never moves the head, never touches the
    transaction pool, and, when it stores blocks with 32-byte hashes without
    error, leaves the head pointer and the whole height index of the store
    as they were. *)
Theorem putVerifiedNewBlocks_leaves_chain `{!StorageLaws}
  parent allBlocks tailBlocks bc :
  Forall (fun v => length (hash v) = BlockHashLength) allBlocks ->
  let r := putVerifiedNewBlocks parent allBlocks tailBlocks bc in
  tailBlock r.1 = tailBlock bc /\ txPool r.1 = txPool bc /\
  genesisBlock r.1 = genesisBlock bc /\
  (r.2 = None ->
   Get (storage r.1) Tail = Get (storage bc) Tail /\
   forall z, Get (storage r.1) (FromUint64 z)
             = Get (storage bc) (FromUint64 z)).
Proof.
  intros H32. unfold putVerifiedNewBlocks.
  pose proof (putAllBlocks_frame allBlocks bc) as (Ht & Hx & Hg & _).
  assert (forall k, length k <> BlockHashLength -> k ∉ map hash allBlocks)
    as Hkeys.
  { intros k Hk Hin. apply list_elem_of_In, in_map_iff in Hin
      as (v & <- & Hin). rewrite Forall_forall in H32.
    apply Hk, H32. now apply list_elem_of_In. }
  destruct (putAllBlocks allBlocks bc) as [bc1 [e|]] eqn:E; simpl in *.
  - split_and!; [assumption..|discriminate].
  - split_and!; [assumption..|]. intros _. split.
    + apply (putAllBlocks_other_keys _ _ _ _ E), Hkeys.
      now rewrite Tail_length.
    + intros z. apply (putAllBlocks_other_keys _ _ _ _ E), Hkeys.
      now rewrite FromUint64_length.
Qed.

Lemma set_detachedTailBlocks_eta bc :
  set_detachedTailBlocks (detachedTailBlocks bc) bc = bc.
Proof. now destruct bc. Qed.

Lemma DetachedTailBlocks_fold p :
  forall s bc ret,
    lru_items (detachedTailBlocks bc) = s ++ p ->
    NoDup (map fst (s ++ p)) ->
    fold_left
      (fun (acc : BlockChain * list Block) k =>
         let (bc, ret) := acc in
         let (d, v) := lru_Get k (detachedTailBlocks bc) in
         (set_detachedTailBlocks d bc,
          match v with Some block => ret ++ [block] | None => ret end))
      (rev (map fst p)) (bc, ret)
    = (set_detachedTailBlocks
         {| lru_size := lru_size (detachedTailBlocks bc);
            lru_items := p ++ s |} bc,
       ret ++ map snd (rev p)).
Proof.
  induction p as [|[k v] p IH] using rev_ind; intros s bc ret Hi Hnd.
  - simpl. rewrite !app_nil_r in *. rewrite <- Hi.
    f_equal. destruct bc as [? ? ? ? ? ? [? ?] ? ? ?]. reflexivity.
  - assert (k ∉ map fst (s ++ p)) as Hk.
    { rewrite app_assoc, map_app in Hnd. simpl in Hnd.
      apply NoDup_app in Hnd as (_ & Hd & _). intros Hin.
      apply (Hd k Hin). now left. }
    assert (lru_Get k (detachedTailBlocks bc)
            = ({| lru_size := lru_size (detachedTailBlocks bc);
                  lru_items := (k, v) :: s ++ p |}, Some v)) as HG.
    { unfold lru_Get. rewrite Hi, app_assoc.
      rewrite (assoc_app_absent k (s ++ p) [(k, v)] Hk). simpl.
      rewrite bool_decide_eq_true_2 by reflexivity.
      rewrite unassoc_app, (unassoc_absent k (s ++ p) Hk). simpl.
      rewrite bool_decide_eq_true_2 by reflexivity.
      now rewrite app_nil_r. }
    rewrite map_app, !rev_app_distr.
    change (rev (map fst [(k, v)]) ++ rev (map fst p))
      with (k :: rev (map fst p)).
    change (rev [(k, v)] ++ rev p) with ((k, v) :: rev p).
    cbn [fold_left]. rewrite HG.
    rewrite (IH ((k, v) :: s)).
    + simpl. rewrite <- !app_assoc. reflexivity.
    + reflexivity.
    + simpl. apply NoDup_cons. split; [exact Hk|].
      rewrite app_assoc, map_app in Hnd. now apply NoDup_app in Hnd as (? & _).
Qed.

(** X4: when the detached-tails set has one entry per key,
    [DetachedTailBlocks] returns every block of the set, the oldest entry
    first, and leaves the chain, the recency order of the set included,
    exactly as it was. *)
Theorem DetachedTailBlocks_enumerates bc :
  NoDup (map fst (lru_items (detachedTailBlocks bc))) ->
  DetachedTailBlocks bc
  = (bc, map snd (rev (lru_items (detachedTailBlocks bc)))).
Proof.
  intros Hnd. unfold DetachedTailBlocks, lru_Keys.
  rewrite (DetachedTailBlocks_fold (lru_items (detachedTailBlocks bc)) []
             bc [] eq_refl Hnd).
  rewrite app_nil_r. simpl. f_equal.
  destruct bc as [? ? ? ? ? ? [? ?] ? ? ?]. reflexivity.
Qed.

End Ingest.

(** ** More on the head reconciler *)

Section Reorg.
Context `{Sto : Storage} `{Codec : BlockCodec}.
Implicit Types (bc : BlockChain) (bs : list Block).

Lemma climb_stay fuel z cur bc :
  height cur <= z -> climb fuel z cur bc = Some (bc, Some cur).
Proof.
  intros H. destruct fuel; simpl;
    now rewrite (proj2 (Z.ltb_ge z (height cur)) H).
Qed.

Lemma meet_same fuel tl target bc :
  hash tl = hash target -> meet fuel tl target bc = Some (bc, Ok target).
Proof.
  intros H. destruct fuel; simpl; now rewrite (proj2 (Equals_true _ _) H).
Qed.

Lemma revertBlocks_same fuel from to bc :
  hash to = hash from -> revertBlocks fuel from to bc = Some (bc, None).
Proof.
  intros H. unfold revertBlocks.
  destruct fuel; simpl; now rewrite (proj2 (Equals_true _ _) H).
Qed.

Lemma buildIndexByBlockHeight_same fuel from to bc :
  hash to = hash from ->
  buildIndexByBlockHeight fuel from to bc = Some (bc, None).
Proof.
  intros H. destruct fuel; simpl; now rewrite (proj2 (Equals_true _ _) H).
Qed.

(** X5: [SetTailBlock] of the current head, when the head is found under its
    own hash, needs no fuel, reverts nothing, writes no index entry and logs
    nothing: its one write is the head pointer, and its result is the result
    of that write. *)
Theorem SetTailBlock_same_head fuel bc :
  (GetBlock (hash (tailBlock bc)) bc).2 = Some (tailBlock bc) ->
  exists bcF,
    SetTailBlock fuel (tailBlock bc) bc
    = Some (bcF, (storeTailToStorage (tailBlock bc) (storage bc)).2) /\
    storage bcF = (storeTailToStorage (tailBlock bc) (storage bc)).1 /\
    tailBlock bcF = tailBlock bc /\ txPool bcF = txPool bc /\
    vlog bcF = vlog bc.
Proof.
  intros Hin. fold (lookupBlock bc (hash (tailBlock bc))) in Hin.
  set (t := tailBlock bc) in *.
  assert (exists bc1, FindCommonAncestorWithTail fuel t bc = Some (bc1, Ok t)
                      /\ touched bc bc1) as (bc1 & E1 & Ht).
  { unfold FindCommonAncestorWithTail. fold t.
    pose proof (fastCheck_touched t t bc) as Hf.
    destruct (fastCheck t t bc) as [bc0 [|]]; simpl in Hf; [eauto|].
    unfold anchorAndWalk.
    pose proof (GetBlock_touched (hash t) bc0) as Hg.
    rewrite GetBlock_eq, (touched_same_lookups _ _ Hf), Hin.
    rewrite !climb_stay by lia. rewrite meet_same by reflexivity.
    eauto using touched_trans. }
  pose proof (revertBlocks_same fuel t t bc1 eq_refl) as E2.
  rewrite (SetTailBlock_phases fuel t bc bc1 t bc1 None E1 E2).
  unfold reindexAndCommit.
  rewrite buildIndexByBlockHeight_same by reflexivity.
  destruct Ht as (Hs & Htl & Htx & Hlg & _). rewrite Hs.
  destruct (storeTailToStorage t (storage bc)) as [s [e|]]; simpl;
    eexists; (split; [reflexivity|]); simpl; now split_and!.
Qed.

Lemma putAll_app es1 es2 s :
  putAll (es1 ++ es2) s =
  match putAll es1 s with
  | (s1, Some e) => (s1, Some e)
  | (s1, None) => putAll es2 s1
  end.
Proof.
  revert s; induction es1 as [|[k v] es1 IH]; intros s; simpl; [reflexivity|].
  destruct (Put s k v) as [s1 [e|]]; [reflexivity|apply IH].
Qed.

Lemma putAll_single k v s : putAll [(k, v)] s = Put s k v.
Proof. simpl. now destruct (Put s k v) as [s1 [e|]]. Qed.

(** The path from a block up to an ancestor is as long as they are apart. *)
Lemma ancestor_path bc a b :
  well_formed bc -> ancestor bc a b ->
  exists bs,
    walks bc a b bs Reached /\
    Z.of_nat (length bs) = height b - height a /\
    Forall (in_store bc) bs.
Proof.
  intros WF. induction 1 as [b Hb|a p b Hb Hp Hap IH].
  - exists []. split_and!; [now constructor|simpl; lia|constructor].
  - destruct (decide (hash b = hash a)) as [Heq|Hne].
    + assert (b = a) as ->
        by (eapply in_store_inj; eauto using ancestor_in_store_l).
      exists []. split_and!; [now constructor|simpl; lia|constructor].
    + destruct IH as (bs & Hw & Hlen & Hall).
      assert (a <> b) as Hab by congruence.
      assert (ancestor bc a b) as Hanc by (eapply ancestor_step; eauto).
      destruct (ancestor_proper bc WF a b Hanc Hab) as (q & Hq & _ & Hh).
      assert (q = p) as -> by congruence.
      exists (b :: bs). split_and!.
      * eapply walks_step; eauto.
      * simpl length. lia.
      * now constructor.
Qed.

Section WithLaws.
Context `{Laws : !StorageLaws}.

(** On a well-formed store with a canonical index, [SetTailBlock] returns,
    reverts the old branch, and writes the new branch and the head pointer
    until a write fails. *)
Lemma SetTailBlock_total fuel newTail bc g :
  well_formed bc -> canonical_index bc ->
  ancestor bc g (tailBlock bc) -> ancestor bc g newTail ->
  Z.max (height (tailBlock bc)) (height newTail) - height g <= Z.of_nat fuel ->
  exists bcF anc old new,
    SetTailBlock fuel newTail bc
    = Some (bcF, (putAll (commitEntries new newTail) (storage bc)).2) /\
    storage bcF = (putAll (commitEntries new newTail) (storage bc)).1 /\
    ancestor bc anc (tailBlock bc) /\ ancestor bc anc newTail /\
    (forall c, ancestor bc c (tailBlock bc) -> ancestor bc c newTail ->
               ancestor bc c anc) /\
    walks bc anc (tailBlock bc) old Reached /\
    walks bc anc newTail new Reached /\
    Z.of_nat (length old) = height (tailBlock bc) - height anc /\
    Z.of_nat (length new) = height newTail - height anc /\
    txPool bcF = txPool bc ++ concat (map transactions old) /\
    vlog bcF = vlog bc ++ map LogRevertedBlock old ++
               match (putAll (map indexEntry new) (storage bc)).2 with
               | Some _ => [LogBuildIndexFailed anc newTail]
               | None => []
               end /\
    tailBlock bcF =
      match (putAll (commitEntries new newTail) (storage bc)).2 with
      | None => newTail
      | Some _ => tailBlock bc
      end.
Proof.
  intros WF CI Hgt Hgn Hf.
  destruct (FindCommonAncestorWithTail_lca bc g newTail fuel WF CI Hgt Hgn Hf)
    as (bc1 & anc & E1 & Ht1 & Hat & Han & Hall).
  pose proof (ancestor_le bc WF _ _ (Hall g Hgt Hgn)) as Hga.
  destruct (ancestor_path bc anc (tailBlock bc) WF Hat)
    as (old & Hwo & Hlo & _).
  destruct (ancestor_path bc anc newTail WF Han) as (new & Hwn & Hln & Hin).
  destruct (revertBlocks_walks bc anc (tailBlock bc) old Reached fuel bc1 Hwo)
    as (bc2 & E2 & Har); [now apply touched_same_lookups|lia|].
  assert (Forall (fun b => length (parentHash b) = BlockHashLength) new)
    as H32.
  { eapply Forall_impl; [exact Hin|]. apply (wf_parent _ WF). }
  assert (same_lookups bc bc2) as Hl2.
  { eapply same_lookups_trans;
      [apply touched_same_lookups; exact Ht1|].
    apply (after_revert_same_lookups old). exact Har. }
  destruct (buildIndexByBlockHeight_walks bc anc newTail new Reached Hwn H32
              fuel bc2 (same_lookups_blocks _ _ Hl2) ltac:(lia))
    as (bc3 & E3 & Hs3 & Hai & _).
  destruct Ht1 as (Hs1 & Htl1 & Htx1 & Hvl1 & _).
  destruct Har as (Hs2 & Htl2 & _ & Htx2 & Hvl2 & _).
  destruct Hai as (Htl3 & Htx3 & Hvl3 & _).
  rewrite Hs2, Hs1 in E3, Hs3.
  assert (putAll (commitEntries new newTail) (storage bc)
          = match putAll (map indexEntry new) (storage bc) with
            | (s1, Some e) => (s1, Some e)
            | (s1, None) => Put s1 Tail (hash newTail)
            end) as Hpa.
  { unfold commitEntries. rewrite putAll_app.
    destruct (putAll (map indexEntry new) (storage bc)) as [s1 [e|]];
      [reflexivity|apply putAll_single]. }
  pose proof (SetTailBlock_phases fuel newTail bc bc1 anc bc2 None E1 E2)
    as ES.
  unfold reindexAndCommit in ES. rewrite E3 in ES.
  destruct (putAll (map indexEntry new) (storage bc)) as [s3 [e3|]] eqn:Epa;
    simpl in *.
  - eexists _, anc, old, new. rewrite Hpa, ES, Epa. simpl.
    split_and!; [reflexivity|exact Hs3|assumption..| | |]; simpl;
      rewrite ?Htx3, ?Htx2, ?Htx1, ?Htl3, ?Htl2, ?Htl1,
        ?Hvl3, ?Hvl2, ?Hvl1, <- ?app_assoc, ?app_nil_r; reflexivity.
  - rewrite Hs3 in ES. unfold storeTailToStorage in ES.
    destruct (Put s3 Tail (hash newTail)) as [s4 [e4|]];
      eexists _, anc, old, new; rewrite Hpa, ES, Epa; simpl;
      (split_and!; [reflexivity|reflexivity|assumption..| | |]); simpl;
      rewrite ?Htx3, ?Htx2, ?Htx1, ?Htl3, ?Htl2, ?Htl1,
        ?Hvl3, ?Hvl2, ?Hvl1, <- ?app_assoc, ?app_nil_r; reflexivity.
Qed.

(** X7: on a well-formed store whose height index is canonical for the head,
    and with the new head reaching back to a block the old head reaches,
    [SetTailBlock] returns once the fuel covers the two branches.  The
    block it reverts to is the lowest common ancestor of the two heads:
    every common ancestor is an ancestor of it.  It returns the
    transactions of exactly the blocks of the old branch above that
    ancestor, as many as the head is higher than it, and logs each of them;
    it writes the index entries of exactly the blocks of the new branch
    above that ancestor and then the head pointer.  It fails only when one
    of these writes fails, and then with that error and the head unchanged;
    a failed index write is logged. *)
Theorem SetTailBlock_reorganises fuel newTail bc g :
  well_formed bc -> canonical_index bc ->
  ancestor bc g (tailBlock bc) -> ancestor bc g newTail ->
  Z.max (height (tailBlock bc)) (height newTail) - height g <= Z.of_nat fuel ->
  exists bcF anc old new,
    SetTailBlock fuel newTail bc
    = Some (bcF, (putAll (commitEntries new newTail) (storage bc)).2) /\
    storage bcF = (putAll (commitEntries new newTail) (storage bc)).1 /\
    ancestor bc anc (tailBlock bc) /\ ancestor bc anc newTail /\
    (forall c, ancestor bc c (tailBlock bc) -> ancestor bc c newTail ->
               ancestor bc c anc) /\
    walks bc anc (tailBlock bc) old Reached /\
    walks bc anc newTail new Reached /\
    Z.of_nat (length old) = height (tailBlock bc) - height anc /\
    Z.of_nat (length new) = height newTail - height anc /\
    txPool bcF = txPool bc ++ concat (map transactions old) /\
    vlog bcF = vlog bc ++ map LogRevertedBlock old ++
               match (putAll (map indexEntry new) (storage bc)).2 with
               | Some _ => [LogBuildIndexFailed anc newTail]
               | None => []
               end /\
    tailBlock bcF =
      match (putAll (commitEntries new newTail) (storage bc)).2 with
      | None => newTail
      | Some _ => tailBlock bc
      end.
Proof.
  apply SetTailBlock_total.
Qed.

(** X6: a fast-forward.  When the new head is a descendant of the current
    head, [SetTailBlock] reverts nothing: the transaction pool stays as it
    is, the writes are the index entries of the blocks above the old head and
    the head pointer, and on success the new head is the head. *)
Theorem SetTailBlock_fast_forward fuel newTail bc :
  well_formed bc -> canonical_index bc ->
  ancestor bc (tailBlock bc) newTail ->
  height newTail - height (tailBlock bc) <= Z.of_nat fuel ->
  exists bcF new,
    walks bc (tailBlock bc) newTail new Reached /\
    Z.of_nat (length new) = height newTail - height (tailBlock bc) /\
    SetTailBlock fuel newTail bc
    = Some (bcF, (putAll (commitEntries new newTail) (storage bc)).2) /\
    storage bcF = (putAll (commitEntries new newTail) (storage bc)).1 /\
    txPool bcF = txPool bc /\
    ((putAll (commitEntries new newTail) (storage bc)).2 = None ->
     tailBlock bcF = newTail).
Proof.
  intros WF CI Htn Hf.
  pose proof (ancestor_in_store_l bc _ _ Htn) as Hin.
  pose proof (ancestor_le bc WF _ _ Htn) as Hle.
  destruct (SetTailBlock_total fuel newTail bc (tailBlock bc) WF CI
              (ancestor_refl bc _ Hin) Htn ltac:(lia))
    as (bcF & anc & old & new & E & Hs & Hat & Han & Hall & Hwo & Hwn
        & Hlo & Hln & Htx & _ & Htl).
  assert (anc = tailBlock bc) as ->.
  { apply (ancestor_height bc WF _ _ Hat).
    pose proof (ancestor_le bc WF _ _ Hat).
    pose proof (ancestor_le bc WF _ _ (Hall _ (ancestor_refl bc _ Hin) Htn)).
    lia. }
  assert (old = []) as -> by (destruct old; [reflexivity|simpl in Hlo; lia]).
  simpl in Htx. rewrite app_nil_r in Htx.
  exists bcF, new. split_and!; [assumption..|].
  intros Hnone. now rewrite Hnone in Htl.
Qed.

End WithLaws.

End Reorg.

(** ** Reading the canonical chain *)

Section Canonical.
Context `{Sto : Storage} `{Codec : BlockCodec}.
Implicit Types (bc : BlockChain) (bs : list Block).

(** X11: on a well-formed store with a canonical index, [GetBlockByHeight]
    answers, for every height between a block [g] the head reaches and the
    head, with the block of the head's chain at that height; and above [g]
    the parent hash of that block is the hash of the block returned for the
    height below. *)
Theorem GetBlockByHeight_canonical_path bc g z :
  well_formed bc -> canonical_index bc ->
  ancestor bc g (tailBlock bc) ->
  height g <= z <= height (tailBlock bc) ->
  exists x,
    (GetBlockByHeight z bc).2 = Some x /\ height x = z /\
    ancestor bc x (tailBlock bc) /\
    (height g < z ->
     exists p, (GetBlockByHeight (z - 1) bc).2 = Some p /\
               parentHash x = hash p /\ height p = z - 1).
Proof.
  intros WF CI Hgt Hz.
  destruct (ancestor_at_height bc WF g _ z Hgt Hz) as (x & Hxt & Hgx & Hh).
  exists x. fold (lookupHeight bc z). rewrite <- Hh.
  split_and!; [now apply lookupHeight_canonical|reflexivity|assumption|].
  intros Hlt.
  destruct (ancestor_proper bc WF g x Hgx) as (p & Hp & Hgp & Hhp);
    [intros ->; lia|].
  pose proof (ancestor_in_store_l bc _ _ Hxt) as Hx.
  assert (ancestor bc p (tailBlock bc)) as Hpt.
  { eapply ancestor_trans; [|exact Hxt].
    eapply ancestor_step; [exact Hx|exact Hp|].
    constructor. eapply parent_in_store; eauto. }
  exists p. fold (lookupHeight bc (height x - 1)).
  replace (height x - 1) with (height p) by lia.
  split_and!; [now apply lookupHeight_canonical| |reflexivity].
  symmetry. apply (wf_hash _ WF _ _ (wf_parent _ WF _ Hx) Hp).
Qed.

(** X12: on a well-formed store with a canonical index,
    [FetchDescendantInCanonicalChain n block] for a block of the head's chain
    and [n >= 0] never fails: it returns the blocks of the head's chain at
    the heights [block.height + 1 .. min (tail.height, block.height + n)],
    each a descendant of [block] and an ancestor of the head. *)
Theorem FetchDescendantInCanonicalChain_canonical fuel n block bc :
  well_formed bc -> canonical_index bc ->
  ancestor bc block (tailBlock bc) ->
  0 <= n < 2 ^ 63 ->
  height (tailBlock bc) < uint64_max ->
  n <= Z.of_nat fuel ->
  exists bc' blocks,
    FetchDescendantInCanonicalChain fuel n block bc = Some (bc', Ok blocks) /\
    map height blocks = descendant_heights n block bc /\
    Forall (fun x => ancestor bc block x /\ ancestor bc x (tailBlock bc))
      blocks.
Proof.
  intros WF CI Hbt Hn Ht Hf.
  pose proof (ancestor_le bc WF _ _ Hbt) as Hle.
  pose proof (wf_range _ WF _ (ancestor_in_store_l bc _ _ Hbt)) as Hr.
  destruct (mapM_heights bc
              (fun z x => height x = z /\ ancestor bc block x /\
                          ancestor bc x (tailBlock bc))
              (descendant_heights n block bc)) as (blocks & Hm & HF).
  { intros z Hz. unfold descendant_heights in Hz.
    apply elem_of_seqZ in Hz.
    destruct (ancestor_at_height bc WF block _ z Hbt) as (x & Hxt & Hbx & Hh);
      [lia|].
    exists x. rewrite <- Hh.
    split; [now apply lookupHeight_canonical|now split_and!]. }
  unfold FetchDescendantInCanonicalChain.
  assert (add64 (height block) 1 = height block + 1) as ->
    by (unfold uint64_max in *; apply Z.mod_small; lia).
  destruct (fetchLoop_spec bc (height block + 1) (height (tailBlock bc)) n
              Hn ltac:(lia) Ht fuel 0 [] bc (touched_refl bc))
    as (bc' & E); [lia|lia|].
  rewrite Z.add_0_r, Z.sub_0_r in E.
  replace (Z.min (height (tailBlock bc) - (height block + 1) + 1) n)
    with (Z.min (height (tailBlock bc)) (height block + n) - height block)
    in E by lia.
  fold (descendant_heights n block bc) in E. rewrite Hm in E. simpl in E.
  exists bc', blocks. split_and!; [exact E| |].
  - clear -HF. induction HF as [|z x hs bs (Hh & _) _ IH]; simpl;
      [reflexivity|]. now rewrite Hh, IH.
  - clear -HF. induction HF as [|z x hs bs (_ & H1 & H2) _ IH];
      constructor; auto.
Qed.

End Canonical.

(** ** Restart and first start *)

Section Restart.
Context `{Sto : Storage} `{Codec : BlockCodec} `{Laws : !StorageLaws}.
Implicit Types (bc : BlockChain) (s : store).

Lemma buildIndexByBlockHeight_other_keys fuel from to bc bc' k :
  buildIndexByBlockHeight fuel from to bc = Some (bc', None) ->
  length k <> 8%nat ->
  Get (storage bc') k = Get (storage bc) k.
Proof.
  intros E Hk. revert to bc E; induction fuel as [|fuel IH]; intros to bc;
    simpl; destruct (Equals (hash to) (hash from)); try discriminate;
    try (now intros [= <-]).
  destruct (Put (storage bc) _ _) as [s [e|]] eqn:EP; [discriminate|].
  pose proof (GetBlock_touched (parentHash to) (set_storage s bc))
    as (Hs & _).
  destruct (GetBlock (parentHash to) (set_storage s bc)) as [bc1 [q|]];
    [|discriminate].
  intros E. rewrite (IH _ _ E). simpl in Hs. rewrite Hs.
  apply (Get_Put_ne _ _ _ _ k EP). intros ->.
  now rewrite FromUint64_length in Hk.
Qed.

(** What a successful [SetTailBlock] leaves in the store: the head pointer
    names the new head, and no block record has changed. *)
Lemma SetTailBlock_success_store fuel newTail bc bcF :
  SetTailBlock fuel newTail bc = Some (bcF, None) ->
  Get (storage bcF) Tail = Ok (hash newTail) /\
  forall k, length k = BlockHashLength ->
            Get (storage bcF) k = Get (storage bc) k.
Proof.
  intros ES.
  destruct (FindCommonAncestorWithTail fuel newTail bc)
    as [[bc1 [anc|e]]|] eqn:E1;
    [|unfold SetTailBlock in ES; rewrite E1 in ES; discriminate..].
  destruct (revertBlocks fuel anc (tailBlock bc) bc1) as [[bc2 r]|] eqn:E2;
    [|unfold SetTailBlock in ES; rewrite E1, E2 in ES; discriminate].
  rewrite (SetTailBlock_phases _ _ _ _ _ _ _ E1 E2) in ES.
  pose proof (FindCommonAncestorWithTail_touched _ _ _ _ _ E1) as (Hs1 & _).
  pose proof (revertBlocks_frame _ _ _ _ _ _ E2) as (Hs2 & _).
  set (bcR := match r with Some _ => _ | None => bc2 end) in *.
  assert (storage bcR = storage bc) as HsR
    by (unfold bcR; destruct r; simpl; congruence).
  unfold reindexAndCommit in ES.
  destruct (buildIndexByBlockHeight fuel anc newTail bcR)
    as [[bc3 [e|]]|] eqn:E3; [discriminate| |discriminate].
  unfold storeTailToStorage in ES.
  destruct (Put (storage bc3) Tail (hash newTail)) as [s4 [e|]] eqn:E4;
    [discriminate|].
  injection ES as <-. simpl. split; [eapply Get_Put_eq; eauto|].
  intros k Hk. rewrite (Get_Put_ne _ _ _ _ k E4).
  - rewrite (buildIndexByBlockHeight_other_keys _ _ _ _ _ k E3), HsR;
      [reflexivity|]. rewrite Hk. discriminate.
  - intros ->. now rewrite Tail_length in Hk.
Qed.

Section WithCollaborators.
Context `{Col : !Collaborators}.

(** X8: the head survives a restart.  After a successful [SetTailBlock] of
    a block whose record is in the store under its 32-byte hash,
    [loadTailFromStorage] on the resulting store returns that block and
    writes nothing. *)
Theorem loadTailFromStorage_after_SetTailBlock fuel newTail bc bcF conf :
  SetTailBlock fuel newTail bc = Some (bcF, None) ->
  length (hash newTail) = BlockHashLength ->
  LoadBlockFromStorage (hash newTail) (storage bc) = Ok newTail ->
  loadTailFromStorage conf (storage bcF) = (storage bcF, Ok newTail).
Proof.
  intros ES Hlen HL.
  destruct (SetTailBlock_success_store _ _ _ _ ES) as [HT Hk].
  unfold loadTailFromStorage. rewrite HT. f_equal.
  unfold LoadBlockFromStorage in *. now rewrite (Hk _ Hlen).
Qed.

(** X9: a restart on a store that holds a genesis block of the configured
    chain id and a head pointer to a stored block writes nothing: the store
    is returned as it was, and the chain starts at the persisted head, with
    empty caches of sizes 1024 and 64, an empty transaction pool and an
    empty log. *)
Theorem NewBlockChain_restart conf s g gb gc h tb :
  NewBlockPool 1024 = None ->
  NewTransactionPool 65536 = None ->
  LoadBlockFromStorage GenesisHash s = Ok gb ->
  blockChainID gb = Meta_ChainId conf ->
  DumpGenesis s = Ok gc ->
  Get s Tail = Ok h ->
  LoadBlockFromStorage h s = Ok tb ->
  NewBlockChain conf s g
  = (s, Ok {| chainID := Meta_ChainId conf; genesis := conf;
              genesisBlock := gb; tailBlock := tb; txPool := [];
              cachedBlocks := lru_New 1024;
              detachedTailBlocks := lru_New 64;
              storage := s; gauges := g; vlog := [] |}).
Proof.
  intros HB HT HG Hid HD Ht Htb.
  unfold NewBlockChain, loadGenesisFromStorage, loadTailFromStorage.
  rewrite HB, HT, HG.
  rewrite bool_decide_eq_false_2 by (intros Hne; now apply Hne).
  now rewrite HD, Ht, Htb.
Qed.

(** X10: the first start.  On a store without a genesis record and without
    a head pointer, [NewBlockChain] stores the new genesis block under its
    hash, writes the height-index entry of its height and the head pointer,
    and returns a chain whose genesis and head are that block;
    [GetBlockByHeight] finds it at its height and there are no detached
    tails.  The genesis block must carry [GenesisHash] and the configured
    chain id, because [loadTailFromStorage] loads it again from the store. *)
Theorem NewBlockChain_first_start conf s g e s1 gb s2 s3 s4 gc :
  NewBlockPool 1024 = None ->
  NewTransactionPool 65536 = None ->
  LoadBlockFromStorage GenesisHash s = Err e ->
  NewGenesisBlock conf s = (s1, Ok gb) ->
  hash gb = GenesisHash ->
  length GenesisHash = BlockHashLength ->
  blockChainID gb = Meta_ChainId conf ->
  round_trips gb ->
  Get s1 Tail = Err ErrKeyNotFound ->
  storeBlockToStorage gb s1 = (s2, None) ->
  Put s2 (FromUint64 (height gb)) (hash gb) = (s3, None) ->
  DumpGenesis s3 = Ok gc ->
  Put s3 Tail (hash gb) = (s4, None) ->
  exists bc,
    NewBlockChain conf s g = (s4, Ok bc) /\
    genesisBlock bc = gb /\ tailBlock bc = gb /\ storage bc = s4 /\
    Get s4 Tail = Ok (hash gb) /\
    (GetBlockByHeight (height gb) bc).2 = Some gb /\
    DetachedTailBlocks bc = (bc, []).
Proof.
  intros HB HT HL HN Hh Hlen Hid Hrt Htail HS HP3 HD HP4.
  pose proof HS as HS'.
  unfold storeBlockToStorage in HS'.
  destruct (ToProto gb) as [pb|] eqn:Epb; [|discriminate].
  destruct (Marshal pb) as [value|] eqn:Ev; [|discriminate].
  destruct (Hrt pb value Epb Ev) as (pb' & Hu & Hf).
  assert (FromUint64 (height gb) <> hash gb) as Hk1.
  { intros Heq. apply (f_equal length) in Heq.
    rewrite FromUint64_length, Hh, Hlen in Heq. discriminate. }
  assert (Tail <> hash gb) as Hk2.
  { intros Heq. apply (f_equal length) in Heq.
    rewrite Tail_length, Hh, Hlen in Heq. discriminate. }
  assert (Tail <> FromUint64 (height gb)) as Hk3.
  { intros Heq. apply (f_equal length) in Heq.
    rewrite Tail_length, FromUint64_length in Heq. discriminate. }
  assert (Get s3 (hash gb) = Ok value) as Hg3.
  { rewrite (Get_Put_ne _ _ _ _ (hash gb) HP3) by congruence.
    eapply Get_Put_eq; eauto. }
  assert (LoadBlockFromStorage GenesisHash s3 = Ok gb) as HL3.
  { unfold LoadBlockFromStorage. now rewrite <- Hh, Hg3, Hu. }
  assert (Get s3 Tail = Err ErrKeyNotFound) as Ht3.
  { rewrite (Get_Put_ne _ _ _ _ Tail HP3) by congruence.
    rewrite (Get_Put_ne _ _ _ _ Tail HS') by congruence. exact Htail. }
  assert (loadGenesisFromStorage conf s = (s3, Ok gb)) as HG1.
  { unfold loadGenesisFromStorage. now rewrite HL, HN, HS, HP3. }
  assert (loadTailFromStorage conf s3 = (s4, Ok gb)) as HT3.
  { unfold loadTailFromStorage, loadGenesisFromStorage.
    rewrite Ht3, HL3.
    rewrite bool_decide_eq_false_2 by (intros Hne; now apply Hne).
    unfold storeTailToStorage. now rewrite HP4. }
  eexists. split; [unfold NewBlockChain; now rewrite HB, HT, HG1, HD, HT3|].
  simpl. split_and!; try reflexivity.
  - eapply Get_Put_eq; eauto.
  - unfold GetBlockByHeight. simpl.
    rewrite (Get_Put_ne _ _ _ _ _ HP4) by congruence.
    rewrite (Get_Put_eq _ _ _ _ HP3).
    unfold GetBlock. simpl. unfold LoadBlockFromStorage.
    rewrite (Get_Put_ne _ _ _ _ _ HP4) by congruence.
    now rewrite Hg3, Hu, Hf.
Qed.

End WithCollaborators.

End Restart.

(** ** The gas price *)

Section GasPriceFacts.
Context `{Sto : Storage} `{Codec : BlockCodec}.
Variable CheckGenesisBlock : Block -> bool.
Variables TransactionMaxGasPrice TransactionGasPrice : Z.
Implicit Types (bc : BlockChain) (b : Block).

Lemma lowestGasPrice_spec txs g0 :
  lowestGasPrice txs g0 <= g0 /\
  Forall (fun tx => lowestGasPrice txs g0 <= gasPrice tx) txs /\
  (lowestGasPrice txs g0 = g0 \/
   exists tx, tx ∈ txs /\ lowestGasPrice txs g0 = gasPrice tx).
Proof.
  unfold lowestGasPrice.
  revert g0; induction txs as [|tx txs IH]; intros g0; simpl.
  - split_and!; [lia|constructor|now left].
  - destruct (IH (if gasPrice tx <? g0 then gasPrice tx else g0))
      as (Hle & Hall & Hor).
    destruct (Z.ltb_spec (gasPrice tx) g0) as [Hlt|Hge].
    + split_and!; [lia|constructor; [lia|assumption]|].
      right. destruct Hor as [->|(tx' & Hin & ->)].
      * exists tx. split; [left|reflexivity].
      * exists tx'. split; [now right|reflexivity].
    + split_and!; [lia|constructor; [lia|assumption]|].
      destruct Hor as [->|(tx' & Hin & ->)]; [now left|].
      right. exists tx'. split; [now right|reflexivity].
Qed.

Lemma has_transactions b :
  (0 <? length (transactions b))%nat = true <-> transactions b <> [].
Proof.
  destruct (transactions b); simpl; split; intros H;
    first [discriminate | reflexivity | now contradiction H].
Qed.

Lemma gasPriceBlock_stop bc0 fuel cur bc bc' b :
  CheckGenesisBlock cur = true \/ transactions cur <> [] ->
  Some (bc, Returned cur) = Some (bc', Returned b) ->
  touched bc bc' /\
  exists pre rest,
    chain_of (S fuel) bc0 cur = pre ++ b :: rest /\
    Forall (fun x => CheckGenesisBlock x = false /\ transactions x = []) pre /\
    (CheckGenesisBlock b = true \/ transactions b <> []).
Proof.
  intros Hstop [= <- <-]. split; [apply touched_refl|].
  exists [], (tl (chain_of (S fuel) bc0 cur)).
  split_and!; [reflexivity|constructor|assumption].
Qed.

Lemma gasPriceBlock_spec bc0 fuel cur bc bc' b :
  same_lookups bc0 bc ->
  gasPriceBlock CheckGenesisBlock fuel cur bc = Some (bc', Returned b) ->
  touched bc bc' /\
  exists pre rest,
    chain_of (S fuel) bc0 cur = pre ++ b :: rest /\
    Forall (fun x => CheckGenesisBlock x = false /\ transactions x = []) pre /\
    (CheckGenesisBlock b = true \/ transactions b <> []).
Proof.
  revert cur bc; induction fuel as [|fuel IH]; intros cur bc Same;
    cbn [gasPriceBlock];
    (destruct (CheckGenesisBlock cur) eqn:EG;
     [apply gasPriceBlock_stop; now left|]);
    (destruct (0 <? length (transactions cur))%nat eqn:ET;
     [apply gasPriceBlock_stop; right; now apply has_transactions|]);
    [discriminate|].
  pose proof (GetBlock_touched (parentHash cur) bc) as Ht.
  pose proof (Same (parentHash cur)) as Hl.
  change (lookupBlock bc (parentHash cur))
    with (GetBlock (parentHash cur) bc).2 in Hl.
  destruct (GetBlock (parentHash cur) bc) as [bc1 [q|]]; [|discriminate].
  simpl in Ht, Hl. symmetry in Hl. intros E.
  destruct (IH q bc1) as (Ht' & pre & rest & Hc & Hpre & Hb);
    [|exact E|].
  { eapply same_lookups_trans; [exact Same|].
    now apply touched_same_lookups. }
  split; [eapply touched_trans; eauto|].
  exists (cur :: pre), rest. split_and!; [|constructor|]; try assumption.
  - change (chain_of (S (S fuel)) bc0 cur)
      with (cur :: match lookupBlock bc0 (parentHash cur) with
                   | Some p => chain_of (S fuel) bc0 p
                   | None => []
                   end).
    now rewrite Hl, Hc.
  - split; [assumption|].
    destruct (transactions cur); [reflexivity|discriminate].
Qed.

(** X13: what [GasPrice] returns.  The block it takes the price from is the
    first one, walking up from the head, that is the genesis block or has
    transactions.  If that block has transactions, the price is at most
    [TransactionMaxGasPrice] and at most the price of each of them, and it
    is the maximum or the price of one of them; otherwise it is
    [TransactionGasPrice].  The chain is only read. *)
Theorem GasPrice_returns fuel bc bc' p :
  GasPrice CheckGenesisBlock TransactionMaxGasPrice TransactionGasPrice
    fuel bc = Some (bc', Returned p) ->
  touched bc bc' /\
  exists pre b rest,
    chain_of (S fuel) bc (tailBlock bc) = pre ++ b :: rest /\
    Forall (fun x => CheckGenesisBlock x = false /\ transactions x = []) pre /\
    ((transactions b <> [] /\
      p <= TransactionMaxGasPrice /\
      Forall (fun tx => p <= gasPrice tx) (transactions b) /\
      (p = TransactionMaxGasPrice \/
       exists tx, tx ∈ transactions b /\ p = gasPrice tx)) \/
     (transactions b = [] /\ CheckGenesisBlock b = true /\
      p = TransactionGasPrice)).
Proof.
  unfold GasPrice.
  destruct (gasPriceBlock CheckGenesisBlock fuel (tailBlock bc) bc)
    as [[bc1 [b|]]|] eqn:E; [|discriminate..].
  destruct (gasPriceBlock_spec bc _ _ _ _ _ (same_lookups_refl bc) E)
    as (Ht & pre & rest & Hc & Hpre & Hb).
  destruct (0 <? length (transactions b))%nat eqn:ET;
    intros [= <- <-]; (split; [assumption|]);
    exists pre, b, rest; (split_and!; [assumption..|]).
  - left. split; [now apply has_transactions|].
    apply lowestGasPrice_spec.
  - right. destruct (transactions b) eqn:Etx; [|discriminate].
    split_and!; try reflexivity. destruct Hb as [Hb|Hb]; congruence.
Qed.

Lemma gasPriceBlock_total bc0 g fuel cur bc :
  well_formed bc0 -> same_lookups bc0 bc ->
  ancestor bc0 g cur -> CheckGenesisBlock g = true ->
  height cur - height g <= Z.of_nat fuel ->
  exists bc' b,
    gasPriceBlock CheckGenesisBlock fuel cur bc = Some (bc', Returned b).
Proof.
  intros WF. revert cur bc; induction fuel as [|fuel IH];
    intros cur bc Same Hanc Hg Hfuel; cbn [gasPriceBlock];
    destruct (CheckGenesisBlock cur) eqn:EG; eauto;
    destruct (0 <? length (transactions cur))%nat; eauto;
    (assert (g <> cur) as Hne by congruence);
    destruct (ancestor_proper bc0 WF _ _ Hanc Hne) as (q & Hq & Hgq & Hh);
    pose proof (ancestor_le bc0 WF _ _ Hgq) as Hle; [lia|].
  pose proof (GetBlock_touched (parentHash cur) bc) as Ht.
  pose proof (Same (parentHash cur)) as Hl.
  change (lookupBlock bc (parentHash cur))
    with (GetBlock (parentHash cur) bc).2 in Hl.
  rewrite Hq in Hl.
  destruct (GetBlock (parentHash cur) bc) as [bc1 q']. simpl in Ht, Hl.
  subst q'. apply IH; [|assumption..|lia].
  eapply same_lookups_trans; [exact Same|].
  now apply touched_same_lookups.
Qed.

(** X14: [GasPrice] returns.  On a well-formed chain whose head descends
    from a block that [CheckGenesisBlock] accepts, the walk reaches that
    block or an earlier stop within as many steps as the two heights
    differ: it dereferences no [nil] parent and yields a price. *)
Theorem GasPrice_total fuel bc g :
  well_formed bc ->
  ancestor bc g (tailBlock bc) -> CheckGenesisBlock g = true ->
  height (tailBlock bc) - height g <= Z.of_nat fuel ->
  exists bc' p,
    GasPrice CheckGenesisBlock TransactionMaxGasPrice TransactionGasPrice
      fuel bc = Some (bc', Returned p).
Proof.
  intros WF Hanc Hg Hfuel. unfold GasPrice.
  destruct (gasPriceBlock_total bc g fuel (tailBlock bc) bc WF
              (same_lookups_refl bc) Hanc Hg Hfuel) as (bc' & b & ->).
  destruct (0 <? length (transactions b))%nat; eauto.
Qed.

Lemma gasPriceBlock_nil bc0 fuel cur bc :
  same_lookups bc0 bc ->
  chain_closed fuel bc0 cur = true ->
  Forall (fun x => CheckGenesisBlock x = false /\ transactions x = [])
    (chain_of fuel bc0 cur) ->
  exists bc',
    gasPriceBlock CheckGenesisBlock fuel cur bc = Some (bc', NilDereference).
Proof.
  revert cur bc; induction fuel as [|fuel IH]; intros cur bc Same;
    [discriminate|].
  cbn [chain_closed chain_of gasPriceBlock]. intros Hc Hall.
  apply Forall_cons in Hall as [[HG HT] Hall]. rewrite HG, HT. simpl.
  pose proof (GetBlock_touched (parentHash cur) bc) as Ht.
  pose proof (Same (parentHash cur)) as Hl.
  change (lookupBlock bc (parentHash cur))
    with (GetBlock (parentHash cur) bc).2 in Hl.
  destruct (GetBlock (parentHash cur) bc) as [bc1 q]. simpl in Ht, Hl.
  subst q. destruct (lookupBlock bc0 (parentHash cur)) as [q|]; [|eauto].
  apply IH; [|assumption..].
  eapply same_lookups_trans; [exact Same|].
  now apply touched_same_lookups.
Qed.

(** X15: when [GasPrice] fails.  If the walk up from the head ends on a
    parent that [GetBlock] cannot return, and no block on the way is the
    genesis block or has transactions, the loop goes on with a [nil] block
    and dereferences it. *)
Theorem GasPrice_nil_parent fuel bc :
  chain_closed fuel bc (tailBlock bc) = true ->
  Forall (fun x => CheckGenesisBlock x = false /\ transactions x = [])
    (chain_of fuel bc (tailBlock bc)) ->
  exists bc',
    GasPrice CheckGenesisBlock TransactionMaxGasPrice TransactionGasPrice
      fuel bc = Some (bc', NilDereference).
Proof.
  intros Hc Hall. unfold GasPrice.
  destruct (gasPriceBlock_nil bc fuel (tailBlock bc) bc
              (same_lookups_refl bc) Hc Hall) as (bc' & ->).
  eauto.
Qed.

End GasPriceFacts.
(** ** The sample chain, continued *)

Module SampleMoreFacts.
Import Sample SampleFacts SampleMore.

Lemma st_full_caches : caches_ok st_full.
Proof. unfold caches_ok, lru_ok. split_and!; by_compute. Qed.

Lemma wire_round_trips b :
  block_of_wire (wire_of_block b) = Some b -> round_trips b.
Proof.
  intros H pb value [= <-] [= <-]. exists (wire_of_block b).
  split; [reflexivity|]. simpl. now rewrite H.
Qed.

Lemma st_put_well_formed : well_formed st_put.
Proof. apply wf_check_sound. vm_compute. reflexivity. Qed.

Lemma st_put_canonical : canonical_index st_put.
Proof. apply (canonical_check_sound 8). vm_compute. reflexivity. Qed.

Lemma st_put_G_B2 : ancestor st_put (tailBlock st_put) B2.
Proof. apply (chain_of_ancestor 8); [vm_compute; reflexivity|by_compute]. Qed.

Lemma st_fork_well_formed : well_formed st_fork.
Proof. apply wf_check_sound. vm_compute. reflexivity. Qed.

Lemma st_fork_G_C2 : ancestor st_fork G (tailBlock st_fork).
Proof. apply (chain_of_ancestor 8); [vm_compute; reflexivity|by_compute]. Qed.

(** *** Ingest (X1 - X4) *)

(** X1 at work on a full detached-tails set: one more tail goes in, the
    oldest goes out. *)
Lemma putVerifiedNewBlocks_keeps_caches_witness :
  let bc' := (putVerifiedNewBlocks G [B1] [B1] st_full).1 in
  caches_ok bc' /\
  lru_size (cachedBlocks bc') = lru_size (cachedBlocks st_full) /\
  lru_size (detachedTailBlocks bc') = lru_size (detachedTailBlocks st_full) /\
  (length (lru_items (cachedBlocks bc'))
   <= lru_size (cachedBlocks st_full))%nat /\
  (length (lru_items (detachedTailBlocks bc'))
   <= lru_size (detachedTailBlocks st_full))%nat.
Proof.
  exact (putVerifiedNewBlocks_keeps_caches G [B1] [B1] st_full
           st_full_caches).
Defined.

(** X2 at work: the fork block [C1] of the batch of scenario 2. *)
Lemma putVerifiedNewBlocks_stores_batch_witness :
  LoadBlockFromStorage (hash C1) (storage st_put) = Ok C1 /\
  is_Some (GetBlock (hash C1) st_put).2.
Proof.
  apply (putVerifiedNewBlocks_stores_batch G [B1; B2; C1; C2] [B2; C2]
           booted st_put C1).
  - unfold st_put. apply surjective_pairing_snd. vm_compute. reflexivity.
  - by_compute.
  - repeat constructor; apply wire_round_trips; vm_compute; reflexivity.
  - by_compute.
Defined.

(** X3 at work on the same batch. *)
Lemma putVerifiedNewBlocks_leaves_chain_witness :
  let r := putVerifiedNewBlocks G [B1; B2; C1; C2] [B2; C2] booted in
  tailBlock r.1 = tailBlock booted /\ txPool r.1 = txPool booted /\
  genesisBlock r.1 = genesisBlock booted /\
  (r.2 = None ->
   Get (storage r.1) Tail = Get (storage booted) Tail /\
   forall z, Get (storage r.1) (FromUint64 z)
             = Get (storage booted) (FromUint64 z)).
Proof.
  apply (putVerifiedNewBlocks_leaves_chain G [B1; B2; C1; C2] [B2; C2]
           booted).
  repeat constructor.
Defined.

(** X4 at work: the two tips of [st_linear]. *)
Lemma DetachedTailBlocks_enumerates_witness :
  DetachedTailBlocks st_linear
  = (st_linear, map snd (rev (lru_items (detachedTailBlocks st_linear)))).
Proof.
  apply DetachedTailBlocks_enumerates. by_compute.
Defined.

(** *** Head changes (X5 - X7) *)

Lemma SetTailBlock_same_head_witness :
  exists bcF,
    SetTailBlock 8 (tailBlock st_linear) st_linear
    = Some (bcF, (storeTailToStorage (tailBlock st_linear)
                    (storage st_linear)).2) /\
    storage bcF = (storeTailToStorage (tailBlock st_linear)
                     (storage st_linear)).1 /\
    tailBlock bcF = tailBlock st_linear /\ txPool bcF = txPool st_linear /\
    vlog bcF = vlog st_linear.
Proof.
  apply SetTailBlock_same_head. vm_compute. reflexivity.
Defined.

(** X6 at work: from the head [G] of [st_put] to [B2]. *)
Lemma SetTailBlock_fast_forward_witness :
  exists bcF new,
    walks st_put (tailBlock st_put) B2 new Reached /\
    Z.of_nat (length new) = height B2 - height (tailBlock st_put) /\
    SetTailBlock 8 B2 st_put
    = Some (bcF, (putAll (commitEntries new B2) (storage st_put)).2) /\
    storage bcF = (putAll (commitEntries new B2) (storage st_put)).1 /\
    txPool bcF = txPool st_put /\
    ((putAll (commitEntries new B2) (storage st_put)).2 = None ->
     tailBlock bcF = B2).
Proof.
  apply SetTailBlock_fast_forward.
  - exact st_put_well_formed.
  - exact st_put_canonical.
  - exact st_put_G_B2.
  - vm_compute. discriminate.
Defined.

(** X7 at work, scenario 3: from the head [B2] to the fork tip [C2]. *)
Lemma SetTailBlock_reorganises_witness :
  exists bcF anc old new,
    SetTailBlock 8 C2 st_linear
    = Some (bcF, (putAll (commitEntries new C2) (storage st_linear)).2) /\
    storage bcF = (putAll (commitEntries new C2) (storage st_linear)).1 /\
    ancestor st_linear anc (tailBlock st_linear) /\
    ancestor st_linear anc C2 /\
    (forall c, ancestor st_linear c (tailBlock st_linear) ->
               ancestor st_linear c C2 -> ancestor st_linear c anc) /\
    walks st_linear anc (tailBlock st_linear) old Reached /\
    walks st_linear anc C2 new Reached /\
    Z.of_nat (length old) = height (tailBlock st_linear) - height anc /\
    Z.of_nat (length new) = height C2 - height anc /\
    txPool bcF = txPool st_linear ++ concat (map transactions old) /\
    vlog bcF = vlog st_linear ++ map LogRevertedBlock old ++
               match (putAll (map indexEntry new) (storage st_linear)).2 with
               | Some _ => [LogBuildIndexFailed anc C2]
               | None => []
               end /\
    tailBlock bcF =
      match (putAll (commitEntries new C2) (storage st_linear)).2 with
      | None => C2
      | Some _ => tailBlock st_linear
      end.
Proof.
  apply (SetTailBlock_reorganises 8 C2 st_linear G).
  - exact st_linear_well_formed.
  - exact st_linear_canonical.
  - exact st_linear_G_B2.
  - exact st_linear_G_C2.
  - vm_compute. discriminate.
Defined.

(** *** Restart and first start (X8 - X10) *)

Lemma loadTailFromStorage_after_SetTailBlock_witness :
  loadTailFromStorage conf1 (storage st_fork) = (storage st_fork, Ok C2).
Proof.
  apply (loadTailFromStorage_after_SetTailBlock 8 C2 st_linear st_fork conf1).
  - unfold st_fork. apply run_eq. vm_compute. reflexivity.
  - reflexivity.
  - vm_compute. reflexivity.
Defined.

Lemma NewBlockChain_restart_witness :
  NewBlockChain conf1 (storage st_linear) zero_gauges
  = (storage st_linear,
     Ok {| chainID := Meta_ChainId conf1; genesis := conf1;
           genesisBlock := G; tailBlock := B2; txPool := [];
           cachedBlocks := lru_New 1024;
           detachedTailBlocks := lru_New 64;
           storage := storage st_linear; gauges := zero_gauges;
           vlog := [] |}).
Proof.
  apply (NewBlockChain_restart conf1 (storage st_linear) zero_gauges G
           conf1 (hash B2) B2).
  - reflexivity.
  - reflexivity.
  - vm_compute. reflexivity.
  - reflexivity.
  - vm_compute. reflexivity.
  - vm_compute. reflexivity.
  - vm_compute. reflexivity.
Defined.

(** X10 at work, scenario 1: the empty store. *)
Lemma NewBlockChain_first_start_witness :
  exists bc,
    NewBlockChain conf1 empty_store zero_gauges = (s_tail, Ok bc) /\
    genesisBlock bc = G /\ tailBlock bc = G /\ storage bc = s_tail /\
    Get s_tail Tail = Ok (hash G) /\
    (GetBlockByHeight (height G) bc).2 = Some G /\
    DetachedTailBlocks bc = (bc, []).
Proof.
  apply (NewBlockChain_first_start (Sto := mem_storage) conf1 empty_store
           zero_gauges ErrKeyNotFound empty_store G s_block s_index s_tail
           conf1).
  - reflexivity.
  - reflexivity.
  - vm_compute. reflexivity.
  - reflexivity.
  - reflexivity.
  - reflexivity.
  - reflexivity.
  - apply wire_round_trips. vm_compute. reflexivity.
  - vm_compute. reflexivity.
  - unfold s_block. apply surjective_pairing_snd. vm_compute. reflexivity.
  - unfold s_index. apply surjective_pairing_snd. vm_compute. reflexivity.
  - vm_compute. reflexivity.
  - unfold s_tail. apply surjective_pairing_snd. vm_compute. reflexivity.
Defined.

(** *** The canonical chain (X11, X12) *)

Lemma GetBlockByHeight_canonical_path_witness :
  exists x,
    (GetBlockByHeight 1 st_linear).2 = Some x /\ height x = 1 /\
    ancestor st_linear x (tailBlock st_linear) /\
    (height G < 1 ->
     exists p, (GetBlockByHeight (1 - 1) st_linear).2 = Some p /\
               parentHash x = hash p /\ height p = 1 - 1).
Proof.
  apply (GetBlockByHeight_canonical_path st_linear G 1).
  - exact st_linear_well_formed.
  - exact st_linear_canonical.
  - exact st_linear_G_B2.
  - split; vm_compute; discriminate.
Defined.

(** X12 at work: five descendants of [G] are asked for, the head is two
    above it. *)
Lemma FetchDescendantInCanonicalChain_canonical_witness :
  exists bc' blocks,
    FetchDescendantInCanonicalChain 8 5 G st_linear
    = Some (bc', Ok blocks) /\
    map height blocks = descendant_heights 5 G st_linear /\
    Forall (fun x => ancestor st_linear G x /\
                     ancestor st_linear x (tailBlock st_linear)) blocks.
Proof.
  apply (FetchDescendantInCanonicalChain_canonical 8 5 G st_linear).
  - exact st_linear_well_formed.
  - exact st_linear_canonical.
  - exact st_linear_G_B2.
  - lia.
  - vm_compute. reflexivity.
  - vm_compute. discriminate.
Defined.

(** *** The gas price (X13 - X15) *)

(** X13 at work: the head [C2] of [st_fork] has no transactions, its parent
    [C1] has one, of price 1. *)
Lemma GasPrice_returns_witness :
  exists bc',
    GasPrice isGenesis maxGasPrice defaultGasPrice 8 st_fork
    = Some (bc', Returned 1) /\
    touched st_fork bc' /\
    exists pre b rest,
      chain_of 9 st_fork (tailBlock st_fork) = pre ++ b :: rest /\
      Forall (fun x => isGenesis x = false /\ transactions x = []) pre /\
      ((transactions b <> [] /\
        1 <= maxGasPrice /\
        Forall (fun tx => 1 <= gasPrice tx) (transactions b) /\
        (1 = maxGasPrice \/
         exists tx, tx ∈ transactions b /\ 1 = gasPrice tx)) \/
       (transactions b = [] /\ isGenesis b = true /\
        1 = defaultGasPrice)).
Proof.
  assert (GasPrice isGenesis maxGasPrice defaultGasPrice 8 st_fork
          = Some (run (GasPrice isGenesis maxGasPrice defaultGasPrice 8
                         st_fork), Returned 1)) as E
    by (apply run_eq; vm_compute; reflexivity).
  eexists. split; [exact E|].
  exact (GasPrice_returns isGenesis maxGasPrice defaultGasPrice 8 st_fork
           _ 1 E).
Defined.

Lemma GasPrice_total_witness :
  exists bc' p,
    GasPrice isGenesis maxGasPrice defaultGasPrice 8 st_fork
    = Some (bc', Returned p).
Proof.
  apply (GasPrice_total isGenesis maxGasPrice defaultGasPrice 8 st_fork G).
  - exact st_fork_well_formed.
  - exact st_fork_G_C2.
  - reflexivity.
  - vm_compute. discriminate.
Defined.

(** X15 at work: after a restart the record of [C1] is unreadable. *)
Lemma GasPrice_nil_parent_witness :
  exists bc',
    GasPrice isGenesis maxGasPrice defaultGasPrice 8 st_fork_unreadable
    = Some (bc', NilDereference).
Proof.
  apply GasPrice_nil_parent.
  - vm_compute. reflexivity.
  - apply (bool_decide_unpack _). vm_compute. exact I.
Defined.

End SampleMoreFacts.
